(** * Conditional Distribution Similarity statistic (CDS.py)

    A shallow embedding of [causality/pairwise_models/CDS.py] and the
    properties of its discretizer, distribution estimator, alignment step,
    aggregator and directional comparator.

    Numbers are IEEE-754 binary64 values, as numpy's float64 and Python's
    float are: they are represented by [spec_float] with the operations of
    [SpecFloat] instantiated at precision 53 and maximal exponent 1024, so
    that rounding, overflow, infinities and NaN are the ones the program
    meets.  Arrays live in a store and are passed by reference, so that
    the in-place assignments of the discretizer are visible as such. *)

From Stdlib Require Import String.
From Stdlib Require Import ZArith List Bool Lia.
From Stdlib Require Import Floats.SpecFloat.
Import ListNotations.
Open Scope Z_scope.

(** ** Binary64 numbers *)

Module F64.

Definition prec : Z := 53.
Definition emax : Z := 1024.

Definition float := spec_float.

Definition add : float -> float -> float := SFadd prec emax.
Definition sub : float -> float -> float := SFsub prec emax.
Definition mul : float -> float -> float := SFmul prec emax.
Definition div : float -> float -> float := SFdiv prec emax.
Definition sqrt : float -> float := SFsqrt prec emax.
Definition opp : float -> float := SFopp.
Definition abs : float -> float := SFabs.
Definition eqb : float -> float -> bool := SFeqb.
Definition ltb : float -> float -> bool := SFltb.
Definition leb : float -> float -> bool := SFleb.

(** Conversion of a Python integer, rounding to nearest even. *)
Definition of_Z (z : Z) : float := binary_normalize prec emax z 0 false.

Definition zero : float := S754_zero false.

Definition is_nan (x : float) : bool :=
  match x with S754_nan => true | _ => false end.

Definition is_finite (x : float) : bool :=
  match x with S754_zero _ | S754_finite _ _ _ => true | _ => false end.

(** [rint]: round to the nearest integer, ties to even, which is what
    [np.round] does with zero decimals.  A value whose exponent is not
    negative is an integer already. *)
Definition rint (x : float) : float :=
  match x with
  | S754_finite s m (Zneg p) =>
      let mrs := fst (shr (Build_shr_record (Zpos m) false false) (Zneg p) (Zpos p)) in
      let q := round_nearest_even (shr_m mrs) (loc_of_shr_record mrs) in
      binary_normalize prec emax (cond_Zopp s q) 0 s
  | _ => x
  end.

Definition INT64_MIN : Z := - 2 ^ 63.

(** [astype(int)]: truncation toward zero to a 64-bit integer.  NaN,
    infinities and values out of range give the "integer indefinite"
    value [-2^63] of the x86-64 conversion instruction. *)
Definition to_int64 (x : float) : Z :=
  match x with
  | S754_zero _ => 0
  | S754_finite s m e =>
      let a := match e with
               | Zneg p => Z.shiftr (Zpos m) (Zpos p)
               | _ => Z.shiftl (Zpos m) e
               end in
      let v := cond_Zopp s a in
      if (INT64_MIN <=? v) && (v <? 2 ^ 63) then v else INT64_MIN
  | _ => INT64_MIN
  end.

End F64.

Import F64.

(** ** Python values, exceptions and the store *)

(** The elements a sequence can hold: numpy float64 scalars, integers (the
    bins of the continuous range and the result of [astype(int)]), and an
    object that cannot be hashed, such as a list inside an object array. *)
Inductive pyobj : Type :=
| PyInt (z : Z)
| PyFloat (f : float)
| PyUnhashable.

Inductive exn : Type :=
| TypeError
| AssertionError
| ValueError
| IndexError
| ReferenceError.

Inductive result (A : Type) : Type :=
| Ok (a : A)
| Raise (e : exn).
Arguments Ok {A} a.
Arguments Raise {A} e.

Definition rbind {A B} (r : result A) (k : A -> result B) : result B :=
  match r with
  | Ok a => k a
  | Raise e => Raise e
  end.

Definition ndarray := list pyobj.
Definition ref := nat.
Definition heap := list ndarray.

(** Computations that read and write the store and may raise.  The store
    is kept when an exception is raised. *)
Definition M (A : Type) : Type := heap -> result A * heap.

Definition ret {A} (a : A) : M A := fun h => (Ok a, h).

Definition bind {A B} (m : M A) (k : A -> M B) : M B :=
  fun h => match m h with
           | (Ok a, h') => k a h'
           | (Raise e, h') => (Raise e, h')
           end.

Definition lift {A} (r : result A) : M A := fun h => (r, h).

Definition raise {A} (e : exn) : M A := fun h => (Raise e, h).

Declare Scope py_scope.
Delimit Scope py_scope with py.
Notation "x <- c ;; k" := (bind c (fun x => k))
  (at level 100, c at next level, right associativity) : py_scope.
Notation "' p <- c ;; k" := (bind c (fun x => match x with p => k end))
  (at level 100, p pattern, c at next level, right associativity) : py_scope.
Notation "c ;;; k" := (bind c (fun _ => k))
  (at level 100, right associativity) : py_scope.
Notation "x <~ c ;; k" := (rbind c (fun x => k))
  (at level 100, c at next level, right associativity) : py_scope.
Open Scope py_scope.

Definition load (r : ref) : M ndarray :=
  fun h => match nth_error h r with
           | Some a => (Ok a, h)
           | None => (Raise ReferenceError, h)
           end.

(** A new array object: its reference is the next free cell. *)
Definition alloc (a : ndarray) : M ref :=
  fun h => (Ok (length h), h ++ [a]).

Fixpoint update (h : heap) (r : ref) (a : ndarray) : heap :=
  match h, r with
  | [], _ => []
  | _ :: t, O => a :: t
  | c :: t, S r' => c :: update t r' a
  end.

(** Writing into an existing array object. *)
Definition store (r : ref) (a : ndarray) : M unit :=
  fun h => match nth_error h r with
           | Some _ => (Ok tt, update h r a)
           | None => (Raise ReferenceError, h)
           end.

(** *** Hashing, equality and order of Python values *)

Definition py_hashable (o : pyobj) : bool :=
  match o with PyUnhashable => false | _ => true end.

(** [a == b] for two distinct objects.  NaN is equal to nothing. *)
Definition py_eq (a b : pyobj) : bool :=
  match a, b with
  | PyInt x, PyInt y => Z.eqb x y
  | PyFloat x, PyFloat y => eqb x y
  | PyInt x, PyFloat y => eqb (of_Z x) y
  | PyFloat x, PyInt y => eqb x (of_Z y)
  | _, _ => false
  end.

(** [a < b]; Python 2 orders a number before any other object. *)
Definition py_lt (a b : pyobj) : bool :=
  match a, b with
  | PyInt x, PyInt y => Z.ltb x y
  | PyFloat x, PyFloat y => ltb x y
  | PyInt x, PyFloat y => ltb (of_Z x) y
  | PyFloat x, PyInt y => ltb x (of_Z y)
  | PyUnhashable, _ => false
  | _, PyUnhashable => true
  end.

(** Arithmetic needs numbers: an object that is not one raises. *)
Definition as_float (o : pyobj) : result float :=
  match o with
  | PyFloat f => Ok f
  | PyInt z => Ok (of_Z z)
  | PyUnhashable => Raise TypeError
  end.

Fixpoint as_floats (x : ndarray) : result (list float) :=
  match x with
  | [] => Ok []
  | o :: r => f <~ as_float o ;; fs <~ as_floats r ;; Ok (f :: fs)
  end.

Definition box (fs : list float) : ndarray := map PyFloat fs.

(** *** [set], [Counter], [sorted], [range], [max], [index], [sum] *)

(** A set, in insertion order.  Elements met while iterating an array are
    fresh objects, so membership is decided by [==] alone and every NaN is
    a new member. *)
Definition set_add (s : list pyobj) (o : pyobj) : list pyobj :=
  if existsb (fun k => py_eq k o) s then s else s ++ [o].

Fixpoint set_update (s : list pyobj) (x : ndarray) : result (list pyobj) :=
  match x with
  | [] => Ok s
  | o :: r => if py_hashable o then set_update (set_add s o) r
              else Raise TypeError
  end.

Definition py_set (x : ndarray) : result (list pyobj) := set_update [] x.

(** A [Counter], as the list of its items in insertion order. *)
Definition counter := list (pyobj * Z).

Fixpoint counter_incr (c : counter) (o : pyobj) : counter :=
  match c with
  | [] => [(o, 1)]
  | (k, n) :: r => if py_eq k o then (k, n + 1) :: r
                   else (k, n) :: counter_incr r o
  end.

Fixpoint counter_update (c : counter) (x : ndarray) : result counter :=
  match x with
  | [] => Ok c
  | o :: r => if py_hashable o then counter_update (counter_incr c o) r
              else Raise TypeError
  end.

Definition Counter (x : ndarray) : result counter := counter_update [] x.

(** [c[o]]: the count of [o], zero when [o] is not a key. *)
Fixpoint counter_get (c : counter) (o : pyobj) : Z :=
  match c with
  | [] => 0
  | (k, n) :: r => if py_eq k o then n else counter_get r o
  end.

Definition keys (c : counter) : list pyobj := map fst c.

Fixpoint insert_sorted (o : pyobj) (l : list pyobj) : list pyobj :=
  match l with
  | [] => [o]
  | k :: t => if py_lt k o then k :: insert_sorted o t else o :: l
  end.

Definition sorted (l : list pyobj) : list pyobj := fold_right insert_sorted [] l.

(** [range(a, b)] *)
Definition py_range (a b : Z) : list Z :=
  map (fun i => a + Z.of_nat i) (seq 0 (Z.to_nat (b - a))).

(** [[v] * n]: empty when [n] is not positive. *)
Definition py_repeat {A} (v : A) (n : Z) : list A := repeat v (Z.to_nat n).

(** [l[i:j]] for [0 <= i]. *)
Definition slice {A} (l : list A) (i j : Z) : list A :=
  firstn (Z.to_nat (j - i)) (skipn (Z.to_nat i) l).

(** The builtin [sum] starts from the integer 0. *)
Definition py_sum (l : list float) : float := fold_left add l (of_Z 0).

(** The builtin [max] keeps the first of the largest items: an item
    replaces the current one only when it is greater. *)
Definition py_max (l : list float) : result float :=
  match l with
  | [] => Raise ValueError
  | x :: r => Ok (fold_left (fun m e => if ltb m e then e else m) r x)
  end.

(** [l.index(v)] looks for the first item that is [v] itself or equal to
    it.  Here [v] is always the result of [max] on the same list, and
    [max] returns a NaN only when it is the first item: "is [v] itself"
    then selects the first NaN. *)
Definition is_or_eq (e v : float) : bool := eqb e v || (is_nan e && is_nan v).

Fixpoint py_index (l : list float) (v : float) : result Z :=
  match l with
  | [] => Raise ValueError
  | e :: r => if is_or_eq e v then Ok 0
              else i <~ py_index r v ;; Ok (i + 1)
  end.

(** ** numpy *)

(** [np.sum] of a one-dimensional array: the reduction starts from the
    first element; the empty sum is 0.0.  Elements are accumulated from
    left to right. *)
Definition np_sum (l : list float) : float :=
  match l with
  | [] => zero
  | x :: r => fold_left add r x
  end.

Definition len (l : list float) : float := of_Z (Z.of_nat (length l)).

Definition np_mean (l : list float) : float := div (np_sum l) (len l).

(** [np.std]: [sqrt(mean((x - mean(x))**2))]. *)
Definition np_std (l : list float) : float :=
  let m := np_mean l in
  let d := map (fun e => sub e m) l in
  sqrt (div (np_sum (map (fun e => mul e e) d)) (len l)).

Definition np_round (l : list float) : list float := map rint l.

Fixpoint zip_with {A B C} (f : A -> B -> C) (a : list A) (b : list B) : list C :=
  match a, b with
  | x :: a', y :: b' => f x y :: zip_with f a' b'
  | _, _ => []
  end.

(** [y[mask]] for a boolean mask: the lengths have to agree. *)
Fixpoint getitem_mask (y : ndarray) (mask : list bool) : result ndarray :=
  match y, mask with
  | [], [] => Ok []
  | o :: y', b :: mask' =>
      r <~ getitem_mask y' mask' ;; Ok (if b then o :: r else r)
  | _, _ => Raise IndexError
  end.

(** [x[mask(x)] = v], in place. *)
Definition setitem_where (x : ref) (mask : float -> bool) (v : float) : M unit :=
  a <- load x ;;
  fs <- lift (as_floats a) ;;
  store x (box (map (fun e => if mask e then v else e) fs)).

(** [pyx.mean(axis=0)] of a two-dimensional array given by its rows: the
    rows are added up one after the other. *)
Definition mean_axis0 (rows : list (list float)) : list float :=
  match rows with
  | [] => []
  | r :: rs =>
      map (fun s => div s (of_Z (Z.of_nat (length rows))))
          (fold_left (zip_with add) rs r)
  end.


(** ** CDS.py *)

Definition BINARY : String.string := "Binary"%string.
Definition CATEGORICAL : String.string := "Categorical"%string.
Definition NUMERICAL : String.string := "Numerical"%string.

(** [len(set(x))]; the [TypeError] of an unhashable element is caught,
    the sequence printed, and the same exception raised again. *)
Definition count_unique (x : ndarray) : result Z :=
  s <~ py_set x ;; Ok (Z.of_nat (length s)).

Definition numerical (tp : String.string) : bool := String.eqb tp NUMERICAL.

Definition discretized_values (x : ndarray) (tx : String.string)
    (ffactor maxdev : Z) : result (list pyobj) :=
  c <~ (if numerical tx
        then n <~ count_unique x ;; Ok (2 * ffactor * maxdev + 1 <? n)
        else Ok false) ;;
  if c then
    let vmax := ffactor * maxdev in
    let vmin := - ffactor * maxdev in
    Ok (map PyInt (py_range vmin (vmax + 1)))
  else
    s <~ py_set x ;; Ok (sorted s).

Definition len_discretized_values (x : ndarray) (tx : String.string)
    (ffactor maxdev : Z) : result Z :=
  v <~ discretized_values x tx ffactor maxdev ;; Ok (Z.of_nat (length v)).

(** The test that opens [discretized_sequence]:
    [not norm or (numerical(tx) and count_unique(x) > len_discretized_values(...))],
    evaluated from left to right. *)
Definition wants_discretization (a : ndarray) (tx : String.string)
    (ffactor maxdev : Z) (norm : bool) : result bool :=
  if negb norm then Ok true
  else if numerical tx
       then n <~ count_unique a ;;
            l <~ len_discretized_values a tx ffactor maxdev ;;
            Ok (l <? n)
       else Ok false.

(** [(x - np.mean(x)) / np.std(x)] *)
Definition standardize (x : list float) : list float :=
  map (fun e => div (sub e (np_mean x)) (np_std x)) x.

(** The two passes of the [norm] branch: the second pass uses the mean and
    the deviation of the values within [maxdev] deviations of the first. *)
Definition restandardize (x : list float) (maxdev : Z) : list float :=
  let x' := standardize x in
  let xf := filter (fun e => ltb (abs e) (of_Z maxdev)) x' in
  map (fun e => div (sub e (np_mean xf)) (np_std xf)) x'.

(** The discretizer.  The arithmetic builds new arrays; [np.round] returns
    the array that the two masked assignments then clip in place.  When the
    sequence is left as it is, the very same array object is returned. *)
Definition discretized_sequence (x : ref) (tx : String.string)
    (ffactor maxdev : Z) (norm : bool) : M ref :=
  a <- load x ;;
  c <- lift (wants_discretization a tx ffactor maxdev norm) ;;
  if c then
    x0 <- lift (as_floats a) ;;
    let x1 := if norm then restandardize x0 maxdev else x0 in
    x2 <- alloc (box (np_round (map (fun e => mul e (of_Z ffactor)) x1))) ;;
    let vmax := ffactor * maxdev in
    let vmin := - ffactor * maxdev in
    setitem_where x2 (fun e => ltb (of_Z vmax) e) (of_Z vmax) ;;;
    setitem_where x2 (fun e => ltb e (of_Z vmin)) (of_Z vmin) ;;;
    ret x2
  else ret x.

Definition discretized_sequences (x y : ref) (ffactor maxdev : Z) : M (ref * ref) :=
  xd <- discretized_sequence x NUMERICAL ffactor maxdev true ;;
  yd <- discretized_sequence y NUMERICAL ffactor maxdev true ;;
  ret (xd, yd).

Record CDS : Type := { ffactor : Z; maxdev : Z; minc : Z }.

(** [CDS()] with the default arguments of [__init__]. *)
Definition CDS_default : CDS := {| ffactor := 2; maxdev := 3; minc := 12 |}.

(** *** The alignment of the low-cardinality branch *)

(** [np.array([0]*(ny-1) + pyxa + [0]*(ny-1), dtype=float)] *)
Definition pad (ny : Z) (pyxa : list Z) : list float :=
  map of_Z (py_repeat 0 (ny - 1) ++ pyxa ++ py_repeat 0 (ny - 1)).

(** [[sum(py * pyxax[i:i+ny]) for i in range(2*ny-1)]] *)
Definition cross_correlation (py : list float) (ny : Z) (pyxax : list float)
    : list float :=
  map (fun i => py_sum (zip_with mul py (slice pyxax i (i + ny))))
      (py_range 0 (2 * ny - 1)).

(** [np.array([0]*(2*ny-2-imax) + pyxa + [0]*imax, dtype=float)] *)
Definition repad (ny imax : Z) (pyxa : list Z) : list float :=
  map of_Z (py_repeat 0 (2 * ny - 2 - imax) ++ pyxa ++ py_repeat 0 imax).

Definition best_offset (xcorr : list float) : result Z :=
  m <~ py_max xcorr ;; py_index xcorr m.

Definition align (py : list float) (ny : Z) (pyxa : list Z) : result (list float) :=
  let pyxax := pad ny pyxa in
  let xcorr := cross_correlation py ny pyxax in
  imax <~ best_offset xcorr ;;
  Ok (repad ny imax pyxa).

(** *** The score *)

(** [pyxa / pyxa.sum()] *)
Definition normalize (pyxa : list float) : list float :=
  map (fun p => div p (np_sum pyxa)) pyxa.

(** [pyx - pyx.mean(axis=0)], then [np.std] of all its entries. *)
Definition aggregate (pyx : list (list float)) : float :=
  let mean := mean_axis0 pyx in
  let pyx' := map (fun row => zip_with sub row mean) pyx in
  np_std (concat pyx').

Fixpoint for_each {A B} (f : A -> B -> M A) (acc : A) (l : list B) : M A :=
  match l with
  | [] => ret acc
  | b :: r => acc' <- f acc b ;; for_each f acc' r
  end.

Section Scoring.

Variable self : CDS.

(** [count_unique(y_te) > len_discretized_values(y_te, "Numerical", ...)] *)
Definition continuous (yv : ndarray) : result bool :=
  n <~ count_unique yv ;;
  l <~ len_discretized_values yv NUMERICAL self.(ffactor) self.(maxdev) ;;
  Ok (l <? n).

(** The conditional histogram of the effect for the cause-bin [a], before
    the count check: the body of the loop of [cds_score] down to the
    [assert].  [cy] is only used through [yrange] and [py].  [y_te] is read
    again after the call that writes into an array. *)
Definition conditional_histogram (xd y_te : ref) (yrange : list pyobj)
    (py : list float) (a : pyobj) : M (list float) :=
  let ny := Z.of_nat (length yrange) in
  xdv <- load xd ;;
  yv <- load y_te ;;
  yx <- lift (getitem_mask yv (map (fun e => py_eq e a) xdv)) ;;
  c <- lift (continuous yv) ;;
  if c then
    yx0 <- lift (as_floats yx) ;;
    y0 <- lift (as_floats yv) ;;
    yx1 <- alloc (box (map (fun e => div (sub e (np_mean yx0)) (np_std y0)) yx0)) ;;
    yx2 <- discretized_sequence yx1 NUMERICAL self.(ffactor) self.(maxdev) false ;;
    yx3 <- load yx2 ;;
    yx4 <- lift (as_floats yx3) ;;
    cyx <- lift (Counter (map (fun e => PyInt (to_int64 e)) yx4)) ;;
    yv' <- load y_te ;;
    dv <- lift (discretized_values yv' NUMERICAL self.(ffactor) self.(maxdev)) ;;
    ret (map (fun i => of_Z (counter_get cyx i)) dv)
  else
    cyx <- lift (Counter yx) ;;
    let pyxa := map (fun i => counter_get cyx i) yrange in
    lift (align py ny pyxa).

(** One turn of the loop for the item [(a, n)] of [cx]: [cx[a]] for a key
    taken from [cx] itself is the count stored with it. *)
Definition cds_loop_body (xd y_te : ref) (yrange : list pyobj) (py : list float)
    (pyx : list (list float)) (item : pyobj * Z) : M (list (list float)) :=
  let '(a, n) := item in
  if self.(minc) <? n then
    pyxa <- conditional_histogram xd y_te yrange py a ;;
    if eqb (np_sum pyxa) (of_Z n) then ret (pyx ++ [normalize pyxa])
    else raise AssertionError
  else ret pyx.

(** The marginal distribution of the effect over [yrange]. *)
Definition marginal (cy : counter) (yrange : list pyobj) : list float :=
  normalize (map (fun i => of_Z (counter_get cy i)) yrange).

(** The result 0 of the empty case is the integer 0, here [0.0]. *)
Definition cds_score (x_te y_te : ref) : M float :=
  ' (xd, yd) <- discretized_sequences x_te y_te self.(ffactor) self.(maxdev) ;;
  xdv <- load xd ;;
  cx <- lift (Counter xdv) ;;
  ydv <- load yd ;;
  cy <- lift (Counter ydv) ;;
  let yrange := sorted (keys cy) in
  let py := marginal cy yrange in
  pyx <- for_each (cds_loop_body xd y_te yrange py) [] cx ;;
  if (Z.of_nat (length pyx) =? 0) then ret (of_Z 0)
  else ret (aggregate pyx).

Definition predict_proba (a b : ref) : M float :=
  u <- cds_score b a ;;
  v <- cds_score a b ;;
  ret (sub u v).

End Scoring.

(** ** The values computed, without the store

    The same computations as functions of the contents of the arrays.  They
    are related to the program by the [..._run] lemmas below. *)

Definition clip (vmin vmax : Z) (e : float) : float :=
  let e1 := if ltb (of_Z vmax) e then of_Z vmax else e in
  if ltb e1 (of_Z vmin) then of_Z vmin else e1.

(** The contents of the array [discretized_sequence] builds. *)
Definition discretize (x0 : list float) (ffactor maxdev : Z) (norm : bool)
    : list float :=
  let x1 := if norm then restandardize x0 maxdev else x0 in
  map (clip (- ffactor * maxdev) (ffactor * maxdev))
      (np_round (map (fun e => mul e (of_Z ffactor)) x1)).

Definition discretized_sequence_val (a : ndarray) (tx : String.string)
    (ffactor maxdev : Z) (norm : bool) : result ndarray :=
  c <~ wants_discretization a tx ffactor maxdev norm ;;
  if c then x0 <~ as_floats a ;; Ok (box (discretize x0 ffactor maxdev norm))
  else Ok a.

Fixpoint for_each_val {A B} (f : A -> B -> result A) (acc : A) (l : list B)
    : result A :=
  match l with
  | [] => Ok acc
  | b :: r => acc' <~ f acc b ;; for_each_val f acc' r
  end.

Section ScoringValues.

Variable self : CDS.

Definition conditional_histogram_val (xdv yv : ndarray) (yrange : list pyobj)
    (py : list float) (a : pyobj) : result (list float) :=
  let ny := Z.of_nat (length yrange) in
  yx <~ getitem_mask yv (map (fun e => py_eq e a) xdv) ;;
  c <~ continuous self yv ;;
  if c then
    yx0 <~ as_floats yx ;;
    y0 <~ as_floats yv ;;
    let yx1 := box (map (fun e => div (sub e (np_mean yx0)) (np_std y0)) yx0) in
    yx3 <~ discretized_sequence_val yx1 NUMERICAL self.(ffactor) self.(maxdev) false ;;
    yx4 <~ as_floats yx3 ;;
    cyx <~ Counter (map (fun e => PyInt (to_int64 e)) yx4) ;;
    dv <~ discretized_values yv NUMERICAL self.(ffactor) self.(maxdev) ;;
    Ok (map (fun i => of_Z (counter_get cyx i)) dv)
  else
    cyx <~ Counter yx ;;
    align py ny (map (fun i => counter_get cyx i) yrange).

Definition cds_loop_body_val (xdv yv : ndarray) (yrange : list pyobj)
    (py : list float) (pyx : list (list float)) (item : pyobj * Z)
    : result (list (list float)) :=
  let '(a, n) := item in
  if self.(minc) <? n then
    pyxa <~ conditional_histogram_val xdv yv yrange py a ;;
    if eqb (np_sum pyxa) (of_Z n) then Ok (pyx ++ [normalize pyxa])
    else Raise AssertionError
  else Ok pyx.

Definition cds_score_val (xv yv : ndarray) : result float :=
  xdv <~ discretized_sequence_val xv NUMERICAL self.(ffactor) self.(maxdev) true ;;
  ydv <~ discretized_sequence_val yv NUMERICAL self.(ffactor) self.(maxdev) true ;;
  cx <~ Counter xdv ;;
  cy <~ Counter ydv ;;
  let yrange := sorted (keys cy) in
  let py := marginal cy yrange in
  pyx <~ for_each_val (cds_loop_body_val xdv yv yrange py) [] cx ;;
  if (Z.of_nat (length pyx) =? 0) then Ok (of_Z 0)
  else Ok (aggregate pyx).

Definition predict_proba_val (av bv : ndarray) : result float :=
  u <~ cds_score_val bv av ;;
  v <~ cds_score_val av bv ;;
  Ok (sub u v).

End ScoringValues.

(** * Binary64: comparison and signs *)

Module F64Facts.

(** The sign of a value that is not NaN ([true] for negative). *)
Definition sign_of (x : float) : option bool :=
  match x with
  | S754_zero s | S754_infinity s | S754_finite s _ _ => Some s
  | S754_nan => None
  end.

Lemma compare_cont_antisym (m1 m2 : positive) :
  Pos.compare_cont Eq m2 m1 = CompOpp (Pos.compare_cont Eq m1 m2).
Proof. apply (Pos.compare_antisym m1 m2). Qed.

Lemma compare_antisym (a b : float) (c : comparison) :
  SFcompare a b = Some c -> SFcompare b a = Some (CompOpp c).
Proof.
  destruct a as [sa|sa| |sa ma ea], b as [sb|sb| |sb mb eb]; simpl;
    intros H; try discriminate;
    try (injection H as <-);
    try (destruct sa; destruct sb; reflexivity);
    try (destruct sa; reflexivity); try (destruct sb; reflexivity).
  destruct sa, sb; try reflexivity;
    rewrite (Z.compare_antisym ea eb);
    destruct (ea ?= eb); simpl; try reflexivity;
    rewrite (compare_cont_antisym ma mb);
    now destruct (Pos.compare_cont Eq ma mb).
Qed.

Lemma compare_refl (a : float) : is_nan a = false -> SFcompare a a = Some Eq.
Proof.
  destruct a as [s|s| |s m e]; simpl; intros H; try discriminate;
    try (destruct s; reflexivity).
  destruct s; rewrite Z.compare_refl;
    change (Pos.compare_cont Eq m m) with (Pos.compare m m);
    now rewrite Pos.compare_refl.
Qed.

Lemma compare_nan_iff (a b : float) :
  SFcompare a b = None <-> is_nan a = true \/ is_nan b = true.
Proof.
  destruct a as [sa|sa| |sa ma ea], b as [sb|sb| |sb mb eb]; simpl;
    intuition (try discriminate; auto).
Qed.

Lemma eqb_refl (a : float) : is_nan a = false -> eqb a a = true.
Proof. intros H. unfold eqb, SFeqb. now rewrite compare_refl. Qed.

Lemma leb_refl (a : float) : is_nan a = false -> leb a a = true.
Proof. intros H. unfold leb, SFleb. now rewrite compare_refl. Qed.

(** For two numbers, "not less" is "greater or equal". *)
Lemma not_ltb_leb (a b : float) :
  is_nan a = false -> is_nan b = false -> ltb a b = false -> leb b a = true.
Proof.
  intros Ha Hb. unfold ltb, leb, SFltb, SFleb.
  destruct (SFcompare a b) as [c|] eqn:E.
  - rewrite (compare_antisym _ _ _ E). now destruct c.
  - apply compare_nan_iff in E. destruct E; congruence.
Qed.

Lemma ltb_leb_false (a b : float) : ltb a b = true -> leb b a = true -> False.
Proof.
  unfold ltb, leb, SFltb, SFleb.
  destruct (SFcompare a b) as [c|] eqn:E; [|discriminate].
  rewrite (compare_antisym _ _ _ E). now destruct c.
Qed.

Lemma ltb_not_nan (a b : float) :
  ltb a b = true -> is_nan a = false /\ is_nan b = false.
Proof.
  unfold ltb, SFltb.
  destruct a as [sa|sa| |sa ma ea], b as [sb|sb| |sb mb eb]; simpl;
    intros H; try discriminate; auto.
Qed.

(** ** The shape of a rounded value *)

Lemma shr_1_nonneg (mrs : shr_record) : 0 <= shr_m mrs -> 0 <= shr_m (shr_1 mrs).
Proof.
  destruct mrs as [m r s]. simpl.
  destruct m as [|[p|p|]|[p|p|]]; simpl; lia.
Qed.

Lemma iter_pos_nonneg (p : positive) (mrs : shr_record) :
  0 <= shr_m mrs -> 0 <= shr_m (iter_pos shr_1 p mrs).
Proof.
  revert mrs. induction p as [p IH|p IH|]; intros mrs H; simpl.
  - apply IH, IH. now apply shr_1_nonneg.
  - now apply IH, IH.
  - now apply shr_1_nonneg.
Qed.

Lemma shr_nonneg (mrs : shr_record) (e n : Z) :
  0 <= shr_m mrs -> 0 <= shr_m (fst (shr mrs e n)).
Proof.
  intros H. destruct n; simpl; auto. now apply iter_pos_nonneg.
Qed.

Lemma shr_fexp_nonneg (m e : Z) (l : location) :
  0 <= m -> 0 <= shr_m (fst (shr_fexp prec emax m e l)).
Proof.
  intros H. unfold shr_fexp. apply shr_nonneg.
  now destruct l as [|[| |]].
Qed.

Lemma round_nearest_even_nonneg (m : Z) (l : location) :
  0 <= m -> 0 <= round_nearest_even m l.
Proof.
  intros H. destruct l as [|[| |]]; simpl; try lia.
  destruct (Z.even m); lia.
Qed.

(** A rounded magnitude is a zero, a finite number or an infinity of the
    sign asked for: never NaN. *)
Definition signed (s : bool) (x : float) : Prop := sign_of x = Some s.

Lemma binary_round_aux_signed (s : bool) (m e : Z) (l : location) :
  0 <= m -> signed s (binary_round_aux prec emax s m e l).
Proof.
  intros H. unfold binary_round_aux.
  pose proof (shr_fexp_nonneg m e l H) as H1.
  destruct (shr_fexp prec emax m e l) as [mrs' e'] eqn:E1. simpl in H1.
  pose proof (shr_fexp_nonneg _ e' loc_Exact
                (round_nearest_even_nonneg _ (loc_of_shr_record mrs') H1)) as H2.
  destruct (shr_fexp prec emax (round_nearest_even _ _) e' loc_Exact)
    as [mrs'' e''] eqn:E2. simpl in H2.
  destruct (shr_m mrs'') as [|p|p]; try reflexivity; [|lia].
  now destruct (e'' <=? emax - prec).
Qed.

Lemma binary_round_signed (s : bool) (m : positive) (e : Z) :
  signed s (binary_round prec emax s m e).
Proof.
  unfold binary_round.
  destruct (shl_align m e _) as [mz ez]. now apply binary_round_aux_signed.
Qed.

Lemma of_Z_signed (z : Z) : signed (z <? 0) (of_Z z).
Proof.
  unfold of_Z, binary_normalize. destruct z as [|p|p]; simpl.
  - reflexivity.
  - apply binary_round_signed.
  - apply binary_round_signed.
Qed.

Lemma signed_not_nan (s : bool) (x : float) : signed s x -> is_nan x = false.
Proof. now destruct x. Qed.

Lemma of_Z_not_nan (z : Z) : is_nan (of_Z z) = false.
Proof. exact (signed_not_nan _ _ (of_Z_signed z)). Qed.

Lemma signed_leb (x y : float) : signed true x -> signed false y -> leb x y = true.
Proof.
  unfold signed, leb, SFleb.
  destruct x as [sx|sx| |sx mx ex], y as [sy|sy| |sy my ey]; simpl;
    intros [= ->] [= ->]; reflexivity.
Qed.

Lemma leb_of_Z_opp (k : Z) : 0 <= k -> leb (of_Z (- k)) (of_Z k) = true.
Proof.
  intros H. destruct (Z.eq_dec k 0) as [->|Hk].
  - reflexivity.
  - apply signed_leb.
    + pose proof (of_Z_signed (- k)) as S.
      replace (- k <? 0) with true in S by (symmetry; apply Z.ltb_lt; lia). exact S.
    + pose proof (of_Z_signed k) as S.
      replace (k <? 0) with false in S by (symmetry; apply Z.ltb_ge; lia). exact S.
Qed.

(** ** Order *)

Ltac split_signs :=
  repeat match goal with s : bool |- _ => destruct s end.

Lemma ltb_trans (a b c : float) :
  ltb a b = true -> ltb b c = true -> ltb a c = true.
Proof.
  unfold ltb, SFltb.
  destruct a as [sa|sa| |sa ma ea], b as [sb|sb| |sb mb eb], c as [sc|sc| |sc mc ec];
    simpl; try discriminate; split_signs; simpl; try discriminate; try reflexivity.
  all: change (Pos.compare_cont Eq) with Pos.compare.
  all: destruct (Z.compare_spec ea eb), (Z.compare_spec eb ec), (Z.compare_spec ea ec);
       try discriminate; try reflexivity; try lia.
  all: subst; destruct (Pos.compare_spec ma mb), (Pos.compare_spec mb mc),
         (Pos.compare_spec ma mc);
       simpl; try discriminate; try reflexivity; try lia.
Qed.

Lemma eqb_sym (a b : float) : eqb a b = eqb b a.
Proof.
  unfold eqb, SFeqb. destruct (SFcompare a b) as [c|] eqn:E.
  - rewrite (compare_antisym _ _ _ E). now destruct c.
  - destruct (SFcompare b a) as [c|] eqn:E'; [|reflexivity].
    apply compare_antisym in E'. congruence.
Qed.

Lemma eqb_trans (a b c : float) :
  eqb a b = true -> eqb b c = true -> eqb a c = true.
Proof.
  unfold eqb, SFeqb.
  destruct a as [sa|sa| |sa ma ea], b as [sb|sb| |sb mb eb], c as [sc|sc| |sc mc ec];
    simpl; try discriminate; split_signs; simpl; try discriminate; try reflexivity.
  all: change (Pos.compare_cont Eq) with Pos.compare.
  all: destruct (Z.compare_spec ea eb), (Z.compare_spec eb ec), (Z.compare_spec ea ec);
       try discriminate; try reflexivity; try lia.
  all: subst; destruct (Pos.compare_spec ma mb), (Pos.compare_spec mb mc),
         (Pos.compare_spec ma mc);
       simpl; try discriminate; try reflexivity; try lia.
Qed.

Lemma eqb_not_nan (a b : float) :
  eqb a b = true -> is_nan a = false /\ is_nan b = false.
Proof.
  unfold eqb, SFeqb.
  destruct a as [sa|sa| |sa ma ea], b as [sb|sb| |sb mb eb]; simpl;
    intros H; try discriminate; auto.
Qed.

End F64Facts.

(** * Binary64: rounding

    What the rounding of [SpecFloat] does to a mantissa and an exponent,
    from its definition: the shifts, the number of digits kept, the
    exponent reached.  Everything is stated on integers. *)

Module Rounding.

Import F64Facts.

Definition emin : Z := -1074.

(** [fexp] at precision 53: the exponent of the last digit kept for a
    value of magnitude [k]. *)
Definition fexp64 (k : Z) : Z := Z.max (k - 53) emin.

Lemma fexp_eq (k : Z) : fexp prec emax k = fexp64 k.
Proof. reflexivity. Qed.

(** ** Digits *)

Lemma digits2_pos_size (p : positive) : digits2_pos p = Pos.size p.
Proof. induction p; simpl; congruence. Qed.

Lemma Zdigits2_log2 (m : Z) : 0 < m -> Zdigits2 m = Z.log2 m + 1.
Proof.
  destruct m as [|p|p]; try lia. intros _. simpl.
  rewrite digits2_pos_size. destruct p; simpl; lia.
Qed.

Lemma Zdigits2_nonneg (m : Z) : 0 <= Zdigits2 m.
Proof. destruct m; simpl; lia. Qed.

Lemma Zdigits2_pos (m : Z) : 0 < m -> 0 < Zdigits2 m.
Proof. destruct m; simpl; lia. Qed.

Lemma Zdigits2_bounds (m : Z) :
  0 < m -> 2 ^ (Zdigits2 m - 1) <= m < 2 ^ Zdigits2 m.
Proof.
  intros H. rewrite (Zdigits2_log2 m H).
  replace (Z.log2 m + 1 - 1) with (Z.log2 m) by lia.
  exact (Z.log2_spec m H).
Qed.

Lemma Zdigits2_unique (m d : Z) :
  2 ^ (d - 1) <= m < 2 ^ d -> 0 < m -> Zdigits2 m = d.
Proof.
  intros H Hm. rewrite (Zdigits2_log2 m Hm).
  assert (0 < d).
  { destruct (Z_lt_le_dec 0 d); [assumption|].
    assert (2 ^ d <= 2 ^ 0) by (apply Z.pow_le_mono_r; lia).
    change (2 ^ 0) with 1 in *. lia. }
  rewrite (Z.log2_unique m (d - 1)); try lia.
  replace (Z.succ (d - 1)) with d by lia. exact H.
Qed.

Lemma Zdigits2_le_pow (m k : Z) : 0 <= k -> 0 <= m < 2 ^ k -> Zdigits2 m <= k.
Proof.
  intros Hk [H0 H]. destruct (Z.eq_dec m 0) as [->|Hm]; [simpl; lia|].
  rewrite Zdigits2_log2 by lia.
  enough (Z.log2 m < k) by lia. apply Z.log2_lt_pow2; lia.
Qed.

Lemma Zdigits2_ge_pow (m k : Z) : 0 <= k -> 2 ^ k <= m -> k < Zdigits2 m.
Proof.
  intros Hk H. assert (0 < m) by (pose proof (Z.pow_pos_nonneg 2 k); lia).
  rewrite Zdigits2_log2 by lia.
  enough (k <= Z.log2 m) by lia. apply Z.log2_le_pow2; lia.
Qed.

Lemma Zdigits2_le (m m' : Z) : 0 <= m <= m' -> Zdigits2 m <= Zdigits2 m'.
Proof.
  intros [H0 H]. destruct (Z.eq_dec m 0) as [->|Hm].
  - simpl. apply Zdigits2_nonneg.
  - rewrite !Zdigits2_log2 by lia.
    enough (Z.log2 m <= Z.log2 m') by lia. now apply Z.log2_le_mono.
Qed.

Lemma Zdigits2_mul_pow2 (m j : Z) :
  0 < m -> 0 <= j -> Zdigits2 (m * 2 ^ j) = Zdigits2 m + j.
Proof.
  intros Hm Hj. assert (0 < 2 ^ j) by (apply Z.pow_pos_nonneg; lia).
  rewrite !Zdigits2_log2 by nia.
  rewrite Z.log2_mul_pow2 by lia. lia.
Qed.

Lemma Zdigits2_div_pow2 (m j : Z) :
  0 <= m -> 0 <= j -> Zdigits2 (m / 2 ^ j) = Z.max (Zdigits2 m - j) 0.
Proof.
  intros Hm Hj. rewrite <- Z.shiftr_div_pow2 by lia.
  destruct (Z.eq_dec m 0) as [->|Hm0].
  - rewrite Z.shiftr_0_l. simpl. lia.
  - destruct (Z_lt_le_dec (Z.log2 m) j) as [Hlt|Hle].
    + rewrite Z.shiftr_eq_0 by lia. rewrite (Zdigits2_log2 m) by lia. simpl. lia.
    + assert (0 < Z.shiftr m j).
      { rewrite Z.shiftr_div_pow2 by lia.
        apply Z.div_str_pos. split; [apply Z.pow_pos_nonneg; lia|].
        apply Z.log2_le_pow2; lia. }
      rewrite !Zdigits2_log2 by lia.
      rewrite Z.log2_shiftr by lia. lia.
Qed.

(** ** Shifting to the right *)

Lemma shr_1_m (mrs : shr_record) : 0 <= shr_m mrs -> shr_m (shr_1 mrs) = shr_m mrs / 2.
Proof.
  destruct mrs as [m r s]. simpl. intros H.
  destruct m as [|[p|p|]|p]; try lia; simpl.
  - reflexivity.
  - rewrite Pos2Z.inj_xI. apply (Z.div_unique _ 2 _ 1); lia.
  - rewrite Pos2Z.inj_xO. apply (Z.div_unique _ 2 _ 0); lia.
  - reflexivity.
Qed.

Lemma shr_1_r (mrs : shr_record) : 0 <= shr_m mrs -> shr_r (shr_1 mrs) = Z.odd (shr_m mrs).
Proof.
  destruct mrs as [m r s]. simpl. intros H.
  destruct m as [|[p|p|]|p]; try lia; reflexivity.
Qed.

Lemma shr_1_s (mrs : shr_record) : shr_s (shr_1 mrs) = shr_r mrs || shr_s mrs.
Proof.
  destruct mrs as [m r s]. simpl.
  destruct m as [|[p|p|]|[p|p|]]; reflexivity.
Qed.

(** An invariant of [n] steps holds after [iter_pos]. *)
Lemma iter_pos_invariant {A} (f : A -> A) (I : Z -> A -> Prop) :
  (forall k x, 0 <= k -> I k x -> I (k + 1) (f x)) ->
  forall p k x, 0 <= k -> I k x -> I (k + Zpos p) (iter_pos f p x).
Proof.
  intros Hf. induction p as [p IH|p IH|]; intros k x Hk Hx; simpl.
  - replace (k + Z.pos p~1) with (k + 1 + Z.pos p + Z.pos p) by lia.
    apply IH; [lia|]. apply IH; [lia|]. now apply Hf.
  - replace (k + Z.pos p~0) with (k + Z.pos p + Z.pos p) by lia.
    apply IH; [lia|]. now apply IH.
  - now apply Hf.
Qed.

Lemma iter_shr_m (p : positive) (mrs : shr_record) :
  0 <= shr_m mrs ->
  shr_m (iter_pos shr_1 p mrs) = shr_m mrs / 2 ^ Zpos p.
Proof.
  intros H0.
  assert (H : 0 <= shr_m (iter_pos shr_1 p mrs) /\
              shr_m (iter_pos shr_1 p mrs) = shr_m mrs / 2 ^ (0 + Zpos p)).
  { apply (iter_pos_invariant shr_1
             (fun k x => 0 <= shr_m x /\ shr_m x = shr_m mrs / 2 ^ k)); [|lia|].
    - intros k x Hk [Hx Hd]. split; [now apply shr_1_nonneg|].
      rewrite shr_1_m by exact Hx. rewrite Hd.
      rewrite Z.pow_add_r by lia.
      rewrite Z.div_div by (try apply Z.pow_pos_nonneg; lia).
      reflexivity.
    - split; [exact H0|]. now rewrite Z.div_1_r. }
  exact (proj2 H).
Qed.

Lemma shr_m_div (mrs : shr_record) (e n : Z) :
  0 <= shr_m mrs -> 0 <= n ->
  shr_m (fst (shr mrs e n)) = shr_m mrs / 2 ^ n /\ snd (shr mrs e n) = e + n.
Proof.
  intros H0 Hn. destruct n as [|p|p]; try lia; simpl.
  - split; [now rewrite Z.div_1_r|lia].
  - split; [now apply iter_shr_m|reflexivity].
Qed.

(** The two bits kept by a shift that starts from an exact mantissa [m]:
    a round bit that is set tells that the remainder is at least a half,
    and no bit is set when the remainder is zero. *)
Definition shifted_exactly (m : Z) (k : Z) (x : shr_record) : Prop :=
  0 <= shr_m x /\ shr_m x = m / 2 ^ k /\
  (shr_r x = true -> 2 ^ k <= 2 * (m mod 2 ^ k)) /\
  (m mod 2 ^ k = 0 -> shr_r x = false /\ shr_s x = false).

Lemma shifted_exactly_step (m k : Z) (x : shr_record) :
  0 <= m -> 0 <= k -> shifted_exactly m k x -> shifted_exactly m (k + 1) (shr_1 x).
Proof.
  intros Hm Hk [H0 [Hd [Hr Hz]]].
  assert (P : 0 < 2 ^ k) by (apply Z.pow_pos_nonneg; lia).
  assert (Hmod : m mod 2 ^ (k + 1) = m mod 2 ^ k + 2 ^ k * ((m / 2 ^ k) mod 2)).
  { rewrite Z.pow_add_r by lia. change (2 ^ 1) with 2.
    apply Z.rem_mul_r; lia. }
  pose proof (Z.mod_pos_bound m (2 ^ k) P) as B.
  pose proof (Zmod_odd (m / 2 ^ k)) as O.
  split; [now apply shr_1_nonneg|]. split; [|split].
  - rewrite shr_1_m by exact H0. rewrite Hd, Z.pow_add_r by lia.
    rewrite Z.div_div by lia. reflexivity.
  - rewrite shr_1_r by exact H0. rewrite Hd. intros Ho. rewrite Ho in O.
    rewrite Hmod, O, Z.pow_add_r by lia. change (2 ^ 1) with 2. lia.
  - intros Hz'. rewrite Hmod in Hz'.
    pose proof (Z.mod_pos_bound (m / 2 ^ k) 2 ltac:(lia)) as B2.
    assert (Hlow : m mod 2 ^ k = 0) by nia.
    assert (Hbit : (m / 2 ^ k) mod 2 = 0) by nia.
    rewrite shr_1_r by exact H0. rewrite shr_1_s, Hd.
    destruct (Hz Hlow) as [-> ->].
    destruct (Z.odd (m / 2 ^ k)) eqn:Eo; [lia|auto].
Qed.

Lemma shifted_exactly_shr (m e n : Z) :
  0 <= m -> 0 <= n ->
  shifted_exactly m n (fst (shr (Build_shr_record m false false) e n)).
Proof.
  intros Hm Hn.
  assert (B : shifted_exactly m 0 (Build_shr_record m false false)).
  { unfold shifted_exactly. simpl. rewrite Z.div_1_r.
    repeat split; auto; discriminate. }
  destruct n as [|p|p]; try lia; simpl; [exact B|].
  apply (iter_pos_invariant shr_1 (shifted_exactly m)
           (fun k x Hk Hx => shifted_exactly_step m k x Hm Hk Hx) p 0); [lia|exact B].
Qed.

(** ** Rounding to nearest even *)

Lemma round_nearest_even_bounds (m : Z) (l : location) :
  m <= round_nearest_even m l <= m + 1.
Proof.
  destruct l as [|[| |]]; simpl; try lia. destruct (Z.even m); lia.
Qed.

Lemma round_nearest_even_up (x : shr_record) :
  round_nearest_even (shr_m x) (loc_of_shr_record x) <> shr_m x -> shr_r x = true.
Proof.
  destruct x as [m [|] [|]]; simpl; auto.
Qed.

Lemma round_nearest_even_exact (x : shr_record) :
  shr_r x = false -> shr_s x = false ->
  round_nearest_even (shr_m x) (loc_of_shr_record x) = shr_m x.
Proof.
  destruct x as [m r s]. simpl. now intros -> ->.
Qed.

(** The value a rounding ends with, from its mantissa and exponent. *)
Definition rounded (s : bool) (m e : Z) : float :=
  match m with
  | Z0 => S754_zero s
  | Zpos p => if e <=? emax - prec then S754_finite s p e else S754_infinity s
  | Zneg _ => S754_nan
  end.

Lemma binary_round_aux_unfold (s : bool) (m e : Z) (l : location) :
  binary_round_aux prec emax s m e l =
  let x1 := shr_fexp prec emax m e l in
  let m2 := round_nearest_even (shr_m (fst x1)) (loc_of_shr_record (fst x1)) in
  let x3 := shr_fexp prec emax m2 (snd x1) loc_Exact in
  rounded s (shr_m (fst x3)) (snd x3).
Proof.
  unfold binary_round_aux.
  destruct (shr_fexp prec emax m e l) as [mrs' e'].
  cbv zeta. simpl fst. simpl snd.
  destruct (shr_fexp prec emax _ e' loc_Exact) as [mrs'' e'']. reflexivity.
Qed.

Lemma shr_record_of_loc_m (m : Z) (l : location) : shr_m (shr_record_of_loc m l) = m.
Proof. now destruct l as [|[| |]]. Qed.

Lemma shr_nonpos (mrs : shr_record) (e n : Z) : n <= 0 -> shr mrs e n = (mrs, e).
Proof. destruct n; try reflexivity. lia. Qed.

Lemma div_pow2_lt (m d n j : Z) :
  0 <= m < 2 ^ d -> 0 <= n -> 0 <= j -> d <= n + j -> m / 2 ^ n < 2 ^ j.
Proof.
  intros [H0 H] Hn Hj Hd.
  assert (0 < 2 ^ n) by (apply Z.pow_pos_nonneg; lia).
  apply Z.div_lt_upper_bound; [lia|].
  rewrite <- Z.pow_add_r by lia.
  assert (2 ^ d <= 2 ^ (n + j)).
  { destruct (Z_lt_le_dec d 0).
    - rewrite Z.pow_neg_r in H by lia. lia.
    - apply Z.pow_le_mono_r; lia. }
  lia.
Qed.

Lemma div_pow2_ge (m d n j : Z) :
  2 ^ d <= m -> 0 <= n -> 0 <= j -> n + j <= d -> 2 ^ j <= m / 2 ^ n.
Proof.
  intros H Hn Hj Hd.
  assert (0 < 2 ^ n) by (apply Z.pow_pos_nonneg; lia).
  apply Z.div_le_lower_bound; [lia|].
  rewrite <- Z.pow_add_r by lia.
  assert (2 ^ (n + j) <= 2 ^ d) by (apply Z.pow_le_mono_r; lia).
  lia.
Qed.

(** What [binary_round_aux] returns when the exponent is not above the one
    of the last digit to keep: the mantissa [m2] rounded at that exponent
    [E], then written with at most 53 digits. *)
Lemma binary_round_aux_spec (s : bool) (m e : Z) (l : location) :
  0 <= m -> e <= fexp64 (Zdigits2 m + e) ->
  let E := fexp64 (Zdigits2 m + e) in
  let n := E - e in
  exists m2 m3 e3,
    binary_round_aux prec emax s m e l = rounded s m3 e3 /\
    m / 2 ^ n <= m2 <= m / 2 ^ n + 1 /\
    (l = loc_Exact -> 2 * (m2 * 2 ^ n) <= 2 * m + 2 ^ n) /\
    (l = loc_Exact -> m mod 2 ^ n = 0 -> m2 = m / 2 ^ n) /\
    E <= e3 /\ m3 * 2 ^ (e3 - E) = m2 /\ 0 <= m3 /\
    (0 < m3 -> fexp64 (Zdigits2 m3 + e3) = e3).
Proof.
  intros Hm HP E n.
  assert (Hn : 0 <= n) by (unfold n, E; lia).
  assert (P53 : 2 ^ 53 = 9007199254740992) by reflexivity.
  assert (P52 : 2 ^ 52 = 4503599627370496) by reflexivity.
  assert (Pn : 0 < 2 ^ n) by (apply Z.pow_pos_nonneg; lia).
  rewrite binary_round_aux_unfold. cbv zeta.
  assert (Hx1 : shr_fexp prec emax m e l = shr (shr_record_of_loc m l) e n)
    by reflexivity.
  rewrite Hx1. clear Hx1.
  destruct (shr_m_div (shr_record_of_loc m l) e n) as [Hm1 He1];
    [rewrite shr_record_of_loc_m; lia|lia|].
  rewrite shr_record_of_loc_m in Hm1.
  set (x1 := fst (shr (shr_record_of_loc m l) e n)) in *.
  rewrite He1. replace (e + n) with E by (unfold n; lia).
  set (m1 := m / 2 ^ n) in *.
  assert (Hm1pos : 0 <= m1) by (apply Z.div_pos; lia).
  assert (Hm1lt : m1 < 2 ^ 53).
  { destruct (Z.eq_dec m 0) as [->|Hm0].
    - unfold m1. rewrite Z.div_0_l by lia. lia.
    - apply (div_pow2_lt m (Zdigits2 m)); try lia.
      + split; [lia|]. apply Zdigits2_bounds. lia.
      + unfold n, E, fexp64. lia. }
  set (m2 := round_nearest_even (shr_m x1) (loc_of_shr_record x1)).
  assert (Hm2 : m1 <= m2 <= m1 + 1).
  { unfold m2. rewrite <- Hm1. apply round_nearest_even_bounds. }
  (* the first digit of the rounded mantissa when the value is normal *)
  assert (Hnormal : emin < E -> 2 ^ 52 <= m1).
  { intros HE. assert (Hm0 : 0 < m).
    { destruct (Z.eq_dec m 0) as [->|]; [|lia].
      simpl in E. unfold E, fexp64 in *. simpl in HP. lia. }
    apply (div_pow2_ge m (Zdigits2 m - 1)); try lia.
    - apply Zdigits2_bounds. lia.
    - unfold n, E, fexp64 in *. lia. }
  unfold shr_fexp. rewrite fexp_eq.
  set (n2 := fexp64 (Zdigits2 m2 + E) - E).
  assert (Hd2 : Zdigits2 m2 <= 54).
  { apply Zdigits2_le_pow; [lia|]. change (2 ^ 54) with (2 * 2 ^ 53). lia. }
  assert (Hexact : l = loc_Exact -> x1 = fst (shr (Build_shr_record m false false) e n)).
  { intros ->. reflexivity. }
  exists m2.
  destruct (Z_le_gt_dec n2 0) as [Hn2|Hn2].
  - (* the rounded mantissa fits *)
    exists m2, E. rewrite shr_nonpos by exact Hn2. simpl fst. simpl snd.
    simpl shr_m.
    split; [reflexivity|]. split; [exact Hm2|].
    split; [|split; [|split; [lia|split; [|split; [lia|]]]]].
    + intros Hl. destruct (Z.eq_dec m2 m1) as [->|Hup].
      * unfold m1. pose proof (Z.mul_div_le m (2 ^ n) Pn). lia.
      * pose proof (shifted_exactly_shr m e n Hm Hn) as [_ [_ [Hr _]]].
        rewrite <- (Hexact Hl) in Hr.
        assert (R : shr_r x1 = true).
        { apply round_nearest_even_up. fold m2. rewrite Hm1. exact Hup. }
        specialize (Hr R).
        pose proof (Z.div_mod m (2 ^ n) ltac:(lia)) as D. fold m1 in D.
        assert (m2 = m1 + 1) by lia. subst m2. nia.
    + intros Hl Hz.
      pose proof (shifted_exactly_shr m e n Hm Hn) as [_ [_ [_ Hc]]].
      rewrite <- (Hexact Hl) in Hc. destruct (Hc Hz) as [R S].
      unfold m2. rewrite round_nearest_even_exact by assumption. exact Hm1.
    + rewrite Z.sub_diag. simpl. lia.
    + intros Hpos. unfold n2, fexp64 in *.
      destruct (Z_le_gt_dec E emin) as [HE|HE]; [unfold E, fexp64 in *; lia|].
      assert (2 ^ 52 <= m2) by (specialize (Hnormal ltac:(lia)); lia).
      assert (52 < Zdigits2 m2) by (apply Zdigits2_ge_pow; lia).
      lia.
  - (* the rounding carried into a 54th digit *)
    assert (Hd54 : Zdigits2 m2 = 54) by (unfold n2, E, fexp64 in *; lia).
    assert (Hm2v : m2 = 2 ^ 53).
    { destruct (Z_lt_le_dec m2 (2 ^ 53)) as [Hlt|Hge]; [|lia].
      assert (Zdigits2 m2 <= 53) by (apply Zdigits2_le_pow; lia). lia. }
    assert (Hn2v : n2 = 1) by (unfold n2, E, fexp64 in *; lia).
    exists (2 ^ 52), (E + 1).
    destruct (shr_m_div (shr_record_of_loc m2 loc_Exact) E n2) as [Hm3 He3];
      [simpl; lia|lia|].
    rewrite Hm3, He3, Hn2v. simpl shr_m. rewrite Hm2v.
    split; [reflexivity|]. split; [lia|].
    split; [|split; [|split; [lia|split; [|split; [lia|]]]]].
    + intros Hl. destruct (Z.eq_dec m2 m1) as [Heq|Hup]; [lia|].
      pose proof (shifted_exactly_shr m e n Hm Hn) as [_ [_ [Hr _]]].
      rewrite <- (Hexact Hl) in Hr.
      assert (R : shr_r x1 = true).
      { apply round_nearest_even_up. fold m2. rewrite Hm1. exact Hup. }
      specialize (Hr R).
      pose proof (Z.div_mod m (2 ^ n) ltac:(lia)) as D. fold m1 in D.
      assert (2 ^ 53 = m1 + 1) by lia. nia.
    + intros Hl Hz.
      pose proof (shifted_exactly_shr m e n Hm Hn) as [_ [_ [_ Hc]]].
      rewrite <- (Hexact Hl) in Hc. destruct (Hc Hz) as [R S].
      rewrite <- Hm2v. unfold m2.
      rewrite round_nearest_even_exact by assumption. exact Hm1.
    + replace (E + 1 - E) with 1 by lia. reflexivity.
    + intros _. change (Zdigits2 (2 ^ 52)) with 53.
      unfold E, fexp64 in *. lia.
Qed.

(** ** Finite values and their magnitude *)

(** The magnitude of a mantissa [m] at exponent [e]: the [k] with
    [2^(k-1) <= m * 2^e < 2^k]. *)
Definition mag (m : positive) (e : Z) : Z := Zpos (digits2_pos m) + e.

(** [m] at exponent [e] is a binary64 number in canonical form. *)
Definition canonical (m : positive) (e : Z) : Prop :=
  fexp64 (mag m e) = e /\ e <= 971.

(** [x] is a finite binary64 number of magnitude at most [K]: a zero, or a
    canonical number below [2^K] in absolute value. *)
Definition finite_below (K : Z) (x : float) : Prop :=
  match x with
  | S754_zero _ => True
  | S754_finite _ m e => canonical m e /\ mag m e <= K
  | _ => False
  end.

(** [x] is a canonical number of magnitude above [L], or an infinity. *)
Definition large_above (L : Z) (x : float) : Prop :=
  match x with
  | S754_finite _ m e => canonical m e /\ L < mag m e
  | S754_infinity _ => True
  | _ => False
  end.

Lemma canonical_valid (s : bool) (m : positive) (e : Z) :
  canonical m e -> valid_binary prec emax (S754_finite s m e) = true.
Proof.
  intros [Hc He]. simpl. unfold bounded, canonical_mantissa.
  rewrite fexp_eq. unfold mag in Hc. rewrite Hc, Z.eqb_refl. simpl.
  apply Z.leb_le. exact He.
Qed.

Lemma finite_below_valid (K : Z) (x : float) :
  finite_below K x -> valid_binary prec emax x = true.
Proof.
  destruct x as [s|s| |s m e]; simpl; try tauto.
  intros [Hc _]. now apply (canonical_valid s).
Qed.

Lemma finite_below_is_finite (K : Z) (x : float) :
  finite_below K x -> is_finite x = true.
Proof. destruct x; simpl; tauto. Qed.

Lemma finite_below_le (K K' : Z) (x : float) :
  K <= K' -> finite_below K x -> finite_below K' x.
Proof.
  intros H. destruct x as [s|s| |s m e]; simpl; try tauto.
  intros [Hc Hm]. split; [exact Hc|lia].
Qed.

Lemma canonical_digits (m : positive) (e : Z) :
  canonical m e -> Zpos (digits2_pos m) <= 53 /\ emin <= e.
Proof. unfold canonical, mag, fexp64. lia. Qed.

Lemma finite_below_opp (K : Z) (x : float) :
  finite_below K x -> finite_below K (SFopp x).
Proof. destruct x; simpl; tauto. Qed.

Lemma finite_below_abs (K : Z) (x : float) :
  finite_below K x -> finite_below K (SFabs x).
Proof. destruct x; simpl; tauto. Qed.

(** *** The magnitude of a rounded value *)

Lemma rounded_finite_below (s : bool) (m3 e3 K : Z) :
  0 <= m3 -> K <= 1024 ->
  (0 < m3 -> fexp64 (Zdigits2 m3 + e3) = e3 /\ Zdigits2 m3 + e3 <= K) ->
  finite_below K (rounded s m3 e3).
Proof.
  intros H0 HK H. destruct m3 as [|p|p]; cbn [rounded finite_below];
    try lia; try exact I.
  destruct (H ltac:(lia)) as [Hc Hm].
  change (Zdigits2 (Z.pos p)) with (Zpos (digits2_pos p)) in Hc, Hm.
  assert (H1 : e3 <= 971) by (unfold fexp64, emin in Hc; lia).
  change (emax - prec) with 971.
  replace (e3 <=? 971) with true by (symmetry; apply Z.leb_le; exact H1).
  cbn [finite_below]. unfold canonical, mag. auto.
Qed.

Lemma pow2_le_digits (m j t : Z) :
  0 < m -> 0 <= j -> 0 <= t -> m * 2 ^ j <= 2 ^ t -> Zdigits2 m + j <= t + 1.
Proof.
  intros Hm Hj Ht H.
  rewrite <- Zdigits2_mul_pow2 by lia.
  assert (0 < 2 ^ j) by (apply Z.pow_pos_nonneg; lia).
  apply Zdigits2_le_pow; [lia|].
  rewrite Z.pow_add_r by lia. change (2 ^ 1) with 2.
  assert (0 < 2 ^ t) by (apply Z.pow_pos_nonneg; lia). nia.
Qed.

(** Rounding adds at most one to the magnitude, and a value of magnitude
    at most 1023 stays finite. *)
Lemma binary_round_aux_below (s : bool) (m e : Z) (l : location) (K : Z) :
  0 <= m -> e <= fexp64 (Zdigits2 m + e) ->
  Zdigits2 m + e <= K -> emin <= K -> K + 1 <= 1024 ->
  finite_below (K + 1) (binary_round_aux prec emax s m e l).
Proof.
  intros Hm HP HK Hmin Hmax.
  destruct (binary_round_aux_spec s m e l Hm HP)
    as [m2 [m3 [e3 [-> [Hm2 [_ [_ [HE [Hv [H3 Hc]]]]]]]]]].
  set (E := fexp64 (Zdigits2 m + e)) in *. set (n := E - e) in *.
  apply rounded_finite_below; [exact H3|lia|].
  intros Hpos. split; [now apply Hc|].
  assert (Hn : 0 <= n) by (unfold n, E; lia).
  assert (Hj : 0 <= e3 - E) by lia.
  set (t := Z.max (Zdigits2 m + e - E) 0).
  assert (Hm2le : m2 <= 2 ^ t).
  { assert (m / 2 ^ n < 2 ^ t); [|lia].
    destruct (Z.eq_dec m 0) as [->|Hm0].
    - rewrite Z.div_0_l by (apply Z.pow_nonzero; lia).
      apply Z.pow_pos_nonneg; unfold t; lia.
    - apply (div_pow2_lt m (Zdigits2 m)); try (unfold t, n; lia).
      split; [lia|]. apply Zdigits2_bounds. lia. }
  assert (Zdigits2 m3 + (e3 - E) <= t + 1).
  { apply pow2_le_digits; try lia; unfold t; lia. }
  unfold t, E, fexp64 in *. lia.
Qed.

(** A value of magnitude above [emin] does not round to zero, and rounding
    does not lower the magnitude. *)
Lemma binary_round_aux_above (s : bool) (m e : Z) (l : location) :
  0 < m -> e <= fexp64 (Zdigits2 m + e) -> emin < Zdigits2 m + e ->
  large_above (Zdigits2 m + e - 1) (binary_round_aux prec emax s m e l).
Proof.
  intros Hm HP Hk.
  destruct (binary_round_aux_spec s m e l ltac:(lia) HP)
    as [m2 [m3 [e3 [-> [Hm2 [_ [_ [HE [Hv [H3 Hc]]]]]]]]]].
  set (E := fexp64 (Zdigits2 m + e)) in *. set (n := E - e) in *.
  assert (Hn : 0 <= n) by (unfold n, E; lia).
  assert (HEk : E < Zdigits2 m + e) by (unfold E, fexp64; lia).
  assert (Hm1 : 2 ^ (Zdigits2 m + e - E - 1) <= m / 2 ^ n).
  { apply (div_pow2_ge m (Zdigits2 m - 1)); try (unfold n; lia).
    apply Zdigits2_bounds. lia. }
  assert (P1 : 0 < 2 ^ (Zdigits2 m + e - E - 1)) by (apply Z.pow_pos_nonneg; lia).
  assert (Hm3 : 0 < m3).
  { destruct (Z.eq_dec m3 0) as [->|]; [|lia]. simpl in Hv. lia. }
  specialize (Hc Hm3).
  assert (Hmag : Zdigits2 m + e <= Zdigits2 m3 + e3).
  { destruct (Z_lt_le_dec (Zdigits2 m + e - 1 - e3) 0) as [Hneg|Hnn].
    - pose proof (Zdigits2_pos m3 Hm3). lia.
    - assert (Zdigits2 m + e - 1 - e3 < Zdigits2 m3); [|lia].
      apply Zdigits2_ge_pow; [lia|].
      assert (P2 : 0 < 2 ^ (e3 - E)) by (apply Z.pow_pos_nonneg; lia).
      assert (2 ^ (Zdigits2 m + e - 1 - e3) * 2 ^ (e3 - E) <= m3 * 2 ^ (e3 - E)).
      { rewrite <- Z.pow_add_r by lia.
        replace (Zdigits2 m + e - 1 - e3 + (e3 - E)) with (Zdigits2 m + e - E - 1) by lia.
        lia. }
      nia. }
  destruct m3 as [|p|p]; try lia. cbn [rounded].
  change (emax - prec) with 971.
  destruct (e3 <=? 971) eqn:Ee; cbn [large_above]; [|exact I].
  apply Z.leb_le in Ee. unfold canonical, mag.
  change (Zdigits2 (Z.pos p)) with (Zpos (digits2_pos p)) in Hc, Hmag.
  split; [split; [exact Hc|exact Ee]|lia].
Qed.

(** ** Rounding a mantissa at any exponent *)

Lemma pos_iter_xO (m d : positive) : Zpos (Pos.iter xO m d) = Zpos m * 2 ^ Zpos d.
Proof.
  induction d as [|d IH] using Pos.peano_ind.
  - simpl. lia.
  - rewrite Pos.iter_succ, Pos2Z.inj_xO, IH, Pos2Z.inj_succ, Z.pow_succ_r by lia. lia.
Qed.

Lemma shl_align_spec (mx : positive) (ex ex' : Z) :
  snd (shl_align mx ex ex') = Z.min ex ex' /\
  Zpos (fst (shl_align mx ex ex')) = Zpos mx * 2 ^ (ex - Z.min ex ex').
Proof.
  unfold shl_align. destruct (ex' - ex) as [|d|d] eqn:E; simpl.
  - replace (Z.min ex ex') with ex by lia. rewrite Z.sub_diag. simpl. lia.
  - replace (Z.min ex ex') with ex by lia. rewrite Z.sub_diag. simpl. lia.
  - replace (Z.min ex ex') with ex' by lia. rewrite pos_iter_xO.
    replace (ex - ex') with (Zpos d) by lia. auto.
Qed.

(** The magnitude does not depend on the exponent chosen to write a value. *)
Lemma Zdigits2_shl (mx : positive) (ex ez : Z) :
  ez <= ex -> Zdigits2 (Zpos mx * 2 ^ (ex - ez)) + ez = mag mx ex.
Proof.
  intros H. rewrite Zdigits2_mul_pow2 by lia. unfold mag.
  change (Zdigits2 (Z.pos mx)) with (Zpos (digits2_pos mx)). lia.
Qed.

Lemma binary_round_unfold (s : bool) (m : positive) (e : Z) :
  let ez := Z.min e (fexp64 (mag m e)) in
  binary_round prec emax s m e
  = binary_round_aux prec emax s (Zpos m * 2 ^ (e - ez)) ez loc_Exact.
Proof.
  intros ez. unfold binary_round. rewrite fexp_eq. fold (mag m e).
  destruct (shl_align_spec m e (fexp64 (mag m e))) as [H1 H2].
  destruct (shl_align m e (fexp64 (mag m e))) as [mz ez']. simpl in H1, H2.
  fold ez in H1, H2. now rewrite H1, H2.
Qed.

Lemma binary_round_below (s : bool) (m : positive) (e K : Z) :
  mag m e <= K -> emin <= K -> K + 1 <= 1024 ->
  finite_below (K + 1) (binary_round prec emax s m e).
Proof.
  intros HK Hmin Hmax. rewrite binary_round_unfold. cbv zeta.
  set (ez := Z.min e (fexp64 (mag m e))).
  assert (Hez : ez <= e) by (unfold ez; lia).
  assert (P : 0 < 2 ^ (e - ez)) by (apply Z.pow_pos_nonneg; lia).
  apply binary_round_aux_below; try lia.
  - rewrite Zdigits2_shl by exact Hez. unfold ez. lia.
  - now rewrite Zdigits2_shl.
Qed.

Lemma binary_round_above (s : bool) (m : positive) (e : Z) :
  emin < mag m e ->
  large_above (mag m e - 1) (binary_round prec emax s m e).
Proof.
  intros Hk. rewrite binary_round_unfold. cbv zeta.
  set (ez := Z.min e (fexp64 (mag m e))).
  assert (Hez : ez <= e) by (unfold ez; lia).
  assert (P : 0 < 2 ^ (e - ez)) by (apply Z.pow_pos_nonneg; lia).
  rewrite <- (Zdigits2_shl m e ez Hez).
  apply binary_round_aux_above; try lia.
  - rewrite Zdigits2_shl by exact Hez. unfold ez. lia.
  - now rewrite Zdigits2_shl.
Qed.

Lemma binary_normalize_below (z e K : Z) (szero : bool) :
  Zdigits2 z + e <= K -> emin <= K -> K + 1 <= 1024 ->
  finite_below (K + 1) (binary_normalize prec emax z e szero).
Proof.
  intros HK Hmin Hmax. destruct z as [|p|p]; simpl.
  - exact I.
  - now apply binary_round_below.
  - now apply binary_round_below.
Qed.

(** ** Conversion of integers *)

Lemma of_Z_below (z K : Z) :
  Z.abs z < 2 ^ K -> 0 <= K -> K + 1 <= 1024 -> finite_below (K + 1) (of_Z z).
Proof.
  intros Hz HK Hmax. unfold of_Z. apply binary_normalize_below; try (unfold emin; lia).
  rewrite Z.add_0_r.
  replace (Zdigits2 z) with (Zdigits2 (Z.abs z)) by (now destruct z).
  apply Zdigits2_le_pow; lia.
Qed.

Lemma of_Z_above (z : Z) : 1 <= z -> large_above 0 (of_Z z) /\ signed false (of_Z z).
Proof.
  intros Hz. split.
  - destruct z as [|p|p]; try lia. unfold of_Z. simpl binary_normalize.
    pose proof (binary_round_above false p 0) as H.
    assert (Hm : 1 <= mag p 0).
    { unfold mag. pose proof (Zdigits2_pos (Zpos p) ltac:(lia)). simpl in H0. lia. }
    specialize (H ltac:(unfold emin; lia)).
    destruct (binary_round prec emax false p 0); cbn [large_above] in *; try tauto.
    split; [tauto|lia].
  - pose proof (of_Z_signed z) as S.
    replace (z <? 0) with false in S by (symmetry; apply Z.ltb_ge; lia). exact S.
Qed.

End Rounding.

(** * Binary64: the magnitude of the results of the operations *)

Module Arith.

Import F64Facts Rounding.

Lemma pow2_pos (k : Z) : 0 <= k -> 0 < 2 ^ k.
Proof. intros. apply Z.pow_pos_nonneg; lia. Qed.

Lemma pow2_le (a b : Z) : 0 <= a <= b -> 2 ^ a <= 2 ^ b.
Proof. intros. apply Z.pow_le_mono_r; lia. Qed.

Lemma pow2_lt (a b : Z) : 0 <= a < b -> 2 ^ a < 2 ^ b.
Proof. intros. apply Z.pow_lt_mono_r; lia. Qed.

Lemma digits_pos_bounds (m : positive) :
  2 ^ (Zpos (digits2_pos m) - 1) <= Zpos m < 2 ^ Zpos (digits2_pos m).
Proof. exact (Zdigits2_bounds (Zpos m) ltac:(lia)). Qed.

Lemma Zdigits2_mul (a b : Z) :
  0 < a -> 0 < b ->
  Zdigits2 a + Zdigits2 b - 1 <= Zdigits2 (a * b) <= Zdigits2 a + Zdigits2 b.
Proof.
  intros Ha Hb.
  pose proof (Zdigits2_bounds a Ha) as [La Ua].
  pose proof (Zdigits2_bounds b Hb) as [Lb Ub].
  pose proof (Zdigits2_pos a Ha) as Pa. pose proof (Zdigits2_pos b Hb) as Pb.
  pose proof (pow2_pos (Zdigits2 a - 1) ltac:(lia)).
  pose proof (pow2_pos (Zdigits2 b - 1) ltac:(lia)).
  split.
  - enough (Zdigits2 a + Zdigits2 b - 2 < Zdigits2 (a * b)) by lia.
    apply Zdigits2_ge_pow; [lia|].
    replace (Zdigits2 a + Zdigits2 b - 2) with ((Zdigits2 a - 1) + (Zdigits2 b - 1)) by lia.
    rewrite Z.pow_add_r by lia. nia.
  - apply Zdigits2_le_pow; [lia|]. rewrite Z.pow_add_r by lia. nia.
Qed.

(** ** Multiplication *)

Lemma mul_below (Ka Kb : Z) (a b : float) :
  finite_below Ka a -> finite_below Kb b ->
  emin <= Ka + Kb -> Ka + Kb + 1 <= 1024 ->
  finite_below (Ka + Kb + 1) (mul a b).
Proof.
  intros Ha Hb Hmin Hmax.
  destruct a as [sa|sa| |sa ma ea], b as [sb|sb| |sb mb eb];
    cbn [finite_below] in *; try tauto; try exact I.
  destruct Ha as [[Ca Ea] Ma], Hb as [[Cb Eb] Mb].
  unfold mul, SFmul. rewrite Pos2Z.inj_mul.
  pose proof (Zdigits2_mul (Zpos ma) (Zpos mb) ltac:(lia) ltac:(lia)) as [Dl Du].
  change (Zdigits2 (Zpos ma)) with (Zpos (digits2_pos ma)) in *.
  change (Zdigits2 (Zpos mb)) with (Zpos (digits2_pos mb)) in *.
  unfold mag, fexp64, emin in *.
  apply binary_round_aux_below; unfold fexp64, emin; lia.
Qed.

Lemma mul_self_signed (K : Z) (a : float) :
  finite_below K a -> signed false (mul a a).
Proof.
  destruct a as [sa|sa| |sa ma ea]; cbn [finite_below]; try tauto; intros _.
  - unfold mul, SFmul, signed. simpl. now rewrite xorb_nilpotent.
  - unfold mul, SFmul. rewrite xorb_nilpotent.
    apply binary_round_aux_signed. lia.
Qed.

(** ** Division *)

Lemma div_eucl_div (a b : Z) : Z.div_eucl a b = (a / b, a mod b).
Proof. unfold Z.div, Z.modulo. now destruct (Z.div_eucl a b). Qed.

Lemma div_core_spec (m1 m2 : positive) (e1 e2 : Z) :
  let '(q, e', l) := SFdiv_core_binary prec emax (Zpos m1) e1 (Zpos m2) e2 in
  0 <= q /\ e' <= fexp64 (Zdigits2 q + e') /\
  Zdigits2 q + e' <= Z.max (mag m1 e1 - mag m2 e2 + 1) emin.
Proof.
  unfold SFdiv_core_binary. rewrite fexp_eq.
  change (Zdigits2 (Zpos m1)) with (Zpos (digits2_pos m1)).
  change (Zdigits2 (Zpos m2)) with (Zpos (digits2_pos m2)).
  set (d1 := Zpos (digits2_pos m1)). set (d2 := Zpos (digits2_pos m2)).
  set (e' := Z.min (fexp64 (d1 + e1 - (d2 + e2))) (e1 - e2)).
  set (s := e1 - e2 - e').
  assert (Hs : 0 <= s) by (unfold s, e'; lia).
  set (m' := match s with Z.pos _ => Z.shiftl (Z.pos m1) s | 0 => Z.pos m1 | _ => 0 end).
  assert (Hm' : m' = Zpos m1 * 2 ^ s).
  { unfold m'. destruct s as [|p|p]; try lia.
    now rewrite Z.shiftl_mul_pow2 by lia. }
  rewrite div_eucl_div. rewrite Hm'. clear m' Hm'.
  pose proof (digits_pos_bounds m1) as [L1 U1]. fold d1 in L1, U1.
  pose proof (digits_pos_bounds m2) as [L2 U2]. fold d2 in L2, U2.
  assert (P1 : 1 <= d1) by (unfold d1; lia).
  assert (P2 : 1 <= d2) by (unfold d2; lia).
  pose proof (pow2_pos s Hs) as Ps.
  set (q := Zpos m1 * 2 ^ s / Zpos m2).
  assert (Hq0 : 0 <= q) by (apply Z.div_pos; nia).
  assert (Hqm : q * Zpos m2 <= Zpos m1 * 2 ^ s < (q + 1) * Zpos m2).
  { unfold q. pose proof (Z.div_mod (Zpos m1 * 2 ^ s) (Zpos m2) ltac:(lia)).
    pose proof (Z.mod_pos_bound (Zpos m1 * 2 ^ s) (Zpos m2) ltac:(lia)). nia. }
  pose proof (pow2_pos (d1 - 1) ltac:(lia)) as Pd1.
  pose proof (pow2_pos (d2 - 1) ltac:(lia)) as Pd2.
  (* the digits of the quotient, from above *)
  assert (Hup : Zdigits2 q <= Z.max (d1 + s - d2 + 1) 0).
  { destruct (Z_lt_le_dec (d1 + s - d2 + 1) 0) as [Hneg|Hnn].
    - assert (q = 0); [|subst q; rewrite H; simpl; lia].
      assert (Zpos m1 * 2 ^ s < 2 ^ (d2 - 1)).
      { assert (Zpos m1 * 2 ^ s < 2 ^ (d1 + s)) by (rewrite Z.pow_add_r by lia; nia).
        assert (2 ^ (d1 + s) <= 2 ^ (d2 - 1)) by (apply pow2_le; lia). lia. }
      destruct (Z.eq_dec q 0); [assumption|]. nia.
    - apply Z.max_le_iff. left. apply Zdigits2_le_pow; [lia|]. split; [lia|].
      assert (q * 2 ^ (d2 - 1) < 2 ^ (d1 + s)) by (rewrite (Z.pow_add_r 2 d1 s) by lia; nia).
      replace (d1 + s - d2 + 1) with (d1 + s - (d2 - 1)) by lia.
      assert (E : 2 ^ (d1 + s) = 2 ^ (d1 + s - (d2 - 1)) * 2 ^ (d2 - 1)).
      { rewrite <- Z.pow_add_r by lia. f_equal. lia. }
      rewrite E in H. nia. }
  split; [exact Hq0|]. split.
  - (* the exponent is not above the one of the last digit kept *)
    destruct (Z_lt_le_dec (d1 + s - 1 - d2) 0) as [Hneg|Hnn].
    + unfold fexp64, e', s, fexp64 in *. pose proof (Zdigits2_nonneg q). lia.
    + assert (d1 + s - 1 - d2 < Zdigits2 q).
      { apply Zdigits2_ge_pow; [lia|].
        assert (2 ^ (d1 + s - 1 - d2) * 2 ^ d2 <= Zpos m1 * 2 ^ s).
        { rewrite <- Z.pow_add_r by lia.
          replace (d1 + s - 1 - d2 + d2) with ((d1 - 1) + s) by lia.
          rewrite Z.pow_add_r by lia. nia. }
        pose proof (pow2_pos (d1 + s - 1 - d2) Hnn).
        destruct (Z_lt_le_dec q (2 ^ (d1 + s - 1 - d2))); [|assumption]. nia. }
      unfold fexp64, e', s, fexp64 in *. lia.
  - unfold mag. fold d1 d2. unfold e', s, fexp64 in *. lia.
Qed.

(** A finite value divided by a value of magnitude above [L] (or by an
    infinity) is finite, of magnitude at most [Ka - L + 1]. *)
Lemma div_below (Ka L K : Z) (a b : float) :
  finite_below Ka a -> large_above L b ->
  Ka - L <= K -> emin <= K -> K + 1 <= 1024 ->
  finite_below (K + 1) (div a b).
Proof.
  intros Ha Hb HK Hmin Hmax.
  destruct a as [sa|sa| |sa ma ea], b as [sb|sb| |sb mb eb];
    cbn [finite_below large_above] in *; try tauto; try exact I.
  destruct Ha as [[Ca Ea] Ma], Hb as [[Cb Eb] Mb].
  unfold div, SFdiv.
  pose proof (div_core_spec ma mb ea eb) as H.
  destruct (SFdiv_core_binary prec emax (Zpos ma) ea (Zpos mb) eb) as [[q e'] l].
  destruct H as [Hq [HP Hm]].
  apply binary_round_aux_below; try lia.
Qed.

(** ** Square root *)

Lemma sqrt_core_spec (m : positive) (e : Z) :
  let '(q, e', l) := SFsqrt_core_binary prec emax (Zpos m) e in
  0 <= q /\ e' <= fexp64 (Zdigits2 q + e') /\
  Zdigits2 q + e' <= (mag m e + 1) / 2.
Proof.
  unfold SFsqrt_core_binary. rewrite fexp_eq.
  change (Zdigits2 (Zpos m)) with (Zpos (digits2_pos m)).
  set (d := Zpos (digits2_pos m)).
  rewrite !Z.div2_div.
  set (h := (d + e + 1) / 2).
  set (e' := Z.min (fexp64 h) (e / 2)).
  set (s := e - 2 * e').
  pose proof (Z.div_mod e 2 ltac:(lia)) as De.
  pose proof (Z.mod_pos_bound e 2 ltac:(lia)) as Be.
  pose proof (Z.div_mod (d + e + 1) 2 ltac:(lia)) as Dh.
  pose proof (Z.mod_pos_bound (d + e + 1) 2 ltac:(lia)) as Bh. fold h in Dh.
  assert (Hs : 0 <= s) by (unfold s, e'; lia).
  set (m' := match s with Z.pos _ => Z.shiftl (Z.pos m) s | 0 => Z.pos m | _ => 0 end).
  assert (Hm' : m' = Zpos m * 2 ^ s).
  { unfold m'. destruct s as [|p|p]; try lia.
    now rewrite Z.shiftl_mul_pow2 by lia. }
  pose proof (pow2_pos s Hs) as Ps.
  assert (Hm'pos : 0 < m') by (rewrite Hm'; nia).
  pose proof (Z.sqrtrem_spec m' ltac:(lia)) as Hq.
  destruct (Z.sqrtrem m') as [q r]. destruct Hq as [Hqr Hr].
  pose proof (digits_pos_bounds m) as [L U]. fold d in L, U.
  assert (P1 : 1 <= d) by (unfold d; lia).
  assert (Hq0 : 0 <= q) by lia.
  (* the digits of the root *)
  set (j := (d + s - 1) / 2).
  pose proof (Z.div_mod (d + s - 1) 2 ltac:(lia)) as Dj.
  pose proof (Z.mod_pos_bound (d + s - 1) 2 ltac:(lia)) as Bj. fold j in Dj.
  assert (Hj : 0 <= j) by lia.
  assert (Hlow : j < Zdigits2 q).
  { apply Zdigits2_ge_pow; [lia|].
    assert (2 ^ j * 2 ^ j <= m').
    { rewrite <- Z.pow_add_r by lia. rewrite Hm'.
      assert (2 ^ (j + j) <= 2 ^ (d - 1 + s)) by (apply pow2_le; lia).
      rewrite (Z.pow_add_r 2 (d - 1) s) in H by lia.
      pose proof (pow2_pos (d - 1) ltac:(lia)). nia. }
    pose proof (pow2_pos j Hj).
    destruct (Z_lt_le_dec q (2 ^ j)); [|assumption]. nia. }
  set (c := (d + s + 1) / 2).
  pose proof (Z.div_mod (d + s + 1) 2 ltac:(lia)) as Dc.
  pose proof (Z.mod_pos_bound (d + s + 1) 2 ltac:(lia)) as Bc. fold c in Dc.
  assert (Hup : Zdigits2 q <= c).
  { apply Zdigits2_le_pow; [lia|]. split; [lia|].
    assert (m' < 2 ^ c * 2 ^ c).
    { rewrite <- Z.pow_add_r by lia. rewrite Hm'.
      assert (2 ^ (d + s) <= 2 ^ (c + c)) by (apply pow2_le; lia).
      rewrite (Z.pow_add_r 2 d s) in H by lia. nia. }
    pose proof (pow2_pos c ltac:(lia)).
    destruct (Z_lt_le_dec q (2 ^ c)); [assumption|]. nia. }
  split; [exact Hq0|]. split.
  - assert (j + 1 + e' = h) by (unfold s in *; lia).
    unfold fexp64, emin in *. lia.
  - assert (c + e' = h) by (unfold s in *; lia).
    unfold mag. fold d. fold h. lia.
Qed.

(** The root of a finite number that is not negative is finite and not
    negative. *)
Lemma sqrt_below (K : Z) (a : float) :
  finite_below K a -> signed false a ->
  finite_below 600 (sqrt a) /\ signed false (sqrt a).
Proof.
  intros Ha Hs.
  destruct a as [sa|sa| |sa ma ea]; cbn [finite_below] in *; try tauto.
  unfold signed in Hs. simpl in Hs. injection Hs as ->.
  destruct Ha as [Ca Ma].
  {
    unfold sqrt, SFsqrt.
    pose proof (sqrt_core_spec ma ea) as H.
    destruct (SFsqrt_core_binary prec emax (Zpos ma) ea) as [[q e'] l].
    destruct H as [Hq [HP Hm]].
    split; [|now apply binary_round_aux_signed].
    destruct Ca as [Ca1 Ca2].
    assert (mag ma ea <= 1024) by (unfold fexp64, emin in Ca1; lia).
    assert (Zdigits2 q + e' <= 513).
    { assert ((mag ma ea + 1) / 2 <= 513); [|lia].
      apply Z.div_le_upper_bound; lia. }
    apply (finite_below_le (599 + 1)); [lia|].
    apply binary_round_aux_below; try assumption; unfold emin; lia. }
Qed.

(** ** Addition and subtraction *)

Lemma shl_align_fst (mx : positive) (ex ez : Z) :
  ez <= ex -> Zpos (fst (shl_align mx ex ez)) = Zpos mx * 2 ^ (ex - ez).
Proof.
  intros H. destruct (shl_align_spec mx ex ez) as [_ E].
  rewrite E. now replace (Z.min ex ez) with ez by lia.
Qed.

Lemma aligned_lt (m : positive) (e ez K : Z) :
  ez <= e -> mag m e <= K -> Zpos m * 2 ^ (e - ez) < 2 ^ (K - ez).
Proof.
  intros Hez HK. pose proof (digits_pos_bounds m) as [_ U].
  pose proof (pow2_pos (e - ez) ltac:(lia)).
  assert (2 ^ (Zpos (digits2_pos m) + (e - ez)) <= 2 ^ (K - ez))
    by (apply pow2_le; unfold mag in HK; lia).
  rewrite Z.pow_add_r in H0 by lia. nia.
Qed.

(** The exact sum or difference of two finite numbers, before rounding. *)
Lemma aligned_sum_below (sa sb : bool) (ma mb : positive) (ea eb K : Z) :
  mag ma ea <= K -> mag mb eb <= K ->
  let ez := Z.min ea eb in
  Zdigits2 (cond_Zopp sa (Zpos (fst (shl_align ma ea ez)))
            + cond_Zopp sb (Zpos (fst (shl_align mb eb ez)))) + ez <= K + 1.
Proof.
  intros Ha Hb ez.
  rewrite !shl_align_fst by (unfold ez; lia).
  pose proof (aligned_lt ma ea ez K ltac:(unfold ez; lia) Ha) as Xa.
  pose proof (aligned_lt mb eb ez K ltac:(unfold ez; lia) Hb) as Xb.
  pose proof (pow2_pos (ea - ez) ltac:(unfold ez; lia)).
  pose proof (pow2_pos (eb - ez) ltac:(unfold ez; lia)).
  set (X := Zpos ma * 2 ^ (ea - ez)) in *. set (Y := Zpos mb * 2 ^ (eb - ez)) in *.
  assert (HKz : 0 <= K - ez).
  { unfold mag in Ha. unfold ez. lia. }
  set (M := cond_Zopp sa X + cond_Zopp sb Y).
  assert (HM : Z.abs M < 2 ^ (K - ez + 1)).
  { rewrite Z.pow_add_r by lia. change (2 ^ 1) with 2.
    unfold M. destruct sa, sb; simpl; lia. }
  replace (Zdigits2 M) with (Zdigits2 (Z.abs M)) by (now destruct M).
  assert (Zdigits2 (Z.abs M) <= K - ez + 1) by (apply Zdigits2_le_pow; lia).
  lia.
Qed.

Lemma add_below (K : Z) (a b : float) :
  finite_below K a -> finite_below K b -> emin <= K -> K + 2 <= 1024 ->
  finite_below (K + 2) (add a b).
Proof.
  intros Ha Hb Hmin Hmax.
  destruct a as [sa|sa| |sa ma ea], b as [sb|sb| |sb mb eb];
    cbn [finite_below] in *; try tauto.
  - unfold add, SFadd. destruct sa, sb; exact I.
  - unfold add, SFadd. cbn [finite_below]. split; [tauto|lia].
  - unfold add, SFadd. cbn [finite_below]. split; [tauto|lia].
  - destruct Ha as [Ca Ma], Hb as [Cb Mb]. unfold add, SFadd.
    replace (K + 2) with (K + 1 + 1) by lia.
    apply binary_normalize_below; try lia.
    now apply aligned_sum_below.
Qed.

Lemma sub_below (K : Z) (a b : float) :
  finite_below K a -> finite_below K b -> emin <= K -> K + 2 <= 1024 ->
  finite_below (K + 2) (sub a b).
Proof.
  intros Ha Hb Hmin Hmax.
  destruct a as [sa|sa| |sa ma ea], b as [sb|sb| |sb mb eb];
    cbn [finite_below] in *; try tauto.
  - unfold sub, SFsub. destruct sa, sb; exact I.
  - unfold sub, SFsub. cbn [finite_below]. split; [tauto|lia].
  - unfold sub, SFsub. cbn [finite_below]. split; [tauto|lia].
  - destruct Ha as [Ca Ma], Hb as [Cb Mb]. unfold sub, SFsub.
    replace (K + 2) with (K + 1 + 1) by lia.
    apply binary_normalize_below; try lia.
    rewrite <- Z.add_opp_r.
    replace (- cond_Zopp sb (Z.pos (fst (shl_align mb eb (Z.min ea eb)))))
      with (cond_Zopp (negb sb) (Z.pos (fst (shl_align mb eb (Z.min ea eb)))))
      by (destruct sb; simpl; lia).
    now apply aligned_sum_below.
Qed.

Lemma add_signed (a b : float) :
  signed false a -> signed false b -> signed false (add a b).
Proof.
  unfold signed.
  destruct a as [sa|sa| |sa ma ea], b as [sb|sb| |sb mb eb]; simpl;
    try discriminate; intros [= ->] [= ->]; try reflexivity.
  unfold add, SFadd. cbn [cond_Zopp].
  match goal with |- sign_of (binary_normalize _ _ ?z _ _) = _ =>
    assert (Hz : 0 < z) by lia; destruct z as [|p|p]; try lia end.
  apply binary_round_signed.
Qed.

Lemma div_signed (Ka L : Z) (a b : float) :
  finite_below Ka a -> large_above L b ->
  signed false a -> signed false b -> signed false (div a b).
Proof.
  unfold signed.
  destruct a as [sa|sa| |sa ma ea], b as [sb|sb| |sb mb eb];
    cbn [finite_below large_above]; try tauto; simpl sign_of;
    intros _ _ [= ->] [= ->]; try reflexivity.
  unfold div, SFdiv.
  pose proof (div_core_spec ma mb ea eb) as H.
  destruct (SFdiv_core_binary prec emax (Zpos ma) ea (Zpos mb) eb) as [[q e'] l].
  destruct H as [Hq _]. now apply binary_round_aux_signed.
Qed.

(** ** Sums that stay finite

    A sum that is below [2^B] in absolute value, and to which a term below
    [2^(B-55)] is added, is rounded to a number that is still below
    [2^B]: the term is less than a quarter of the last digit of the
    largest number below [2^B]. *)

Lemma binary_round_tight (s : bool) (m : positive) (e B : Z) :
  emin + 53 <= B -> B <= 1024 -> e + 55 <= B ->
  Zpos m < (2 ^ 55 - 3) * 2 ^ (B - 55 - e) ->
  finite_below B (binary_round prec emax s m e).
Proof.
  intros Hmin Hmax He Hm.
  set (w := B - 55 - e) in *.
  assert (Hw : 0 <= w) by (unfold w; lia).
  pose proof (pow2_pos w Hw) as Pw.
  assert (P55 : 2 ^ 55 = 36028797018963968) by reflexivity.
  assert (P53 : 2 ^ 53 = 9007199254740992) by reflexivity.
  assert (Hk : mag m e <= B).
  { unfold mag. change (Zpos (digits2_pos m)) with (Zdigits2 (Zpos m)).
    assert (Zdigits2 (Zpos m) <= 55 + w); [|unfold w; lia].
    apply Zdigits2_le_pow; [lia|]. rewrite Z.pow_add_r by lia. nia. }
  destruct (Z_lt_le_dec (mag m e) B) as [Hlt|Hge].
  - apply (finite_below_le (B - 1 + 1)); [lia|].
    apply binary_round_below; unfold emin in *; lia.
  - assert (HB : mag m e = B) by lia.
    rewrite binary_round_unfold. cbv zeta. rewrite HB.
    assert (HE : fexp64 B = B - 53) by (unfold fexp64; lia).
    replace (Z.min e (fexp64 B)) with e by lia.
    rewrite Z.sub_diag. change (2 ^ 0) with 1. rewrite Z.mul_1_r.
    assert (HP : e <= fexp64 (Zdigits2 (Zpos m) + e)).
    { change (Zdigits2 (Zpos m) + e) with (mag m e). rewrite HB. lia. }
    destruct (binary_round_aux_spec s (Zpos m) e loc_Exact ltac:(lia) HP)
      as [m2 [m3 [e3 [-> [_ [Hr [_ [HE3 [Hv [H3 Hc]]]]]]]]]].
    change (Zdigits2 (Zpos m) + e) with (mag m e) in *. rewrite HB, HE in *.
    specialize (Hr eq_refl).
    replace (B - 53 - e) with (w + 2) in Hr by (unfold w; lia).
    rewrite Z.pow_add_r in Hr by lia. change (2 ^ 2) with 4 in Hr.
    assert (Hm2 : m2 < 2 ^ 53) by nia.
    apply rounded_finite_below; [lia|lia|]. intros Hpos.
    split; [now apply Hc|].
    assert (Zdigits2 (m3 * 2 ^ (e3 - (B - 53))) <= 53).
    { apply Zdigits2_le_pow; [lia|]. rewrite Hv.
      pose proof (pow2_pos (e3 - (B - 53)) ltac:(lia)). nia. }
    rewrite Zdigits2_mul_pow2 in H by lia. lia.
Qed.

Lemma add_absorb (B : Z) (a t : float) :
  emin + 55 <= B -> B <= 1024 ->
  finite_below B a -> finite_below (B - 55) t -> finite_below B (add a t).
Proof.
  intros Hmin Hmax Ha Ht.
  destruct a as [sa|sa| |sa ma ea], t as [sb|sb| |sb mb eb];
    cbn [finite_below] in *; try tauto.
  - unfold add, SFadd. destruct sa, sb; exact I.
  - unfold add, SFadd. cbn [finite_below]. split; [tauto|lia].
  - unfold add, SFadd. cbn [finite_below]. split; [tauto|lia].
  - destruct Ha as [Ca Ma], Ht as [Cb Mb]. unfold add, SFadd.
    set (ez := Z.min ea eb).
    rewrite !shl_align_fst by (unfold ez; lia).
    pose proof (canonical_digits _ _ Ca) as [Da Ea].
    pose proof (canonical_digits _ _ Cb) as [Db Eb].
    pose proof (digits_pos_bounds ma) as [_ Ua].
    pose proof (aligned_lt mb eb ez (B - 55) ltac:(unfold ez; lia) Mb) as Y.
    assert (Hez : ez + 56 <= B).
    { unfold mag in Mb. pose proof (Pos2Z.is_pos (digits2_pos mb)). unfold ez. lia. }
    set (w := B - 55 - ez) in *.
    assert (Hw : 0 <= w) by (unfold w; lia).
    pose proof (pow2_pos w Hw) as Pw.
    assert (P53 : 2 ^ 53 = 9007199254740992) by reflexivity.
    assert (P55 : 2 ^ 55 = 36028797018963968) by reflexivity.
    assert (X : Zpos ma * 2 ^ (ea - ez) <= (2 ^ 53 - 1) * (4 * 2 ^ w)).
    { assert (Hea : ea <= B - 53).
      { destruct Ca as [Ca _]. unfold fexp64 in Ca. lia. }
      assert (2 ^ (ea - ez) <= 2 ^ (w + 2)) by (apply pow2_le; unfold w, ez; lia).
      rewrite Z.pow_add_r in H by lia. change (2 ^ 2) with 4 in H.
      assert (Zpos ma < 2 ^ 53).
      { assert (2 ^ Zpos (digits2_pos ma) <= 2 ^ 53) by (apply pow2_le; lia). lia. }
      pose proof (pow2_pos (ea - ez) ltac:(unfold ez; lia)). nia. }
    pose proof (pow2_pos (ea - ez) ltac:(unfold ez; lia)) as Pa.
    pose proof (pow2_pos (eb - ez) ltac:(unfold ez; lia)) as Pb.
    set (Xv := Zpos ma * 2 ^ (ea - ez)) in *.
    set (Yv := Zpos mb * 2 ^ (eb - ez)) in *.
    assert (HM : Z.abs (cond_Zopp sa Xv + cond_Zopp sb Yv)
                 < (2 ^ 55 - 3) * 2 ^ w).
    { assert (0 < Xv) by (unfold Xv; nia). assert (0 < Yv) by (unfold Yv; nia).
      rewrite P53 in X. rewrite P55.
      destruct sa, sb; cbn [cond_Zopp]; lia. }
    destruct (cond_Zopp sa Xv + cond_Zopp sb Yv) as [|p|p];
      cbn [binary_normalize].
    + exact I.
    + apply binary_round_tight; try lia. fold w. lia.
    + apply binary_round_tight; try lia. fold w. lia.
Qed.

Lemma fold_add_below (B : Z) (l : list float) (a : float) :
  emin + 55 <= B -> B <= 1024 ->
  finite_below B a -> Forall (finite_below (B - 55)) l ->
  finite_below B (fold_left add l a).
Proof.
  intros Hmin Hmax Ha Hl. revert a Ha.
  induction Hl as [|t l Ht Hl IH]; intros a Ha; simpl; [exact Ha|].
  apply IH. now apply add_absorb.
Qed.

Lemma np_sum_below (B : Z) (l : list float) :
  emin + 55 <= B -> B <= 1024 ->
  Forall (finite_below (B - 55)) l -> finite_below B (np_sum l).
Proof.
  intros Hmin Hmax Hl. destruct Hl as [|t l Ht Hl]; [exact I|].
  simpl. apply fold_add_below; try assumption.
  apply (finite_below_le (B - 55)); [lia|exact Ht].
Qed.

Lemma fold_add_signed (l : list float) (a : float) :
  signed false a -> Forall (signed false) l -> signed false (fold_left add l a).
Proof.
  intros Ha Hl. revert a Ha.
  induction Hl as [|t l Ht Hl IH]; intros a Ha; simpl; [exact Ha|].
  apply IH. now apply add_signed.
Qed.

Lemma np_sum_signed (l : list float) :
  Forall (signed false) l -> signed false (np_sum l).
Proof.
  intros Hl. destruct Hl as [|t l Ht Hl]; [reflexivity|].
  simpl. now apply fold_add_signed.
Qed.

(** ** Equality with a number that is not zero *)

Lemma eqb_large_eq (L : Z) (a b : float) :
  large_above L b -> signed false b -> eqb a b = true -> a = b.
Proof.
  unfold signed, eqb, SFeqb.
  destruct a as [sa|sa| |sa ma ea], b as [sb|sb| |sb mb eb];
    cbn [large_above]; try tauto; simpl sign_of; intros _ [= ->];
    simpl; try discriminate; try (destruct sa; discriminate).
  - destruct sa; [discriminate|]. reflexivity.
  - destruct sa; [discriminate|].
    destruct (Z.compare_spec ea eb) as [E|E|E]; try discriminate. subst eb.
    rewrite Pos.compare_cont_spec. simpl.
    destruct (Pos.compare_spec ma mb) as [E|E|E]; try discriminate.
    now subst mb.
Qed.

(** ** The opposite of a difference *)

Lemma rounded_opp (s : bool) (m e : Z) :
  0 <= m -> opp (rounded s m e) = rounded (negb s) m e.
Proof.
  intros H. destruct m as [|p|p]; try lia; simpl; [reflexivity|].
  now destruct (e <=? 971).
Qed.

Lemma binary_round_opp (s : bool) (m : positive) (e : Z) :
  opp (binary_round prec emax s m e) = binary_round prec emax (negb s) m e.
Proof.
  rewrite !binary_round_unfold. cbv zeta.
  set (ez := Z.min e (fexp64 (mag m e))).
  assert (Hez : ez <= e) by (unfold ez; lia).
  pose proof (pow2_pos (e - ez) ltac:(lia)) as P.
  pose proof (binary_round_aux_signed s (Zpos m * 2 ^ (e - ez)) ez loc_Exact
                ltac:(lia)) as S.
  rewrite !binary_round_aux_unfold. rewrite binary_round_aux_unfold in S.
  cbv zeta in *. apply rounded_opp. revert S.
  match goal with |- _ -> 0 <= ?x => destruct x as [|q|q] end; try lia.
  discriminate.
Qed.

(** The difference of two finite numbers is the opposite of the difference
    taken the other way round, as [==] has it: the two can differ when
    both are zero, by the sign of the zero. *)
Lemma sub_antisym (Ka Kb : Z) (a b : float) :
  finite_below Ka a -> finite_below Kb b ->
  eqb (sub a b) (opp (sub b a)) = true.
Proof.
  intros Ha Hb.
  destruct a as [sa|sa| |sa ma ea], b as [sb|sb| |sb mb eb];
    cbn [finite_below] in *; try tauto.
  - destruct sa, sb; reflexivity.
  - unfold sub, SFsub, opp. simpl SFopp. now apply eqb_refl.
  - unfold sub, SFsub, opp. simpl SFopp. rewrite negb_involutive.
    now apply eqb_refl.
  - unfold sub, SFsub. rewrite (Z.min_comm eb ea).
    set (ez := Z.min ea eb).
    set (X := cond_Zopp sa (Zpos (fst (shl_align ma ea ez)))).
    set (Y := cond_Zopp sb (Zpos (fst (shl_align mb eb ez)))).
    replace (Y - X) with (- (X - Y)) by lia.
    destruct (X - Y) as [|p|p]; cbn [Z.opp binary_normalize].
    + reflexivity.
    + rewrite binary_round_opp. simpl negb. apply eqb_refl.
      pose proof (binary_round_signed false p ez) as S.
      now apply signed_not_nan in S.
    + rewrite binary_round_opp. simpl negb. apply eqb_refl.
      pose proof (binary_round_signed true p ez) as S.
      now apply signed_not_nan in S.
Qed.

End Arith.

(** * Binary64: integers, exact sums and comparisons *)

Module Exact.

Import F64Facts Rounding Arith.

(** ** Numbers in canonical form *)

(** The mantissa and the exponent of a finite [x] are the ones of the
    binary64 format; every result of an operation is so. *)
Definition wf (x : float) : Prop :=
  match x with
  | S754_finite _ m e => canonical m e
  | _ => True
  end.

Lemma finite_below_wf (K : Z) (x : float) : finite_below K x -> wf x.
Proof. destruct x; simpl; tauto. Qed.

Lemma rounded_wf (s : bool) (m3 e3 : Z) :
  (0 < m3 -> fexp64 (Zdigits2 m3 + e3) = e3) -> wf (rounded s m3 e3).
Proof.
  intros H. destruct m3 as [|p|p]; simpl; try exact I.
  destruct (e3 <=? 971) eqn:E; simpl; [|exact I].
  apply Z.leb_le in E. split; [|exact E].
  exact (H ltac:(lia)).
Qed.

Lemma binary_round_aux_wf (s : bool) (m e : Z) (l : location) :
  0 <= m -> e <= fexp64 (Zdigits2 m + e) ->
  wf (binary_round_aux prec emax s m e l).
Proof.
  intros Hm HP.
  destruct (binary_round_aux_spec s m e l Hm HP)
    as [m2 [m3 [e3 [-> [_ [_ [_ [_ [_ [_ Hc]]]]]]]]]].
  now apply rounded_wf.
Qed.

Lemma binary_round_wf (s : bool) (m : positive) (e : Z) :
  wf (binary_round prec emax s m e).
Proof.
  rewrite binary_round_unfold. cbv zeta.
  set (ez := Z.min e (fexp64 (mag m e))).
  assert (Hez : ez <= e) by (unfold ez; lia).
  pose proof (pow2_pos (e - ez) ltac:(lia)) as P.
  apply binary_round_aux_wf; [lia|].
  rewrite Zdigits2_shl by exact Hez. unfold ez. lia.
Qed.

Lemma binary_normalize_wf (z e : Z) (szero : bool) :
  wf (binary_normalize prec emax z e szero).
Proof. destruct z; simpl; try exact I; apply binary_round_wf. Qed.

Lemma of_Z_wf (z : Z) : wf (of_Z z).
Proof. apply binary_normalize_wf. Qed.

Lemma mul_wf (a b : float) : wf a -> wf b -> wf (mul a b).
Proof.
  destruct a as [sa|sa| |sa ma ea], b as [sb|sb| |sb mb eb]; simpl;
    try (intros; exact I).
  intros [Ca Ea] [Cb Eb]. unfold mul, SFmul. rewrite Pos2Z.inj_mul.
  pose proof (Zdigits2_mul (Zpos ma) (Zpos mb) ltac:(lia) ltac:(lia)) as [Dl Du].
  change (Zdigits2 (Zpos ma)) with (Zpos (digits2_pos ma)) in *.
  change (Zdigits2 (Zpos mb)) with (Zpos (digits2_pos mb)) in *.
  pose proof (Pos2Z.is_pos (digits2_pos ma)).
  pose proof (Pos2Z.is_pos (digits2_pos mb)).
  unfold mag, fexp64, emin in *.
  apply binary_round_aux_wf; unfold fexp64, emin; lia.
Qed.

Lemma div_wf (a b : float) : wf (div a b).
Proof.
  destruct a as [sa|sa| |sa ma ea], b as [sb|sb| |sb mb eb]; simpl;
    try exact I.
  unfold div, SFdiv.
  pose proof (div_core_spec ma mb ea eb) as H.
  destruct (SFdiv_core_binary prec emax (Zpos ma) ea (Zpos mb) eb) as [[q e'] l].
  destruct H as [Hq [HP _]]. now apply binary_round_aux_wf.
Qed.

Lemma rint_wf (x : float) : wf x -> wf (rint x).
Proof.
  destruct x as [s|s| |s m [|p|p]]; simpl; auto.
  intros _. apply binary_normalize_wf.
Qed.

(** ** Results that are numbers *)





(** ** Integers below [2^53] are binary64 numbers *)

(** The binary64 number that is the integer [k], [0 < k < 2^53]: its
    mantissa has 53 digits. *)
Definition exactly (s : bool) (k : Z) : float :=
  S754_finite s (Z.to_pos (k * 2 ^ (53 - Zdigits2 k))) (Zdigits2 k - 53).

Lemma small_digits (k : Z) : 0 < k < 2 ^ 53 -> 1 <= Zdigits2 k <= 53.
Proof.
  intros [H0 H]. pose proof (Zdigits2_pos k H0).
  pose proof (Zdigits2_le_pow k 53 ltac:(lia) ltac:(lia)). lia.
Qed.

(** A mantissa and an exponent whose value is [k] round to [k]. *)
Lemma binary_round_exact (s : bool) (m : positive) (e k : Z) :
  0 < k < 2 ^ 53 -> e <= 0 -> Zpos m = k * 2 ^ (- e) ->
  binary_round prec emax s m e = exactly s k.
Proof.
  intros Hk He Hm. pose proof (small_digits k Hk) as Hd.
  unfold exactly. set (d := Zdigits2 k) in *.
  assert (Hmag : mag m e = d).
  { unfold mag. change (Zpos (digits2_pos m)) with (Zdigits2 (Zpos m)).
    rewrite Hm, Zdigits2_mul_pow2 by lia. fold d. lia. }
  rewrite binary_round_unfold. cbv zeta. rewrite Hmag.
  assert (HE : fexp64 d = d - 53) by (unfold fexp64, emin; lia).
  rewrite HE. set (ez := Z.min e (d - 53)).
  set (mz := Zpos m * 2 ^ (e - ez)).
  assert (Hmz : mz = k * 2 ^ (- ez)).
  { unfold mz. rewrite Hm, <- Z.mul_assoc, <- Z.pow_add_r by (unfold ez; lia).
    f_equal. f_equal. lia. }
  pose proof (pow2_pos (- ez) ltac:(unfold ez; lia)) as Pz.
  assert (Dmz : Zdigits2 mz + ez = d).
  { rewrite Hmz, Zdigits2_mul_pow2 by (unfold ez; lia). fold d. lia. }
  assert (HP : ez <= fexp64 (Zdigits2 mz + ez)) by (rewrite Dmz, HE; unfold ez; lia).
  destruct (binary_round_aux_spec s mz ez loc_Exact ltac:(rewrite Hmz; nia) HP)
    as [m2 [m3 [e3 [-> [_ [_ [Hex [HE3 [Hv [H3 Hc]]]]]]]]]].
  rewrite Dmz, HE in *.
  set (n := d - 53 - ez) in *.
  assert (Hn : 0 <= n) by (unfold n, ez; lia).
  pose proof (pow2_pos n Hn) as Pn.
  pose proof (pow2_pos (53 - d) ltac:(lia)) as Pd.
  assert (Hsplit : mz = k * 2 ^ (53 - d) * 2 ^ n).
  { rewrite Hmz, <- Z.mul_assoc, <- Z.pow_add_r by lia.
    f_equal. f_equal. unfold n. lia. }
  assert (Hm2 : m2 = k * 2 ^ (53 - d)).
  { rewrite (Hex eq_refl).
    - rewrite Hsplit. apply Z.div_mul. lia.
    - rewrite Hsplit. apply Z.mod_mul. lia. }
  assert (D2 : Zdigits2 m2 = 53).
  { rewrite Hm2, Zdigits2_mul_pow2 by lia. fold d. lia. }
  assert (P3 : 0 < m3).
  { destruct (Z.eq_dec m3 0) as [E|E]; [|lia].
    rewrite E in Hv. simpl in Hv. nia. }
  assert (He3 : e3 = d - 53).
  { specialize (Hc P3).
    rewrite <- Hv, Zdigits2_mul_pow2 in D2 by lia.
    unfold fexp64, emin in Hc. lia. }
  subst e3. rewrite Z.sub_diag in Hv. change (2 ^ 0) with 1 in Hv.
  rewrite Z.mul_1_r in Hv. subst m3. rewrite Hm2.
  destruct (k * 2 ^ (53 - d)) as [|p|p] eqn:Ep; try lia.
  simpl rounded.
  replace (d - 53 <=? 971) with true by (symmetry; apply Z.leb_le; lia).
  reflexivity.
Qed.

Lemma of_Z_exact (k : Z) : 0 < k < 2 ^ 53 -> of_Z k = exactly false k.
Proof.
  intros Hk. destruct k as [|p|p]; try lia.
  unfold of_Z. simpl binary_normalize.
  apply binary_round_exact; lia.
Qed.

Lemma of_Z_exact_opp (k : Z) : 0 < k < 2 ^ 53 -> of_Z (- k) = exactly true k.
Proof.
  intros Hk. destruct k as [|p|p]; try lia.
  unfold of_Z. simpl binary_normalize.
  apply binary_round_exact; lia.
Qed.

Lemma exactly_mantissa (k : Z) :
  0 < k < 2 ^ 53 ->
  Zpos (Z.to_pos (k * 2 ^ (53 - Zdigits2 k))) = k * 2 ^ (53 - Zdigits2 k).
Proof.
  intros Hk. pose proof (small_digits k Hk).
  pose proof (pow2_pos (53 - Zdigits2 k) ltac:(lia)).
  apply Z2Pos.id. nia.
Qed.

(** The sum of two integers that stays below [2^53] is computed exactly. *)
Lemma add_of_Z (a b : Z) :
  0 <= a -> 0 <= b -> a + b < 2 ^ 53 -> add (of_Z a) (of_Z b) = of_Z (a + b).
Proof.
  intros Ha Hb Hs.
  destruct (Z.eq_dec a 0) as [->|Na].
  { change (of_Z 0) with (S754_zero false). simpl Z.add.
    destruct (Z.eq_dec b 0) as [->|Nb]; [reflexivity|].
    rewrite of_Z_exact by lia. reflexivity. }
  destruct (Z.eq_dec b 0) as [->|Nb].
  { change (of_Z 0) with (S754_zero false). rewrite Z.add_0_r.
    rewrite of_Z_exact by lia. reflexivity. }
  rewrite (of_Z_exact a), (of_Z_exact b), (of_Z_exact (a + b)) by lia.
  pose proof (small_digits a ltac:(lia)) as Da.
  pose proof (small_digits b ltac:(lia)) as Db.
  pose proof (exactly_mantissa a ltac:(lia)) as Ma.
  pose proof (exactly_mantissa b ltac:(lia)) as Mb.
  unfold exactly at 1 2. unfold add, SFadd. cbn [cond_Zopp].
  set (ea := Zdigits2 a - 53) in *. set (eb := Zdigits2 b - 53) in *.
  set (ez := Z.min ea eb).
  rewrite !shl_align_fst by (unfold ez; lia).
  rewrite Ma, Mb.
  replace (53 - Zdigits2 a) with (- ea) by (unfold ea; lia).
  replace (53 - Zdigits2 b) with (- eb) by (unfold eb; lia).
  assert (HM : a * 2 ^ (- ea) * 2 ^ (ea - ez) + b * 2 ^ (- eb) * 2 ^ (eb - ez)
               = (a + b) * 2 ^ (- ez)).
  { rewrite <- !Z.mul_assoc, <- !Z.pow_add_r by (unfold ea, eb, ez; lia).
    replace (- ea + (ea - ez)) with (- ez) by lia.
    replace (- eb + (eb - ez)) with (- ez) by lia. lia. }
  rewrite HM.
  pose proof (pow2_pos (- ez) ltac:(unfold ea, eb, ez; lia)) as Pz.
  destruct ((a + b) * 2 ^ (- ez)) as [|p|p] eqn:Ep; try nia.
  cbn [binary_normalize].
  apply binary_round_exact; unfold ea, eb, ez in *; lia.
Qed.

(** ** Comparison of numbers in canonical form *)

Lemma le_canonical (m1 m2 : positive) (e1 e2 : Z) :
  canonical m1 e1 -> canonical m2 e2 ->
  leb (S754_finite false m1 e1) (S754_finite false m2 e2) = true ->
  Zpos m1 * 2 ^ (e1 - Z.min e1 e2) <= Zpos m2 * 2 ^ (e2 - Z.min e1 e2).
Proof.
  intros [C1 _] [C2 _] H. unfold leb, SFleb in H. simpl in H.
  change (Pos.compare_cont Eq) with Pos.compare in H.
  destruct (Z.compare_spec e1 e2) as [E|E|E]; try discriminate.
  - subst e2. rewrite Z.min_id, Z.sub_diag. change (2 ^ 0) with 1.
    destruct (Pos.compare_spec m1 m2) as [E|E|E]; try discriminate; lia.
  - replace (Z.min e1 e2) with e1 by lia.
    rewrite Z.sub_diag. change (2 ^ 0) with 1.
    pose proof (digits_pos_bounds m1) as [_ U1].
    pose proof (digits_pos_bounds m2) as [L2 _].
    pose proof (Pos2Z.is_pos (digits2_pos m2)).
    unfold mag, fexp64 in C1, C2.
    assert (Hd : Zpos (digits2_pos m1) <= Zpos (digits2_pos m2) - 1 + (e2 - e1))
      by lia.
    assert (2 ^ Zpos (digits2_pos m1)
            <= 2 ^ (Zpos (digits2_pos m2) - 1 + (e2 - e1)))
      by (apply pow2_le; lia).
    rewrite Z.pow_add_r in H1 by lia.
    pose proof (pow2_pos (e2 - e1) ltac:(lia)). nia.
Qed.

Lemma leb_negative (m1 m2 : positive) (e1 e2 : Z) :
  leb (S754_finite true m1 e1) (S754_finite true m2 e2)
  = leb (S754_finite false m2 e2) (S754_finite false m1 e1).
Proof.
  unfold leb, SFleb. simpl. change (Pos.compare_cont Eq) with Pos.compare.
  rewrite (Z.compare_antisym e1 e2).
  destruct (e1 ?= e2); simpl; try reflexivity.
  rewrite (Pos.compare_antisym m1 m2). now destruct (m1 ?= m2)%positive.
Qed.

(** ** Truncation to an integer *)

(** The integer part of the absolute value of a finite number. *)
Definition int_part (m : positive) (e : Z) : Z :=
  match e with
  | Zneg p => Z.shiftr (Zpos m) (Zpos p)
  | _ => Z.shiftl (Zpos m) e
  end.

Lemma int_part_nonneg (m : positive) (e : Z) : 0 <= int_part m e.
Proof.
  unfold int_part. destruct e as [|p|p].
  - simpl. lia.
  - rewrite Z.shiftl_mul_pow2 by lia. pose proof (pow2_pos (Zpos p) ltac:(lia)). nia.
  - rewrite Z.shiftr_div_pow2 by lia. apply Z.div_pos; [lia|].
    apply pow2_pos. lia.
Qed.

Lemma int_part_le (m : positive) (e k : Z) :
  0 <= k < 2 ^ 53 -> canonical m e ->
  leb (S754_finite false m e) (of_Z k) = true -> int_part m e <= k.
Proof.
  intros Hk Hc H.
  destruct (Z.eq_dec k 0) as [->|Nk]; [discriminate H|].
  rewrite of_Z_exact in H by lia. unfold exactly in H.
  pose proof (small_digits k ltac:(lia)) as Hd.
  pose proof (exactly_mantissa k ltac:(lia)) as Mk.
  set (ek := Zdigits2 k - 53) in *.
  assert (Ck : canonical (Z.to_pos (k * 2 ^ (53 - Zdigits2 k))) ek).
  { pose proof (of_Z_wf k) as W. rewrite of_Z_exact in W by lia. exact W. }
  pose proof (le_canonical _ _ _ _ Hc Ck H) as L.
  rewrite Mk in L.
  replace (53 - Zdigits2 k) with (- ek) in L by (unfold ek; lia).
  set (z := Z.min e ek) in *.
  rewrite <- Z.mul_assoc, <- Z.pow_add_r in L by (unfold z, ek; lia).
  replace (- ek + (ek - z)) with (- z) in L by lia.
  unfold int_part. destruct e as [|p|p].
  - rewrite Z.shiftl_mul_pow2 by lia. change (2 ^ 0) with 1.
    rewrite Z.sub_0_l in L. pose proof (pow2_pos (- z) ltac:(unfold z, ek; lia)).
    nia.
  - rewrite Z.shiftl_mul_pow2 by lia.
    replace (Zpos p - z) with (Zpos p + - z) in L by lia.
    rewrite Z.pow_add_r, Z.mul_assoc in L by (unfold z, ek; lia).
    pose proof (pow2_pos (- z) ltac:(unfold z, ek; lia)).
    pose proof (pow2_pos (Zpos p) ltac:(lia)). nia.
  - rewrite Z.shiftr_div_pow2 by lia.
    pose proof (pow2_pos (Zpos p) ltac:(lia)) as Pp.
    pose proof (pow2_pos (Zneg p - z) ltac:(unfold z; lia)) as Pq.
    replace (- z) with (Zpos p + (Zneg p - z)) in L by lia.
    rewrite Z.pow_add_r, Z.mul_assoc in L by (unfold z; lia).
    assert (Zpos m <= k * 2 ^ Zpos p) by nia.
    apply Z.div_le_upper_bound; lia.
Qed.

Lemma to_int64_finite (s : bool) (m : positive) (e : Z) :
  int_part m e < 2 ^ 63 ->
  to_int64 (S754_finite s m e) = cond_Zopp s (int_part m e).
Proof.
  intros H. pose proof (int_part_nonneg m e) as H0.
  unfold to_int64. fold (int_part m e).
  set (v := cond_Zopp s (int_part m e)).
  assert (Hv : INT64_MIN <= v < 2 ^ 63).
  { unfold v, INT64_MIN. destruct s; simpl cond_Zopp; lia. }
  destruct (Z.leb_spec INT64_MIN v); [|lia].
  destruct (Z.ltb_spec v (2 ^ 63)); [|lia].
  reflexivity.
Qed.

(** A number between [-k] and [k] is truncated to an integer between
    [-k] and [k]. *)
Lemma to_int64_between (k : Z) (x : float) :
  0 <= k < 2 ^ 53 -> wf x ->
  leb (of_Z (- k)) x = true -> leb x (of_Z k) = true ->
  - k <= to_int64 x <= k.
Proof.
  intros Hk W Hlo Hhi.
  assert (P53 : 2 ^ 53 = 9007199254740992) by reflexivity.
  assert (P63 : 2 ^ 63 = 9223372036854775808) by reflexivity.
  destruct x as [s|s| |s m e].
  - simpl. lia.
  - exfalso. destruct s.
    + destruct (Z.eq_dec k 0) as [->|Nk]; [discriminate Hlo|].
      rewrite of_Z_exact_opp in Hlo by lia. discriminate Hlo.
    + destruct (Z.eq_dec k 0) as [->|Nk]; [discriminate Hhi|].
      rewrite of_Z_exact in Hhi by lia. discriminate Hhi.
  - discriminate Hhi.
  - simpl in W. pose proof (int_part_nonneg m e) as H0.
    destruct s.
    + assert (L : int_part m e <= k).
      { destruct (Z.eq_dec k 0) as [->|Nk]; [discriminate Hlo|].
        rewrite of_Z_exact_opp in Hlo by lia. unfold exactly in Hlo.
        rewrite leb_negative in Hlo.
        apply int_part_le; [lia|exact W|].
        rewrite of_Z_exact by lia. exact Hlo. }
      rewrite to_int64_finite by lia. simpl. lia.
    + assert (L : int_part m e <= k) by (apply int_part_le; auto).
      rewrite to_int64_finite by lia. simpl. lia.
Qed.

End Exact.

(** * Binary64: values that are kept as they are *)

Module Trips.

Import F64Facts Rounding Arith Exact.

(** A mantissa and an exponent whose value is the one of a number in
    canonical form round to that number. *)
Lemma binary_round_aux_canonical (s : bool) (m : positive) (e e0 : Z) :
  canonical m e -> e0 <= e ->
  binary_round_aux prec emax s (Zpos m * 2 ^ (e - e0)) e0 loc_Exact
  = S754_finite s m e.
Proof.
  intros [Hc He] H0.
  pose proof (pow2_pos (e - e0) ltac:(lia)) as Pn.
  set (q := Zpos m * 2 ^ (e - e0)).
  assert (Dq : Zdigits2 q + e0 = mag m e).
  { unfold q, mag. rewrite Zdigits2_mul_pow2 by lia.
    change (Zdigits2 (Zpos m)) with (Zpos (digits2_pos m)). lia. }
  assert (HP : e0 <= fexp64 (Zdigits2 q + e0)) by (rewrite Dq, Hc; exact H0).
  destruct (binary_round_aux_spec s q e0 loc_Exact ltac:(unfold q; nia) HP)
    as [m2 [m3 [e3 [-> [_ [_ [Hex [HE3 [Hv [H3 Hcan]]]]]]]]]].
  rewrite Dq, Hc in *.
  assert (Hm2 : m2 = Zpos m).
  { rewrite (Hex eq_refl).
    - unfold q. apply Z.div_mul. lia.
    - unfold q. apply Z.mod_mul. lia. }
  assert (P3 : 0 < m3).
  { destruct (Z.eq_dec m3 0) as [E|E]; [|lia].
    rewrite E in Hv. simpl in Hv. lia. }
  assert (He3 : e3 = e).
  { specialize (Hcan P3).
    assert (D : Zdigits2 (m3 * 2 ^ (e3 - e)) = Zpos (digits2_pos m))
      by (rewrite Hv, Hm2; reflexivity).
    rewrite Zdigits2_mul_pow2 in D by lia.
    unfold mag, fexp64 in *. lia. }
  subst e3. rewrite Z.sub_diag in Hv. change (2 ^ 0) with 1 in Hv.
  rewrite Z.mul_1_r in Hv. subst m3. rewrite Hm2. simpl rounded.
  now replace (e <=? 971) with true by (symmetry; apply Z.leb_le; lia).
Qed.

(** An integer that is a binary64 number is converted to that number. *)
Lemma of_Z_canonical (s : bool) (m : positive) (e : Z) :
  canonical m e -> 0 <= e ->
  of_Z (cond_Zopp s (Zpos m * 2 ^ e)) = S754_finite s m e.
Proof.
  intros Hc He. pose proof (pow2_pos e He) as Pe.
  destruct (Zpos m * 2 ^ e) as [|p|p] eqn:Ep; try lia.
  assert (R : binary_round prec emax s p 0 = S754_finite s m e).
  { rewrite binary_round_unfold. cbv zeta.
    assert (Hmag : mag p 0 = mag m e).
    { unfold mag. change (Zpos (digits2_pos p)) with (Zdigits2 (Zpos p)).
      rewrite <- Ep, Zdigits2_mul_pow2 by lia.
      change (Zdigits2 (Zpos m)) with (Zpos (digits2_pos m)). lia. }
    rewrite Hmag. destruct Hc as [Hc H971]. rewrite Hc.
    replace (Z.min 0 e) with 0 by lia.
    rewrite Z.sub_diag. change (2 ^ 0) with 1. rewrite Z.mul_1_r.
    rewrite <- Ep. replace e with (e - 0) at 1 by lia.
    apply binary_round_aux_canonical; [split; assumption|lia]. }
  unfold of_Z. destruct s; simpl cond_Zopp; simpl binary_normalize; exact R.
Qed.

(** Division by 1 changes nothing. *)
Lemma div_one (s : bool) (m : positive) (e : Z) :
  canonical m e -> div (S754_finite s m e) (of_Z 1) = S754_finite s m e.
Proof.
  intros Hc. pose proof Hc as [Hfe H971].
  change (of_Z 1) with (S754_finite false 4503599627370496 (-52)).
  unfold div, SFdiv, SFdiv_core_binary. rewrite fexp_eq.
  change (Zdigits2 (Zpos 4503599627370496)) with 53.
  change (Zdigits2 (Zpos m)) with (Zpos (digits2_pos m)).
  set (d := Zpos (digits2_pos m)).
  replace (d + e - (53 + -52)) with (d + e - 1) by lia.
  replace (e - -52) with (e + 52) by lia.
  assert (Hd : 0 < d) by (unfold d; lia).
  set (e' := Z.min (fexp64 (d + e - 1)) (e + 52)).
  assert (He' : e' <= e) by (unfold e', mag, fexp64 in *; fold d in Hfe; lia).
  set (s' := e + 52 - e').
  assert (Hs' : 52 <= s') by (unfold s'; lia).
  assert (Hm' : match s' with
                | Z.pos _ => Z.shiftl (Z.pos m) s'
                | 0 => Z.pos m
                | Z.neg _ => 0
                end = Zpos m * 2 ^ (e - e') * 4503599627370496).
  { destruct s' as [|p|p] eqn:Es; try lia. rewrite <- Es.
    rewrite Z.shiftl_mul_pow2 by lia.
    replace s' with ((e - e') + 52) by (unfold s'; lia).
    rewrite Z.pow_add_r by lia. change (2 ^ 52) with 4503599627370496. lia. }
  rewrite Hm', div_eucl_div.
  rewrite Z.div_mul, Z.mod_mul by lia.
  change (new_location 4503599627370496 0) with loc_Exact.
  rewrite xorb_false_r.
  now apply binary_round_aux_canonical.
Qed.

(** ** Integers *)

Lemma to_int64_exactly (s : bool) (k : Z) :
  0 < k < 2 ^ 53 -> to_int64 (exactly s k) = cond_Zopp s k.
Proof.
  intros Hk. pose proof (small_digits k Hk) as Hd.
  pose proof (exactly_mantissa k Hk) as Hm.
  assert (P53 : 2 ^ 53 = 9007199254740992) by reflexivity.
  assert (P63 : 2 ^ 63 = 9223372036854775808) by reflexivity.
  unfold exactly.
  assert (Hi : int_part (Z.to_pos (k * 2 ^ (53 - Zdigits2 k))) (Zdigits2 k - 53) = k).
  { unfold int_part. destruct (Zdigits2 k - 53) as [|p|p] eqn:E; try lia.
    - rewrite Z.shiftl_0_r, Hm. replace (53 - Zdigits2 k) with 0 by lia.
      change (2 ^ 0) with 1. lia.
    - rewrite Z.shiftr_div_pow2 by lia. rewrite Hm.
      replace (53 - Zdigits2 k) with (Zpos p) by lia.
      apply Z.div_mul. pose proof (pow2_pos (Zpos p) ltac:(lia)). lia. }
  rewrite to_int64_finite; rewrite Hi; [reflexivity|lia].
Qed.

(** A finite number whose value is an integer: a zero, a number with an
    exponent that is not negative, or an integer below [2^53]. *)
Definition integral (x : float) : Prop :=
  match x with
  | S754_zero _ => True
  | S754_finite s m e =>
      canonical m e /\
      (0 <= e \/ exists k, 0 < k < 2 ^ 53 /\ S754_finite s m e = exactly s k)
  | _ => False
  end.

Lemma exactly_canonical (s : bool) (k : Z) :
  0 < k < 2 ^ 53 -> wf (exactly s k).
Proof.
  intros Hk. destruct s.
  - rewrite <- of_Z_exact_opp by exact Hk. apply of_Z_wf.
  - rewrite <- of_Z_exact by exact Hk. apply of_Z_wf.
Qed.

Lemma exactly_integral (s : bool) (k : Z) :
  0 < k < 2 ^ 53 -> integral (exactly s k).
Proof.
  intros Hk. pose proof (exactly_canonical s k Hk) as W.
  unfold exactly in *. simpl. split; [exact W|]. right. now exists k.
Qed.

Lemma of_Z_integral (k : Z) : Z.abs k < 2 ^ 53 -> integral (of_Z k).
Proof.
  intros Hk. destruct k as [|p|p].
  - exact I.
  - rewrite of_Z_exact by lia. apply exactly_integral. lia.
  - change (Zneg p) with (- Zpos p).
    rewrite of_Z_exact_opp by lia. apply exactly_integral. lia.
Qed.

(** [rint] of a number in canonical form is an integer. *)
Lemma rint_integral (x : float) :
  wf x -> is_finite x = true -> integral (rint x).
Proof.
  destruct x as [s|s| |s m e]; try discriminate; [intros; exact I|].
  intros Hc _. simpl in Hc. destruct e as [|p|p].
  - split; [exact Hc|]. left. lia.
  - split; [exact Hc|]. left. lia.
  - unfold rint. cbv zeta.
    set (mrs := fst (shr (Build_shr_record (Zpos m) false false) (Zneg p) (Zpos p))).
    pose proof (shr_m_div (Build_shr_record (Zpos m) false false) (Zneg p) (Zpos p)
                  ltac:(simpl; lia) ltac:(lia)) as [Hm _].
    fold mrs in Hm. simpl shr_m in Hm at 2.
    pose proof (round_nearest_even_bounds (shr_m mrs) (loc_of_shr_record mrs)) as Hq.
    set (q := round_nearest_even (shr_m mrs) (loc_of_shr_record mrs)) in *.
    pose proof (canonical_digits _ _ Hc) as [Hd _].
    pose proof (digits_pos_bounds m) as [_ U].
    assert (P53 : 2 ^ 53 = 9007199254740992) by reflexivity.
    assert (Hlt : Zpos m < 2 ^ 53).
    { assert (2 ^ Zpos (digits2_pos m) <= 2 ^ 53) by (apply pow2_le; lia). lia. }
    assert (Hdiv : 0 <= Zpos m / 2 ^ Zpos p < 2 ^ 52).
    { split; [apply Z.div_pos; [lia|apply pow2_pos; lia]|].
      apply Z.div_lt_upper_bound; [apply pow2_pos; lia|].
      assert (2 ^ 1 <= 2 ^ Zpos p) by (apply pow2_le; lia).
      change (2 ^ 1) with 2 in H. change (2 ^ 52) with 4503599627370496. lia. }
    change (2 ^ 52) with 4503599627370496 in Hdiv.
    destruct q as [|k|k] eqn:Eq; try lia.
    + destruct s; exact I.
    + assert (R : binary_normalize prec emax (cond_Zopp s (Zpos k)) 0 s
                  = exactly s (Zpos k)).
      { destruct s; simpl cond_Zopp; simpl binary_normalize;
          apply binary_round_exact; lia. }
      rewrite R. apply exactly_integral. lia.
Qed.

(** Converting an integral number between [-k] and [k] to an integer and
    back gives a number equal to it. *)
Lemma integral_round_trip (k : Z) (x : float) :
  0 <= k < 2 ^ 53 -> integral x ->
  leb (of_Z (- k)) x = true -> leb x (of_Z k) = true ->
  eqb (of_Z (to_int64 x)) x = true.
Proof.
  intros Hk Hx Hlo Hhi.
  assert (P53 : 2 ^ 53 = 9007199254740992) by reflexivity.
  assert (P63 : 2 ^ 63 = 9223372036854775808) by reflexivity.
  destruct x as [s|s| |s m e]; cbn [integral] in Hx;
    try (exfalso; exact Hx).
  - now destruct s.
  - destruct Hx as [Hc [He|[q [Hq E]]]].
    + pose proof (to_int64_between k (S754_finite s m e) Hk Hc Hlo Hhi) as B.
      pose proof (int_part_nonneg m e) as H0.
      assert (Hi : int_part m e < 2 ^ 63).
      { destruct (Z_lt_le_dec (int_part m e) (2 ^ 63)) as [H|H]; [exact H|].
        exfalso. unfold to_int64 in B. fold (int_part m e) in B.
        unfold INT64_MIN in B.
        destruct s; simpl cond_Zopp in B.
        - destruct (Z.leb_spec (- 2 ^ 63) (- int_part m e)),
            (Z.ltb_spec (- int_part m e) (2 ^ 63)); simpl in B; lia.
        - destruct (Z.leb_spec (- 2 ^ 63) (int_part m e)),
            (Z.ltb_spec (int_part m e) (2 ^ 63)); simpl in B; lia. }
      rewrite to_int64_finite by exact Hi.
      assert (Hv : int_part m e = Zpos m * 2 ^ e).
      { unfold int_part. destruct e as [|p|p]; try lia;
          now rewrite Z.shiftl_mul_pow2 by lia. }
      rewrite Hv, of_Z_canonical by assumption.
      now apply eqb_refl.
    + rewrite E, to_int64_exactly by exact Hq.
      destruct s; simpl cond_Zopp.
      * rewrite of_Z_exact_opp by exact Hq. now apply eqb_refl.
      * rewrite of_Z_exact by exact Hq. now apply eqb_refl.
Qed.

Lemma valid_wf (x : float) : valid_binary prec emax x = true -> wf x.
Proof.
  destruct x as [s|s| |s m e]; simpl; auto.
  unfold bounded, canonical_mantissa. rewrite fexp_eq.
  intros H. apply andb_true_iff in H as [H1 H2].
  apply Z.eqb_eq in H1. apply Z.leb_le in H2.
  split; [exact H1|exact H2].
Qed.

End Trips.

(** * The store: what the program allocates and what it leaves alone *)

Section Store.

Lemma nth_error_app_old (h ext : heap) (r : ref) (a : ndarray) :
  nth_error h r = Some a -> nth_error (h ++ ext) r = Some a.
Proof.
  intros H. rewrite nth_error_app1; [exact H|].
  apply nth_error_Some. congruence.
Qed.

Lemma nth_error_app_new (h : heap) (a : ndarray) (ext : heap) :
  nth_error (h ++ a :: ext) (length h) = Some a.
Proof.
  rewrite nth_error_app2 by lia. now rewrite Nat.sub_diag.
Qed.

Lemma update_app_new (h : heap) (a b : ndarray) :
  update (h ++ [a]) (length h) b = h ++ [b].
Proof.
  induction h as [|c h IH]; simpl; [reflexivity|]. now rewrite IH.
Qed.

Lemma update_length (h : heap) (r : ref) (a : ndarray) :
  length (update h r a) = length h.
Proof.
  revert r; induction h as [|c h IH]; intros [|r]; simpl; auto.
Qed.

Lemma as_floats_box (fs : list float) : as_floats (box fs) = Ok fs.
Proof.
  induction fs as [|f fs IH]; simpl; [reflexivity|]. now rewrite IH.
Qed.

Lemma load_old (h : heap) (r : ref) (a : ndarray) :
  nth_error h r = Some a -> load r h = (Ok a, h).
Proof. intros H. unfold load. now rewrite H. Qed.

Lemma setitem_where_new (h : heap) (fs : list float) (mask : float -> bool) (v : float) :
  setitem_where (length h) mask v (h ++ [box fs])
  = (Ok tt, h ++ [box (map (fun e => if mask e then v else e) fs)]).
Proof.
  unfold setitem_where, bind, load, lift, store.
  rewrite nth_error_app_new, as_floats_box, nth_error_app_new.
  now rewrite update_app_new.
Qed.

Lemma clip_twice (vmin vmax : Z) (l : list float) :
  map (fun e => if ltb e (of_Z vmin) then of_Z vmin else e)
      (map (fun e => if ltb (of_Z vmax) e then of_Z vmax else e) l)
  = map (clip vmin vmax) l.
Proof. rewrite map_map. reflexivity. Qed.

(** What a call of the discretizer does to the store, in terms of the
    contents of its argument. *)
Lemma discretized_sequence_run (h : heap) (x : ref) (a : ndarray)
    (tx : String.string) (f m : Z) (norm : bool) :
  nth_error h x = Some a ->
  discretized_sequence x tx f m norm h =
  match wants_discretization a tx f m norm with
  | Raise e => (Raise e, h)
  | Ok false => (Ok x, h)
  | Ok true =>
      match as_floats a with
      | Raise e => (Raise e, h)
      | Ok x0 => (Ok (length h), h ++ [box (discretize x0 f m norm)])
      end
  end.
Proof.
  intros Hx. unfold discretized_sequence, bind at 1. rewrite (load_old _ _ _ Hx).
  unfold bind at 1, lift at 1.
  destruct (wants_discretization a tx f m norm) as [[|]|e]; try reflexivity.
  unfold bind at 1, lift at 1.
  destruct (as_floats a) as [x0|e]; [|reflexivity].
  unfold bind at 1, alloc.
  unfold bind at 1. rewrite setitem_where_new.
  unfold bind at 1. rewrite setitem_where_new.
  unfold ret, discretize. now rewrite clip_twice.
Qed.

End Store.

(** ** Computations that only add arrays to the store *)

(** [computes m v h]: run from [h], [m] ends with the outcome [v] and a
    store that extends [h]. *)
Definition computes {A} (m : M A) (v : result A) (h : heap) : Prop :=
  exists ext, m h = (v, h ++ ext).

(** [preserves m]: whatever the store, [m] leaves every array that exists
    before the call as it is, also when it raises. *)
Definition preserves {A} (m : M A) : Prop :=
  forall h, exists ext, snd (m h) = h ++ ext.

Section Computes.

Context {A B : Type}.

Lemma computes_ret (a : A) (h : heap) : computes (ret a) (Ok a) h.
Proof. exists []. unfold ret. now rewrite app_nil_r. Qed.

Lemma computes_lift (r : result A) (h : heap) : computes (lift r) r h.
Proof. exists []. unfold lift. now rewrite app_nil_r. Qed.

Lemma computes_raise (e : exn) (h : heap) : computes (@raise A e) (Raise e) h.
Proof. exists []. unfold raise. now rewrite app_nil_r. Qed.

Lemma computes_bind (m : M A) (k : A -> M B) (v : result A) (kv : A -> result B)
    (h : heap) :
  computes m v h ->
  (forall a ext, v = Ok a -> computes (k a) (kv a) (h ++ ext)) ->
  computes (bind m k) (rbind v kv) h.
Proof.
  intros [ext Hm] Hk. unfold computes, bind. rewrite Hm.
  destruct v as [a|e]; simpl.
  - destruct (Hk a ext eq_refl) as [ext' Hk']. exists (ext ++ ext').
    now rewrite Hk', app_assoc.
  - now exists ext.
Qed.

Lemma computes_preserves (m : M A) (v : result A) (h : heap) :
  computes m v h -> exists ext, snd (m h) = h ++ ext.
Proof. intros [ext H]. exists ext. now rewrite H. Qed.

Lemma preserves_ret (a : A) : preserves (ret a).
Proof. intros h. exists []. simpl. now rewrite app_nil_r. Qed.

Lemma preserves_lift (r : result A) : preserves (lift r).
Proof. intros h. exists []. simpl. now rewrite app_nil_r. Qed.

Lemma preserves_raise (e : exn) : preserves (@raise A e).
Proof. intros h. exists []. simpl. now rewrite app_nil_r. Qed.

Lemma preserves_bind (m : M A) (k : A -> M B) :
  preserves m -> (forall a, preserves (k a)) -> preserves (bind m k).
Proof.
  intros Hm Hk h. unfold bind. destruct (Hm h) as [ext He].
  destruct (m h) as [[a|e] h1]; simpl in He; subst h1.
  - destruct (Hk a (h ++ ext)) as [ext' He']. exists (ext ++ ext').
    now rewrite He', app_assoc.
  - now exists ext.
Qed.

End Computes.

Lemma computes_load (h : heap) (r : ref) (a : ndarray) :
  nth_error h r = Some a -> computes (load r) (Ok a) h.
Proof. intros H. exists []. rewrite (load_old _ _ _ H). now rewrite app_nil_r. Qed.

Lemma preserves_load (r : ref) : preserves (load r).
Proof.
  intros h. exists []. unfold load.
  destruct (nth_error h r); simpl; now rewrite app_nil_r.
Qed.

Lemma preserves_alloc (a : ndarray) : preserves (alloc a).
Proof. intros h. now exists [a]. Qed.

Lemma preserves_for_each {A B} (f : A -> B -> M A) (l : list B) :
  (forall acc b, preserves (f acc b)) -> forall acc, preserves (for_each f acc l).
Proof.
  intros Hf. induction l as [|b l IH]; intros acc; simpl.
  - apply preserves_ret.
  - apply preserves_bind; [apply Hf|]. intros a. apply IH.
Qed.

Lemma computes_for_each {A B} (f : A -> B -> M A) (fv : A -> B -> result A)
    (l : list B) (h : heap) :
  (forall acc b ext, computes (f acc b) (fv acc b) (h ++ ext)) ->
  forall acc ext, computes (for_each f acc l) (for_each_val fv acc l) (h ++ ext).
Proof.
  intros Hf. induction l as [|b l IH]; intros acc ext; simpl.
  - apply computes_ret.
  - apply computes_bind; [apply Hf|].
    intros a ext' _. rewrite <- app_assoc. apply IH.
Qed.

(** ** The discretizer writes into an array of its own *)

Lemma preserves_discretized_sequence (x : ref) (tx : String.string) (f m : Z)
    (norm : bool) :
  preserves (discretized_sequence x tx f m norm).
Proof.
  intros h. destruct (nth_error h x) as [a|] eqn:Hx.
  - rewrite (discretized_sequence_run _ _ _ _ _ _ _ Hx).
    destruct (wants_discretization a tx f m norm) as [[|]|e];
      try (exists []; simpl; now rewrite app_nil_r).
    destruct (as_floats a) as [x0|e]; [now eexists|].
    exists []; simpl; now rewrite app_nil_r.
  - exists []. unfold discretized_sequence, bind, load. rewrite Hx. simpl.
    now rewrite app_nil_r.
Qed.

(** The array the discretizer returns holds the value-level result. *)
Lemma discretized_sequence_refines (h : heap) (x : ref) (a : ndarray)
    (tx : String.string) (f m : Z) (norm : bool) :
  nth_error h x = Some a ->
  exists ext,
    match discretized_sequence_val a tx f m norm with
    | Raise e => discretized_sequence x tx f m norm h = (Raise e, h ++ ext)
    | Ok v => exists r, discretized_sequence x tx f m norm h = (Ok r, h ++ ext)
                        /\ nth_error (h ++ ext) r = Some v
    end.
Proof.
  intros Hx. rewrite (discretized_sequence_run _ _ _ _ _ _ _ Hx).
  unfold discretized_sequence_val.
  destruct (wants_discretization a tx f m norm) as [[|]|e]; simpl.
  - destruct (as_floats a) as [x0|e]; simpl.
    + eexists. eexists. split; [reflexivity|]. apply nth_error_app_new.
    + exists []. now rewrite app_nil_r.
  - exists []. exists x. rewrite app_nil_r. auto.
  - exists []. now rewrite app_nil_r.
Qed.

Lemma discretized_sequence_val_no_norm (x0 : list float) (tx : String.string)
    (f m : Z) :
  discretized_sequence_val (box x0) tx f m false = Ok (box (discretize x0 f m false)).
Proof.
  unfold discretized_sequence_val. simpl. now rewrite as_floats_box.
Qed.

(** ** The score as a function of the contents of its two arguments *)

Section ScoreRuns.

Variable self : CDS.

Lemma conditional_histogram_run (h : heap) (xd y_te : ref) (xdv yv : ndarray)
    (yrange : list pyobj) (py : list float) (a : pyobj) :
  nth_error h xd = Some xdv -> nth_error h y_te = Some yv ->
  computes (conditional_histogram self xd y_te yrange py a)
           (conditional_histogram_val self xdv yv yrange py a) h.
Proof.
  intros Hxd Hy. unfold conditional_histogram, conditional_histogram_val, computes.
  unfold bind at 1. rewrite (load_old _ _ _ Hxd).
  unfold bind at 1. rewrite (load_old _ _ _ Hy).
  unfold bind at 1, lift at 1.
  destruct (getitem_mask yv _) as [yx|e]; simpl;
    [|exists []; now rewrite app_nil_r].
  unfold bind at 1, lift at 1.
  destruct (continuous self yv) as [[|]|e]; simpl;
    try (exists []; now rewrite app_nil_r).
  - unfold bind at 1, lift at 1.
    destruct (as_floats yx) as [yx0|e]; simpl;
      [|exists []; now rewrite app_nil_r].
    unfold bind at 1, lift at 1.
    destruct (as_floats yv) as [y0|e]; simpl;
      [|exists []; now rewrite app_nil_r].
    unfold bind at 1, alloc.
    rewrite discretized_sequence_val_no_norm. simpl rbind.
    set (yx1 := map _ yx0).
    unfold bind at 1.
    rewrite (discretized_sequence_run (h ++ [box yx1]) (length h) (box yx1))
      by apply nth_error_app_new.
    change (wants_discretization (box yx1) NUMERICAL (ffactor self) (maxdev self) false)
      with (@Ok bool true).
    rewrite as_floats_box.
    unfold bind at 1, load at 1. rewrite nth_error_app_new.
    unfold bind at 1, lift at 1. rewrite as_floats_box. simpl rbind.
    unfold bind at 1, lift at 1.
    destruct (Counter _) as [cyx|e]; simpl;
      [|rewrite <- app_assoc; now eexists].
    unfold bind at 1.
    rewrite (load_old _ y_te yv)
      by (rewrite <- app_assoc; now apply nth_error_app_old).
    unfold bind at 1, lift at 1.
    destruct (discretized_values yv _ _ _) as [dv|e]; simpl.
    + unfold ret. rewrite <- app_assoc. now eexists.
    + rewrite <- app_assoc. now eexists.
  - unfold bind at 1, lift at 1.
    destruct (Counter yx) as [cyx|e]; simpl.
    + unfold lift. exists []. now rewrite app_nil_r.
    + exists []. now rewrite app_nil_r.
Qed.

Lemma cds_loop_body_run (h : heap) (xd y_te : ref) (xdv yv : ndarray)
    (yrange : list pyobj) (py : list float) (pyx : list (list float))
    (item : pyobj * Z) :
  nth_error h xd = Some xdv -> nth_error h y_te = Some yv ->
  computes (cds_loop_body self xd y_te yrange py pyx item)
           (cds_loop_body_val self xdv yv yrange py pyx item) h.
Proof.
  intros Hxd Hy. destruct item as [a n].
  unfold cds_loop_body, cds_loop_body_val.
  destruct (minc self <? n); [|apply computes_ret].
  apply computes_bind.
  - now apply conditional_histogram_run.
  - intros pyxa ext _. destruct (eqb _ _).
    + apply computes_ret.
    + apply computes_raise.
Qed.

Lemma cds_score_run (h : heap) (x y : ref) (xv yv : ndarray) :
  nth_error h x = Some xv -> nth_error h y = Some yv ->
  computes (cds_score self x y) (cds_score_val self xv yv) h.
Proof.
  intros Hx Hy. unfold cds_score, cds_score_val, discretized_sequences, computes.
  destruct (discretized_sequence_refines h x xv NUMERICAL (ffactor self)
              (maxdev self) true Hx) as [e1 H1].
  unfold bind at 1. unfold bind at 1.
  destruct (discretized_sequence_val xv _ _ _ _) as [xdv|e]; simpl rbind;
    [|rewrite H1; now eexists].
  destruct H1 as [xd [H1 Hxd]]. rewrite H1.
  assert (Hy1 : nth_error (h ++ e1) y = Some yv) by now apply nth_error_app_old.
  destruct (discretized_sequence_refines (h ++ e1) y yv NUMERICAL (ffactor self)
              (maxdev self) true Hy1) as [e2 H2].
  unfold bind at 1.
  destruct (discretized_sequence_val yv _ _ _ _) as [ydv|e]; simpl rbind;
    [|rewrite H2, <- app_assoc; now eexists].
  destruct H2 as [yd [H2 Hyd]]. rewrite H2. unfold ret at 1.
  assert (Hxd2 : nth_error ((h ++ e1) ++ e2) xd = Some xdv)
    by now apply nth_error_app_old.
  assert (Hy2 : nth_error ((h ++ e1) ++ e2) y = Some yv)
    by now apply nth_error_app_old.
  unfold bind at 1. rewrite (load_old _ _ _ Hxd2).
  unfold bind at 1, lift at 1.
  destruct (Counter xdv) as [cx|e]; simpl rbind;
    [|rewrite <- app_assoc; now eexists].
  unfold bind at 1. rewrite (load_old _ _ _ Hyd).
  unfold bind at 1, lift at 1.
  destruct (Counter ydv) as [cy|e]; simpl rbind;
    [|rewrite <- app_assoc; now eexists].
  set (yrange := sorted (keys cy)). set (py := marginal cy yrange).
  assert (Hloop := computes_for_each
            (cds_loop_body self xd y yrange py)
            (cds_loop_body_val self xdv yv yrange py) cx ((h ++ e1) ++ e2)).
  destruct (Hloop (fun acc b ext =>
              cds_loop_body_run _ xd y xdv yv yrange py acc b
                (nth_error_app_old _ ext _ _ Hxd2)
                (nth_error_app_old _ ext _ _ Hy2)) [] []) as [e3 H3].
  rewrite app_nil_r in H3. unfold bind at 1. rewrite H3.
  destruct (for_each_val _ _ _) as [pyx|e]; simpl rbind.
  - exists (e1 ++ e2 ++ e3). rewrite !app_assoc.
    destruct (Z.of_nat (length pyx) =? 0); reflexivity.
  - exists (e1 ++ e2 ++ e3). now rewrite !app_assoc.
Qed.

Lemma predict_proba_run (h : heap) (a b : ref) (av bv : ndarray) :
  nth_error h a = Some av -> nth_error h b = Some bv ->
  computes (predict_proba self a b) (predict_proba_val self av bv) h.
Proof.
  intros Ha Hb. unfold predict_proba, predict_proba_val.
  apply computes_bind; [now apply cds_score_run|].
  intros u ext _. apply computes_bind.
  - apply cds_score_run; now apply nth_error_app_old.
  - intros v ext' _. apply computes_ret.
Qed.

(** The same without any assumption on the references. *)

Lemma preserves_conditional_histogram (xd y_te : ref) (yrange : list pyobj)
    (py : list float) (a : pyobj) :
  preserves (conditional_histogram self xd y_te yrange py a).
Proof.
  unfold conditional_histogram.
  apply preserves_bind; [apply preserves_load|]; intros xdv.
  apply preserves_bind; [apply preserves_load|]; intros yv.
  apply preserves_bind; [apply preserves_lift|]; intros yx.
  apply preserves_bind; [apply preserves_lift|]; intros [|].
  - apply preserves_bind; [apply preserves_lift|]; intros yx0.
    apply preserves_bind; [apply preserves_lift|]; intros y0.
    apply preserves_bind; [apply preserves_alloc|]; intros yx1.
    apply preserves_bind; [apply preserves_discretized_sequence|]; intros yx2.
    apply preserves_bind; [apply preserves_load|]; intros yx3.
    apply preserves_bind; [apply preserves_lift|]; intros yx4.
    apply preserves_bind; [apply preserves_lift|]; intros cyx.
    apply preserves_bind; [apply preserves_load|]; intros yv'.
    apply preserves_bind; [apply preserves_lift|]; intros dv.
    apply preserves_ret.
  - apply preserves_bind; [apply preserves_lift|]; intros cyx.
    apply preserves_lift.
Qed.

Lemma preserves_cds_loop_body (xd y_te : ref) (yrange : list pyobj)
    (py : list float) (pyx : list (list float)) (item : pyobj * Z) :
  preserves (cds_loop_body self xd y_te yrange py pyx item).
Proof.
  destruct item as [a n]. unfold cds_loop_body.
  destruct (minc self <? n); [|apply preserves_ret].
  apply preserves_bind; [apply preserves_conditional_histogram|]; intros pyxa.
  destruct (eqb _ _); [apply preserves_ret|apply preserves_raise].
Qed.

Lemma preserves_cds_score (x y : ref) : preserves (cds_score self x y).
Proof.
  unfold cds_score, discretized_sequences.
  apply preserves_bind.
  - apply preserves_bind; [apply preserves_discretized_sequence|]; intros xd.
    apply preserves_bind; [apply preserves_discretized_sequence|]; intros yd.
    apply preserves_ret.
  - intros [xd yd].
    apply preserves_bind; [apply preserves_load|]; intros xdv.
    apply preserves_bind; [apply preserves_lift|]; intros cx.
    apply preserves_bind; [apply preserves_load|]; intros ydv.
    apply preserves_bind; [apply preserves_lift|]; intros cy.
    apply preserves_bind.
    + apply preserves_for_each. intros acc b. apply preserves_cds_loop_body.
    + intros pyx. destruct (_ =? _); apply preserves_ret.
Qed.

Lemma preserves_predict_proba (a b : ref) : preserves (predict_proba self a b).
Proof.
  unfold predict_proba.
  apply preserves_bind; [apply preserves_cds_score|]; intros u.
  apply preserves_bind; [apply preserves_cds_score|]; intros v.
  apply preserves_ret.
Qed.

End ScoreRuns.

(** * Hashing: which sequences can be counted *)

Section Hashing.

Lemma unhashable_In (x : ndarray) :
  forallb py_hashable x = false <-> In PyUnhashable x.
Proof.
  induction x as [|o x IH]; simpl.
  - split; [discriminate|tauto].
  - destruct o; simpl; rewrite ?IH; intuition (try discriminate; auto).
Qed.

Lemma set_update_unhashable (x : ndarray) (s : list pyobj) :
  In PyUnhashable x -> set_update s x = Raise TypeError.
Proof.
  revert s. induction x as [|o x IH]; intros s; simpl; [tauto|].
  intros [->|H]; [reflexivity|].
  destruct (py_hashable o); [now apply IH|reflexivity].
Qed.

Lemma set_update_hashable (x : ndarray) (s : list pyobj) :
  forallb py_hashable x = true -> exists s', set_update s x = Ok s'.
Proof.
  revert s. induction x as [|o x IH]; intros s; simpl; [now eexists|].
  intros H. apply andb_true_iff in H as [-> H]. now apply IH.
Qed.

Lemma counter_update_hashable (x : ndarray) (c : counter) :
  forallb py_hashable x = true -> exists c', counter_update c x = Ok c'.
Proof.
  revert c. induction x as [|o x IH]; intros c; simpl; [now eexists|].
  intros H. apply andb_true_iff in H as [-> H]. now apply IH.
Qed.

Lemma as_floats_hashable (x : ndarray) :
  forallb py_hashable x = true -> exists fs, as_floats x = Ok fs.
Proof.
  induction x as [|o x IH]; simpl; [now eexists|].
  intros H. apply andb_true_iff in H as [Ho H].
  destruct (IH H) as [fs ->]. destruct o; try discriminate; simpl; now eexists.
Qed.

Lemma hashable_box (fs : list float) : forallb py_hashable (box fs) = true.
Proof. induction fs; simpl; auto. Qed.

Lemma count_unique_unhashable (x : ndarray) :
  In PyUnhashable x -> count_unique x = Raise TypeError.
Proof.
  intros H. unfold count_unique, py_set. now rewrite set_update_unhashable.
Qed.

Lemma count_unique_hashable (x : ndarray) :
  forallb py_hashable x = true -> exists n, count_unique x = Ok n.
Proof.
  intros H. unfold count_unique, py_set.
  destruct (set_update_hashable x [] H) as [s ->]. now eexists.
Qed.

Lemma discretized_values_hashable (x : ndarray) (tx : String.string) (f m : Z) :
  forallb py_hashable x = true -> exists v, discretized_values x tx f m = Ok v.
Proof.
  intros H. unfold discretized_values.
  destruct (count_unique_hashable x H) as [n Hn]. rewrite Hn.
  unfold py_set. destruct (set_update_hashable x [] H) as [s ->].
  destruct (numerical tx); simpl; [destruct (_ <? _)|]; now eexists.
Qed.

Lemma len_discretized_values_hashable (x : ndarray) (tx : String.string) (f m : Z) :
  forallb py_hashable x = true -> exists l, len_discretized_values x tx f m = Ok l.
Proof.
  intros H. unfold len_discretized_values.
  destruct (discretized_values_hashable x tx f m H) as [v ->]. now eexists.
Qed.

Lemma wants_discretization_hashable (x : ndarray) (tx : String.string) (f m : Z)
    (norm : bool) :
  forallb py_hashable x = true ->
  exists c, wants_discretization x tx f m norm = Ok c.
Proof.
  intros H. unfold wants_discretization.
  destruct (count_unique_hashable x H) as [n ->].
  destruct (len_discretized_values_hashable x tx f m H) as [l ->].
  destruct norm, (numerical tx); simpl; now eexists.
Qed.

(** On a sequence of hashable elements the discretizer does not raise, and
    its result has as many elements, all hashable. *)
Lemma discretized_sequence_val_hashable (x : ndarray) (tx : String.string)
    (f m : Z) (norm : bool) :
  forallb py_hashable x = true ->
  exists v, discretized_sequence_val x tx f m norm = Ok v
            /\ length v = length x /\ forallb py_hashable v = true.
Proof.
  intros H. unfold discretized_sequence_val.
  destruct (wants_discretization_hashable x tx f m norm H) as [c ->]. simpl.
  destruct c; [|now exists x].
  destruct (as_floats_hashable x H) as [fs Hfs]. rewrite Hfs. simpl.
  eexists. split; [reflexivity|]. split; [|apply hashable_box].
  unfold box, discretize, np_round. rewrite !length_map.
  assert (L : length fs = length x).
  { clear H. revert fs Hfs. induction x as [|o x IH]; simpl; intros fs.
    - now intros [= <-].
    - destruct (as_float o); simpl; [|discriminate].
      destruct (as_floats x) as [fs'|]; simpl; [|discriminate].
      intros [= <-]. simpl. now rewrite (IH fs' eq_refl). }
  destruct norm; [|exact L].
  unfold restandardize, standardize. now rewrite !length_map.
Qed.

Lemma discretized_sequence_val_unhashable (x : ndarray) (f m : Z) :
  In PyUnhashable x ->
  discretized_sequence_val x NUMERICAL f m true = Raise TypeError.
Proof.
  intros H. unfold discretized_sequence_val, wants_discretization. simpl.
  now rewrite count_unique_unhashable.
Qed.

End Hashing.

Section UnsupportedValues.

Variable self : CDS.

Lemma cds_score_val_unhashable (xv yv : ndarray) :
  In PyUnhashable xv \/ In PyUnhashable yv ->
  cds_score_val self xv yv = Raise TypeError.
Proof.
  intros H. unfold cds_score_val.
  destruct (forallb py_hashable xv) eqn:Hx.
  - destruct H as [H|H]; [apply unhashable_In in H; congruence|].
    destruct (discretized_sequence_val_hashable xv NUMERICAL (ffactor self)
                (maxdev self) true Hx) as [v [-> _]]. simpl.
    now rewrite discretized_sequence_val_unhashable.
  - apply unhashable_In in Hx. now rewrite discretized_sequence_val_unhashable.
Qed.

(** C8.  A sequence that holds an element that cannot be hashed is not
    counted: [count_unique] raises the [TypeError] of the hashing again,
    and with it the discretizer, the one-directional score and the
    comparator, whichever of their two arguments holds the element.  No
    value is substituted for the element. *)
Theorem C8_unhashable_element_raises (x y : ref) (xv yv : ndarray) (h : heap) :
  nth_error h x = Some xv -> nth_error h y = Some yv ->
  In PyUnhashable xv \/ In PyUnhashable yv ->
  (In PyUnhashable xv -> count_unique xv = Raise TypeError) /\
  (In PyUnhashable yv -> count_unique yv = Raise TypeError) /\
  fst (cds_score self x y h) = Raise TypeError /\
  fst (cds_score self y x h) = Raise TypeError /\
  fst (predict_proba self x y h) = Raise TypeError.
Proof.
  intros Hx Hy H.
  split; [apply count_unique_unhashable|].
  split; [apply count_unique_unhashable|].
  split; [|split].
  - destruct (cds_score_run self h x y xv yv Hx Hy) as [ext ->]. simpl.
    now apply cds_score_val_unhashable.
  - destruct (cds_score_run self h y x yv xv Hy Hx) as [ext ->]. simpl.
    apply cds_score_val_unhashable. tauto.
  - destruct (predict_proba_run self h x y xv yv Hx Hy) as [ext ->]. simpl.
    unfold predict_proba_val. rewrite cds_score_val_unhashable by tauto.
    reflexivity.
Qed.

End UnsupportedValues.

(** An object array with a list in it, and an array of numbers. *)
Definition heap_with_unhashable : heap :=
  [[PyFloat (of_Z 1); PyUnhashable]; [PyFloat (of_Z 1); PyFloat (of_Z 2)]].

Lemma C8_witness :
  fst (predict_proba CDS_default 0%nat 1%nat heap_with_unhashable) = Raise TypeError.
Proof.
  refine (proj2 (proj2 (proj2 (proj2
    (C8_unhashable_element_raises CDS_default 0%nat 1%nat
       [PyFloat (of_Z 1); PyUnhashable] [PyFloat (of_Z 1); PyFloat (of_Z 2)]
       heap_with_unhashable eq_refl eq_refl _))))).
  left. simpl. auto.
Defined.

(** * The inputs are left as they are *)

Lemma preserves_firstn {A} (m : M A) (h : heap) :
  preserves m -> firstn (length h) (snd (m h)) = h.
Proof.
  intros H. destruct (H h) as [ext ->].
  rewrite firstn_app, Nat.sub_diag, firstn_all. simpl. now rewrite app_nil_r.
Qed.

(** C10.  Whatever the store [h] and the references, the store after a
    call of the discretizer, of [cds_score] or of [predict_proba] begins
    with [h] itself: every array that existed before the call, the two
    arguments among them, holds the elements it held, also when the call
    raises.  The clipped values are written into an array made by the call. *)
Theorem C10_inputs_not_mutated (self : CDS) (a b : ref) (h : heap) :
  firstn (length h) (snd (predict_proba self a b h)) = h /\
  firstn (length h) (snd (cds_score self a b h)) = h /\
  (forall tx f m norm,
     firstn (length h) (snd (discretized_sequence a tx f m norm h)) = h).
Proof.
  split; [|split].
  - apply preserves_firstn, preserves_predict_proba.
  - apply preserves_firstn, preserves_cds_score.
  - intros. apply preserves_firstn, preserves_discretized_sequence.
Qed.

(** * Counters *)

(** The number of elements counted. *)
Definition counter_total (c : counter) : Z := fold_right (fun kv t => snd kv + t) 0 c.

Section Counters.

Lemma counter_incr_total (c : counter) (o : pyobj) :
  counter_total (counter_incr c o) = counter_total c + 1.
Proof.
  induction c as [|[k n] c IH]; simpl; [reflexivity|].
  destruct (py_eq k o); simpl; [lia|]. rewrite IH. lia.
Qed.

Lemma counter_incr_positive (c : counter) (o : pyobj) :
  Forall (fun kv => 1 <= snd kv) c ->
  Forall (fun kv => 1 <= snd kv) (counter_incr c o).
Proof.
  induction c as [|[k n] c IH]; simpl; intros H.
  - constructor; [simpl; lia|constructor].
  - inversion H as [|? ? Hn Hc]; subst. simpl in Hn.
    destruct (py_eq k o); constructor; simpl; auto; lia.
Qed.

Lemma counter_update_total (x : ndarray) (c c' : counter) :
  counter_update c x = Ok c' ->
  counter_total c' = counter_total c + Z.of_nat (length x).
Proof.
  revert c. induction x as [|o x IH]; intros c; simpl.
  - intros [= <-]. lia.
  - destruct (py_hashable o); [|discriminate].
    intros H. rewrite (IH _ H), counter_incr_total. lia.
Qed.

Lemma counter_update_positive (x : ndarray) (c c' : counter) :
  counter_update c x = Ok c' ->
  Forall (fun kv => 1 <= snd kv) c -> Forall (fun kv => 1 <= snd kv) c'.
Proof.
  revert c. induction x as [|o x IH]; intros c; simpl.
  - now intros [= <-].
  - destruct (py_hashable o); [|discriminate].
    intros H Hc. apply (IH _ H). now apply counter_incr_positive.
Qed.

Lemma counter_item_le_total (c : counter) :
  Forall (fun kv => 1 <= snd kv) c ->
  Forall (fun kv => snd kv <= counter_total c) c.
Proof.
  induction c as [|[k n] c IH]; intros H; [constructor|].
  inversion H as [|? ? Hn Hc]; subst. simpl in *.
  assert (0 <= counter_total c).
  { clear - Hc. induction Hc as [|[k' n'] c' Hn' Hc' IH']; simpl in *; lia. }
  constructor; [simpl; lia|].
  eapply Forall_impl; [|exact (IH Hc)]. simpl. intros; lia.
Qed.

(** No count of a [Counter] exceeds the length of the sequence counted,
    and every count is at least one. *)
Lemma Counter_counts (x : ndarray) (c : counter) :
  Counter x = Ok c ->
  Forall (fun kv => 1 <= snd kv <= Z.of_nat (length x)) c.
Proof.
  intros H. unfold Counter in H.
  pose proof (counter_update_total _ _ _ H) as T. simpl in T.
  pose proof (counter_update_positive _ _ _ H (Forall_nil _)) as P.
  pose proof (counter_item_le_total _ P) as L.
  rewrite Forall_forall in *. intros kv Hkv.
  specialize (P kv Hkv). specialize (L kv Hkv). lia.
Qed.

End Counters.

(** * The degenerate threshold *)

Section DegenerateThreshold.

Variable self : CDS.

Lemma for_each_val_none_qualifies (xdv yv : ndarray) (yrange : list pyobj)
    (py : list float) (cx : counter) (acc : list (list float)) :
  Forall (fun item => snd item <= minc self) cx ->
  for_each_val (cds_loop_body_val self xdv yv yrange py) acc cx = Ok acc.
Proof.
  induction 1 as [|[a n] cx Hn Hcx IH]; simpl; [reflexivity|].
  simpl in Hn. replace (minc self <? n) with false; [exact IH|].
  symmetry. apply Z.ltb_ge. exact Hn.
Qed.

(** C4.  When [minc] is at least the number of samples, no count of the
    cause-bins exceeds it, the loop of [cds_score] appends no conditional
    distribution, no exception is raised, and the score returned is
    exactly 0. *)
Theorem C4_degenerate_threshold (x y : ref) (xs ys : list float) (h : heap) :
  nth_error h x = Some (box xs) -> nth_error h y = Some (box ys) ->
  Z.of_nat (length xs) <= minc self ->
  (exists xdv cx,
     discretized_sequence_val (box xs) NUMERICAL (ffactor self) (maxdev self) true
       = Ok xdv /\
     Counter xdv = Ok cx /\
     Forall (fun item => (minc self <? snd item) = false) cx /\
     forall yrange py,
       for_each_val (cds_loop_body_val self xdv (box ys) yrange py) [] cx = Ok []) /\
  fst (cds_score self x y h) = Ok (of_Z 0).
Proof.
  intros Hx Hy HN.
  destruct (discretized_sequence_val_hashable (box xs) NUMERICAL (ffactor self)
              (maxdev self) true (hashable_box xs)) as [xdv [Hxd [Lx Hhx]]].
  destruct (discretized_sequence_val_hashable (box ys) NUMERICAL (ffactor self)
              (maxdev self) true (hashable_box ys)) as [ydv [Hyd [Ly Hhy]]].
  destruct (counter_update_hashable xdv [] Hhx) as [cx Hcx].
  destruct (counter_update_hashable ydv [] Hhy) as [cy Hcy].
  assert (Hq : Forall (fun item => snd item <= minc self) cx).
  { eapply Forall_impl; [|exact (Counter_counts _ _ Hcx)].
    simpl. intros kv Hkv. unfold box in Lx. rewrite length_map in Lx. lia. }
  split.
  - exists xdv, cx. split; [exact Hxd|]. split; [exact Hcx|]. split.
    + eapply Forall_impl; [|exact Hq]. simpl. intros kv Hkv.
      apply Z.ltb_ge. exact Hkv.
    + intros. now apply for_each_val_none_qualifies.
  - destruct (cds_score_run self h x y _ _ Hx Hy) as [ext ->]. simpl.
    unfold cds_score_val. rewrite Hxd, Hyd. simpl.
    fold (Counter xdv). fold (Counter ydv).
    unfold Counter. rewrite Hcx, Hcy. simpl.
    now rewrite for_each_val_none_qualifies.
Qed.

End DegenerateThreshold.

(** Twenty distinct samples and the default threshold 12 raised to 20. *)
Definition ramp (n : nat) : list float := map (fun i => of_Z (Z.of_nat i)) (seq 1 n).

Lemma C4_witness :
  fst (cds_score {| ffactor := 2; maxdev := 3; minc := 20 |} 0%nat 1%nat
         [box (ramp 20); box (map (fun e => mul e e) (ramp 20))])
  = Ok (of_Z 0).
Proof.
  refine (proj2 (C4_degenerate_threshold {| ffactor := 2; maxdev := 3; minc := 20 |}
            0%nat 1%nat (ramp 20) (map (fun e => mul e e) (ramp 20))
            [box (ramp 20); box (map (fun e => mul e e) (ramp 20))]
            eq_refl eq_refl _)).
  simpl. lia.
Defined.

(** * The alignment of a conditional histogram *)

Section Lists.

Context {A : Type}.

Lemma length_py_repeat (v : A) (n : Z) : length (py_repeat v n) = Z.to_nat n.
Proof. apply repeat_length. Qed.

Lemma length_slice (l : list A) (i n : Z) :
  0 <= i -> 0 <= n -> i + n <= Z.of_nat (length l) ->
  length (slice l i (i + n)) = Z.to_nat n.
Proof.
  intros Hi Hn H. unfold slice. rewrite length_firstn, length_skipn.
  replace (i + n - i) with n by lia. lia.
Qed.

End Lists.

Lemma length_py_range (a b : Z) : length (py_range a b) = Z.to_nat (b - a).
Proof. unfold py_range. now rewrite length_map, length_seq. Qed.

Lemma nth_map_py_range {B} (f : Z -> B) (n : Z) (k : nat) (d : B) :
  (k < Z.to_nat n)%nat ->
  nth k (map f (py_range 0 n)) d = f (Z.of_nat k).
Proof.
  intros H. unfold py_range. rewrite map_map.
  rewrite (nth_indep _ d (f (0 + Z.of_nat 0)))
    by (rewrite length_map, length_seq; lia).
  rewrite (map_nth (fun i => f (0 + Z.of_nat i)) (seq 0 (Z.to_nat (n - 0))) 0%nat).
  rewrite seq_nth by lia. reflexivity.
Qed.

Section Maximum.

Import F64Facts.

Lemma ltb_irrefl (a : float) : ltb a a = false.
Proof.
  destruct (ltb a a) eqn:E; [|reflexivity].
  exfalso. apply (ltb_leb_false _ _ E).
  apply leb_refl. now apply ltb_not_nan in E.
Qed.

Lemma leb_ltb_trans (a b c : float) :
  leb a b = true -> ltb b c = true -> ltb a c = true.
Proof.
  unfold leb, ltb, SFleb, SFltb.
  destruct a as [sa|sa| |sa ma ea], b as [sb|sb| |sb mb eb], c as [sc|sc| |sc mc ec];
    simpl; try discriminate; split_signs; simpl; try discriminate; try reflexivity.
  all: change (Pos.compare_cont Eq) with Pos.compare.
  all: destruct (Z.compare_spec ea eb), (Z.compare_spec eb ec), (Z.compare_spec ea ec);
       try discriminate; try reflexivity; try lia.
  all: subst; destruct (Pos.compare_spec ma mb), (Pos.compare_spec mb mc),
         (Pos.compare_spec ma mc);
       simpl; try discriminate; try reflexivity; try lia.
Qed.

Definition max_step (m e : float) : float := if ltb m e then e else m.

Lemma fold_max_nan (r : list float) : fold_left max_step r S754_nan = S754_nan.
Proof. induction r as [|e r IH]; simpl; auto. Qed.

Lemma fold_max_spec (r : list float) (x : float) :
  let m := fold_left max_step r x in
  (m = x \/ In m r) /\ ltb m x = false /\ (forall e, In e r -> ltb m e = false).
Proof.
  revert x. induction r as [|e r IH]; intros x; simpl.
  - split; [now left|]. split; [apply ltb_irrefl|tauto].
  - destruct (IH (max_step x e)) as [Hin [Hx He]].
    set (m := fold_left max_step r (max_step x e)) in *.
    unfold max_step in Hin, Hx. destruct (ltb x e) eqn:Exe.
    + split; [destruct Hin; auto|]. split.
      * destruct (ltb m x) eqn:Emx; [|reflexivity].
        rewrite (ltb_trans _ _ _ Emx Exe) in Hx. discriminate.
      * intros e' [<-|H']; auto.
    + split; [destruct Hin; auto|]. split; [exact Hx|].
      intros e' [E|H']; [subst e'|auto].
      destruct (ltb m e) eqn:Eme; [|reflexivity]. exfalso.
      destruct (is_nan x) eqn:Nx.
      * destruct x; try discriminate. unfold m in Eme.
        change (max_step S754_nan e) with S754_nan in Eme.
        rewrite fold_max_nan in Eme. discriminate.
      * apply ltb_not_nan in Eme as Hn. destruct Hn as [Nm _].
        assert (L : leb x m = true) by now apply not_ltb_leb.
        rewrite (leb_ltb_trans _ _ _ L Eme) in Exe. discriminate.
Qed.

(** [max] returns an item of the list, and no item is greater. *)
Lemma py_max_spec (l : list float) :
  l <> [] ->
  exists m, py_max l = Ok m /\ In m l /\ forall e, In e l -> ltb m e = false.
Proof.
  destruct l as [|x r]; [congruence|]. intros _. simpl.
  pose proof (fold_max_spec r x) as H. cbv zeta in H.
  destruct H as [Hin [Hx He]].
  exists (fold_left max_step r x). split; [reflexivity|]. split.
  - destruct Hin as [->|H]; [now left|now right].
  - intros e [<-|H]; [exact Hx|now apply He].
Qed.

Lemma is_or_eq_refl (m : float) : is_or_eq m m = true.
Proof.
  unfold is_or_eq. destruct (is_nan m) eqn:N.
  - now rewrite orb_true_r.
  - now rewrite eqb_refl.
Qed.

(** [index] returns the position of the first item that is the value or
    equal to it. *)
Lemma py_index_spec (l : list float) (v : float) :
  (exists e, In e l /\ is_or_eq e v = true) ->
  exists i, py_index l v = Ok i /\ 0 <= i < Z.of_nat (length l) /\
            is_or_eq (nth (Z.to_nat i) l S754_nan) v = true /\
            forall j, 0 <= j < i -> is_or_eq (nth (Z.to_nat j) l S754_nan) v = false.
Proof.
  induction l as [|e l IH]; intros [e' [Hin He']]; [destruct Hin|].
  simpl py_index. destruct (is_or_eq e v) eqn:E.
  - exists 0. split; [reflexivity|]. split; [simpl length; lia|].
    split; [exact E|]. intros j Hj. lia.
  - destruct IH as [i [Hi [Hr [Hv Hf]]]].
    { destruct Hin as [<-|Hin]; [congruence|]. now exists e'. }
    rewrite Hi. exists (i + 1). split; [reflexivity|].
    split; [simpl length; lia|]. split.
    + replace (Z.to_nat (i + 1)) with (S (Z.to_nat i)) by lia. exact Hv.
    + intros j Hj. destruct (Z.eq_dec j 0) as [->|Hj0]; [exact E|].
      replace (Z.to_nat j) with (S (Z.to_nat (j - 1))) by lia.
      apply Hf. lia.
Qed.

End Maximum.

Section Alignment.

Variable py : list float.
Variable pyxa : list Z.
Variable ny : Z.
Hypothesis ny_length : ny = Z.of_nat (length pyxa).
Hypothesis ny_positive : 1 <= ny.

Lemma pad_length : Z.of_nat (length (pad ny pyxa)) = 3 * ny - 2.
Proof.
  unfold pad. rewrite length_map, !length_app, !length_py_repeat. lia.
Qed.

Lemma repad_length (imax : Z) :
  0 <= imax <= 2 * ny - 2 ->
  Z.of_nat (length (repad ny imax pyxa)) = 3 * ny - 2.
Proof.
  intros H. unfold repad. rewrite length_map, !length_app, !length_py_repeat. lia.
Qed.

Lemma cross_correlation_length :
  Z.of_nat (length (cross_correlation py ny (pad ny pyxa))) = 2 * ny - 1.
Proof.
  unfold cross_correlation. rewrite length_map, length_py_range. lia.
Qed.

Lemma cross_correlation_nth (i : Z) :
  0 <= i < 2 * ny - 1 ->
  nth (Z.to_nat i) (cross_correlation py ny (pad ny pyxa)) S754_nan
  = py_sum (zip_with mul py (slice (pad ny pyxa) i (i + ny)))
  /\ Z.of_nat (length (slice (pad ny pyxa) i (i + ny))) = ny.
Proof.
  intros H. split.
  - unfold cross_correlation. rewrite nth_map_py_range by lia.
    now rewrite Z2Nat.id by lia.
  - rewrite length_slice; try lia. rewrite pad_length. lia.
Qed.

(** C2, as the program has it.  For a raw conditional histogram [pyxa] of
    [ny >= 1] bins: the padded array is the histogram between [ny-1] zeros
    on each side and has [3*ny-2] entries; there are [2*ny-1] offsets, and
    the score at offset [i] is the sum of the products of the marginal
    with the [ny] entries of the padded array from [i] on; the offset
    selected is the first one whose score is the maximum, no score being
    greater; and the histogram padded again at that offset, the aligned
    histogram, has [3*ny-2] entries. *)
Theorem C2_alignment_lengths_and_first_maximum :
  let pyxax := pad ny pyxa in
  let xcorr := cross_correlation py ny pyxax in
  pyxax = map of_Z (repeat 0 (Z.to_nat (ny - 1)) ++ pyxa ++ repeat 0 (Z.to_nat (ny - 1))) /\
  Z.of_nat (length pyxax) = 3 * ny - 2 /\
  Z.of_nat (length xcorr) = 2 * ny - 1 /\
  (forall i, 0 <= i < 2 * ny - 1 ->
     nth (Z.to_nat i) xcorr S754_nan
       = py_sum (zip_with mul py (slice pyxax i (i + ny))) /\
     Z.of_nat (length (slice pyxax i (i + ny))) = ny) /\
  exists m imax,
    py_max xcorr = Ok m /\
    (forall e, In e xcorr -> ltb m e = false) /\
    best_offset xcorr = Ok imax /\
    0 <= imax < 2 * ny - 1 /\
    is_or_eq (nth (Z.to_nat imax) xcorr S754_nan) m = true /\
    (forall j, 0 <= j < imax -> is_or_eq (nth (Z.to_nat j) xcorr S754_nan) m = false) /\
    align py ny pyxa = Ok (repad ny imax pyxa) /\
    Z.of_nat (length (repad ny imax pyxa)) = 3 * ny - 2.
Proof.
  intros pyxax xcorr.
  split; [reflexivity|]. split; [apply pad_length|].
  split; [apply cross_correlation_length|].
  split; [apply cross_correlation_nth|].
  assert (Hne : xcorr <> []).
  { intros E.
    assert (L : Z.of_nat (length xcorr) = 2 * ny - 1)
      by apply cross_correlation_length.
    rewrite E in L. change (Z.of_nat (length (@nil float))) with 0 in L. lia. }
  destruct (py_max_spec xcorr Hne) as [m [Hm [Hin Hmax]]].
  destruct (py_index_spec xcorr m) as [imax [Hi [Hr [Hv Hf]]]].
  { exists m. split; [exact Hin|apply is_or_eq_refl]. }
  assert (L : Z.of_nat (length xcorr) = 2 * ny - 1)
    by apply cross_correlation_length.
  exists m, imax. split; [exact Hm|]. split; [exact Hmax|].
  assert (Hb : best_offset xcorr = Ok imax).
  { unfold best_offset. rewrite Hm. exact Hi. }
  split; [exact Hb|]. split; [lia|]. split; [exact Hv|]. split; [exact Hf|].
  split.
  - unfold align. fold pyxax xcorr. now rewrite Hb.
  - apply repad_length. lia.
Qed.

End Alignment.

(** A histogram of two bins, and a marginal over two bins. *)
Definition two_bins : list Z := [3; 5].
Definition half_half : list float := [div (of_Z 1) (of_Z 2); div (of_Z 1) (of_Z 2)].

Lemma C2_witness :
  Z.of_nat (length (pad 2 two_bins)) = 4 /\
  align half_half 2 two_bins = Ok (map of_Z [0; 3; 5; 0]).
Proof.
  pose proof (C2_alignment_lengths_and_first_maximum half_half two_bins 2
                eq_refl ltac:(lia)) as H.
  cbv zeta in H. destruct H as [_ [H1 _]].
  split; [exact H1|]. vm_compute. reflexivity.
Defined.

(** For two bins the padded array has four entries, not [2*2-1 = 3], and
    the aligned histogram has four entries, not two. *)
Lemma C2_counterexample :
  ~ (Z.of_nat (length (pad 2 two_bins)) = 2 * 2 - 1) /\
  ~ (forall out, align half_half 2 two_bins = Ok out -> Z.of_nat (length out) = 2).
Proof.
  split.
  - vm_compute. discriminate.
  - intros H. specialize (H _ eq_refl). vm_compute in H. discriminate.
Qed.

(** * The discretizer *)

Section Clipping.

Import F64Facts.

(** [x] is a number between [lo] and [hi]. *)
Definition between (lo hi : Z) (x : float) : Prop :=
  leb (of_Z lo) x = true /\ leb x (of_Z hi) = true.

(** The two masked assignments leave a NaN where there was one and put
    every number into the range. *)
Lemma clip_between (k : Z) (e : float) :
  0 <= k -> is_nan (clip (- k) k e) = false -> between (- k) k (clip (- k) k e).
Proof.
  intros Hk. unfold clip, between.
  pose proof (leb_of_Z_opp k Hk) as Hlo.
  pose proof (of_Z_not_nan k) as Nk. pose proof (of_Z_not_nan (- k)) as Nk'.
  destruct (ltb (of_Z k) e) eqn:E1.
  - destruct (ltb (of_Z k) (of_Z (- k))) eqn:E2.
    + exfalso. exact (ltb_leb_false _ _ E2 Hlo).
    + intros _. split; [exact Hlo|now apply leb_refl].
  - destruct (ltb e (of_Z (- k))) eqn:E2.
    + intros _. split; [now apply leb_refl|exact Hlo].
    + intros Ne. split; now apply not_ltb_leb.
Qed.

End Clipping.

Section RangeInvariant.

Lemma length_range_symmetric (k : Z) :
  0 <= k -> Z.of_nat (length (map PyInt (py_range (- k) (k + 1)))) = 2 * k + 1.
Proof. intros H. rewrite length_map, length_py_range. lia. Qed.

(** When the count of unique values exceeds the size of the range, the
    opening test of the discretizer holds. *)
Lemma wants_discretization_many (a : ndarray) (f m n : Z) :
  count_unique a = Ok n -> 2 * f * m + 1 < n -> 0 <= f * m ->
  wants_discretization a NUMERICAL f m true = Ok true.
Proof.
  intros Hn Hlt Hk. unfold wants_discretization, len_discretized_values,
    discretized_values.
  change (negb true) with false. change (numerical NUMERICAL) with true.
  cbv iota. rewrite Hn. cbv beta iota delta [rbind].
  replace (2 * f * m + 1 <? n) with true by (symmetry; apply Z.ltb_lt; lia).
  cbv beta iota zeta. replace (- f * m) with (- (f * m)) by lia.
  rewrite length_range_symmetric by lia.
  replace (2 * (f * m) + 1 <? n) with true by (symmetry; apply Z.ltb_lt; lia).
  reflexivity.
Qed.

(** C5, as the program has it.  For a numeric sequence with more unique
    values than [2*ffactor*maxdev+1] (and [ffactor*maxdev >= 0]), the
    discretizer returns a new array, and every element of it that is not
    NaN lies in [[-ffactor*maxdev, ffactor*maxdev]]. *)
Theorem C5_discretized_range (h : heap) (x : ref) (xs : list float) (f m n : Z) :
  nth_error h x = Some (box xs) ->
  count_unique (box xs) = Ok n -> 2 * f * m + 1 < n -> 0 <= f * m ->
  discretized_sequence x NUMERICAL f m true h
    = (Ok (length h), h ++ [box (discretize xs f m true)]) /\
  Forall (fun e => is_nan e = false -> between (- (f * m)) (f * m) e)
         (discretize xs f m true).
Proof.
  intros Hx Hn Hlt Hk. split.
  - rewrite (discretized_sequence_run _ _ _ _ _ _ _ Hx).
    rewrite (wants_discretization_many _ _ _ _ Hn Hlt Hk).
    now rewrite as_floats_box.
  - unfold discretize. replace (- f * m) with (- (f * m)) by lia.
    apply Forall_map. apply Forall_forall. intros e _.
    now apply clip_between.
Qed.

End RangeInvariant.

(** Two hundred samples at 0 and fourteen far on both sides: fifteen unique
    values, with mean 0; the samples within three deviations are the zeros,
    whose deviation is 0. *)
Definition spike : list float :=
  map of_Z (repeat 0 200 ++ [100; 101; 102; 103; 104; 105; 106]
            ++ [-100; -101; -102; -103; -104; -105; -106]).

Lemma C5_witness :
  Forall (fun e => is_nan e = false -> between (- (2 * 3)) (2 * 3) e)
         (discretize spike 2 3 true).
Proof.
  exact (proj2 (C5_discretized_range [box spike] 0%nat spike 2 3 15
                  eq_refl ltac:(vm_compute; reflexivity) ltac:(lia) ltac:(lia))).
Defined.

(** With the default [ffactor = 2] and [maxdev = 3] the sequence [spike]
    has more than 13 unique values and its first discretized value is NaN,
    which is in no interval. *)
Lemma C5_counterexample :
  count_unique (box spike) = Ok 15 /\ 2 * 2 * 3 + 1 < 15 /\
  discretized_sequence 0%nat NUMERICAL 2 3 true [box spike]
    = (Ok 1%nat, [box spike; box (discretize spike 2 3 true)]) /\
  exists e, In e (discretize spike 2 3 true) /\
            ~ (leb (of_Z (- (2 * 3))) e = true /\ leb e (of_Z (2 * 3)) = true).
Proof.
  split; [vm_compute; reflexivity|]. split; [lia|].
  split; [vm_compute; reflexivity|].
  exists S754_nan. split.
  - left. vm_compute. reflexivity.
  - intros [H _]. vm_compute in H. discriminate.
Qed.

(** * A zero standard deviation *)

Section Degenerate.

Import F64Facts.





End Degenerate.




(** * The count check *)

Section CountCheck.

Variable self : CDS.




End CountCheck.




(** * The score is a finite number that is not negative *)

Import F64Facts Rounding Arith.

(** ** Lists *)

Lemma zip_with_Forall {A B C} (f : A -> B -> C) (P : A -> Prop) (Q : B -> Prop)
    (R : C -> Prop) (a : list A) (b : list B) :
  (forall x y, P x -> Q y -> R (f x y)) ->
  Forall P a -> Forall Q b -> Forall R (zip_with f a b).
Proof.
  intros Hf Ha. revert b.
  induction Ha as [|x a Hx Ha IH]; intros b Hb; simpl; [constructor|].
  destruct Hb as [|y b Hy Hb]; constructor; auto.
Qed.

Lemma zip_with_nonempty {A B C} (f : A -> B -> C) (a : list A) (b : list B) :
  a <> [] -> b <> [] -> zip_with f a b <> [].
Proof. destruct a, b; simpl; congruence. Qed.

Lemma getitem_mask_length (y : ndarray) (mask : list bool) (r : ndarray) :
  getitem_mask y mask = Ok r -> (length r <= length y)%nat.
Proof.
  revert mask r. induction y as [|o y IH]; intros [|b mask] r; simpl;
    try discriminate.
  - intros [= <-]. simpl. lia.
  - destruct (getitem_mask y mask) as [r'|e] eqn:E; simpl; [|discriminate].
    specialize (IH _ _ E). destruct b; intros [= <-]; simpl; lia.
Qed.

Lemma as_floats_length (x : ndarray) (fs : list float) :
  as_floats x = Ok fs -> length fs = length x.
Proof.
  revert fs. induction x as [|o x IH]; intros fs; simpl.
  - now intros [= <-].
  - destruct (as_float o) as [f|e]; simpl; [|discriminate].
    destruct (as_floats x) as [fs'|e]; simpl; [|discriminate].
    intros [= <-]. simpl. now rewrite (IH fs').
Qed.

Lemma counter_get_bounds (x : ndarray) (c : counter) (o : pyobj) :
  Counter x = Ok c -> 0 <= counter_get c o <= Z.of_nat (length x).
Proof.
  intros H. pose proof (Counter_counts x c H) as B. clear H.
  induction B as [|[k n] c Hk B IH]; simpl; [lia|].
  simpl in Hk. destruct (py_eq k o); lia.
Qed.

(** ** The histograms hold counts *)

(** [p] is the count [k] of something among at most [N] elements. *)
Definition count_below (N : Z) (p : float) : Prop :=
  exists k, 0 <= k <= N /\ p = of_Z k.

Lemma count_below_finite (N : Z) (p : float) :
  N < 2 ^ 63 -> count_below N p -> finite_below 64 p.
Proof.
  intros HN [k [Hk ->]]. apply (of_Z_below k 63); lia.
Qed.

(** A row of [pyx]: a histogram divided by its total. *)
Definition good_row (r : list float) : Prop :=
  r <> [] /\ Forall (finite_below 65) r.

Lemma normalize_good (N n : Z) (pyxa : list float) :
  N < 2 ^ 63 -> Forall (count_below N) pyxa -> 1 <= n ->
  eqb (np_sum pyxa) (of_Z n) = true -> good_row (normalize pyxa).
Proof.
  intros HN Hc Hn He.
  destruct (of_Z_above n Hn) as [La Sa].
  apply (eqb_large_eq 0 _ _ La Sa) in He.
  unfold good_row, normalize. rewrite He. split.
  - destruct pyxa; [|discriminate].
    simpl in He. rewrite <- He in La. destruct La.
  - apply Forall_map. eapply Forall_impl; [|exact Hc].
    intros p Hp. apply (div_below 64 0 64); try (unfold emin; lia); auto.
    now apply (count_below_finite N).
Qed.

Section Histograms.

Variable self : CDS.

Lemma conditional_histogram_counts (xdv yv : ndarray) (yrange : list pyobj)
    (py : list float) (a : pyobj) (pyxa : list float) :
  conditional_histogram_val self xdv yv yrange py a = Ok pyxa ->
  Forall (count_below (Z.of_nat (length yv))) pyxa.
Proof.
  unfold conditional_histogram_val.
  destruct (getitem_mask yv _) as [yx|e] eqn:Hyx; cbn [rbind]; [|discriminate].
  apply getitem_mask_length in Hyx.
  destruct (continuous self yv) as [[|]|e]; cbn [rbind]; [| |discriminate].
  - destruct (as_floats yx) as [yx0|e] eqn:H0; cbn [rbind]; [|discriminate].
    apply as_floats_length in H0.
    destruct (as_floats yv) as [y0|e]; cbn [rbind]; [|discriminate].
    rewrite discretized_sequence_val_no_norm. cbn [rbind].
    rewrite as_floats_box. cbn [rbind].
    destruct (Counter _) as [cyx|e] eqn:Hc; cbn [rbind]; [|discriminate].
    destruct (discretized_values _ _ _ _) as [dv|e]; cbn [rbind]; [|discriminate].
    intros [= <-]. apply Forall_forall. intros p Hp.
    apply in_map_iff in Hp as [i [<- _]].
    exists (counter_get cyx i). split; [|reflexivity].
    pose proof (counter_get_bounds _ _ i Hc) as B.
    unfold discretize, np_round in B. rewrite !length_map in B. lia.
  - destruct (Counter yx) as [cyx|e] eqn:Hc; cbn [rbind]; [|discriminate].
    unfold align. destruct (best_offset _) as [imax|e]; cbn [rbind]; [|discriminate].
    intros [= <-]. unfold repad. apply Forall_forall. intros p Hp.
    apply in_map_iff in Hp as [k [<- Hk]]. exists k. split; [|reflexivity].
    apply in_app_or in Hk as [Hk|Hk]; [|apply in_app_or in Hk as [Hk|Hk]].
    + apply repeat_spec in Hk. lia.
    + apply in_map_iff in Hk as [i [<- _]].
      pose proof (counter_get_bounds _ _ i Hc). lia.
    + apply repeat_spec in Hk. lia.
Qed.

Lemma cds_loop_body_val_good (xdv yv : ndarray) (yrange : list pyobj)
    (py : list float) (pyx pyx' : list (list float)) (item : pyobj * Z) :
  Z.of_nat (length yv) < 2 ^ 63 -> 1 <= snd item ->
  Forall good_row pyx ->
  cds_loop_body_val self xdv yv yrange py pyx item = Ok pyx' ->
  Forall good_row pyx'.
Proof.
  intros HN Hn Hg. destruct item as [a n]. simpl in Hn. simpl.
  destruct (minc self <? n); [|now intros [= <-]].
  destruct (conditional_histogram_val self xdv yv yrange py a) as [pyxa|e] eqn:Hh;
    cbn [rbind]; [|discriminate].
  destruct (eqb (np_sum pyxa) (of_Z n)) eqn:He; [|discriminate].
  intros [= <-]. apply Forall_app. split; [exact Hg|].
  constructor; [|constructor].
  apply (normalize_good (Z.of_nat (length yv)) n); auto.
  now apply conditional_histogram_counts in Hh.
Qed.

Lemma for_each_val_good (xdv yv : ndarray) (yrange : list pyobj)
    (py : list float) (cx : counter) (acc pyx : list (list float)) :
  Z.of_nat (length yv) < 2 ^ 63 ->
  Forall (fun kv => 1 <= snd kv) cx -> Forall good_row acc ->
  for_each_val (cds_loop_body_val self xdv yv yrange py) acc cx = Ok pyx ->
  Forall good_row pyx.
Proof.
  intros HN Hcx. revert acc.
  induction Hcx as [|item cx Hi Hcx IH]; intros acc Hg; simpl.
  - now intros [= <-].
  - destruct (cds_loop_body_val self xdv yv yrange py acc item) as [acc'|e] eqn:Hb;
      cbn [rbind]; [|discriminate].
    apply IH. exact (cds_loop_body_val_good _ _ _ _ _ _ _ HN Hi Hg Hb).
Qed.

End Histograms.

(** ** The deviation of finite numbers *)

Lemma len_above (l : list float) :
  l <> [] -> large_above 0 (len l) /\ signed false (len l).
Proof.
  intros H. apply of_Z_above. destruct l; [congruence|]. simpl length. lia.
Qed.

(** The mean of numbers below [2^400] in absolute value. *)
Lemma np_mean_finite (l : list float) :
  l <> [] -> Forall (finite_below 400) l -> finite_below 456 (np_mean l).
Proof.
  intros Hne Hl. destruct (len_above l Hne) as [Ll Sl]. unfold np_mean.
  apply (div_below 455 0 455); try (unfold emin; lia); auto.
  apply np_sum_below; try (unfold emin; lia). exact Hl.
Qed.

(** Their deviation: the squares stay below [2^917], their sum and its
    mean below [2^973]. *)
Lemma np_std_finite (l : list float) :
  l <> [] -> Forall (finite_below 400) l ->
  finite_below 600 (np_std l) /\ signed false (np_std l).
Proof.
  intros Hne Hl. destruct (len_above l Hne) as [Ll Sl].
  pose proof (np_mean_finite l Hne Hl) as Hm.
  unfold np_std.
  set (m := np_mean l) in *.
  set (d := map (fun e => sub e m) l).
  assert (Hd : Forall (finite_below 458) d).
  { apply Forall_map. eapply Forall_impl; [|exact Hl].
    intros e He. apply (sub_below 456); try (unfold emin; lia); auto.
    apply (finite_below_le 400); [lia|exact He]. }
  set (q := map (fun e => mul e e) d).
  assert (Hq : Forall (finite_below 917) q).
  { apply Forall_map. eapply Forall_impl; [|exact Hd].
    intros e He. apply (mul_below 458 458); try (unfold emin; lia); auto. }
  assert (Sq : Forall (signed false) q).
  { apply Forall_map. eapply Forall_impl; [|exact Hd].
    intros e He. now apply (mul_self_signed 458). }
  assert (Hs : finite_below 972 (np_sum q))
    by (apply np_sum_below; try (unfold emin; lia); exact Hq).
  assert (Ss : signed false (np_sum q)) by now apply np_sum_signed.
  apply (sqrt_below 973).
  - apply (div_below 972 0 972); try (unfold emin; lia); auto.
  - now apply (div_signed 972 0).
Qed.

Lemma fold_zip_add_below (rs : list (list float)) (acc : list float) :
  Forall (finite_below 120) acc -> Forall (Forall (finite_below 65)) rs ->
  Forall (finite_below 120) (fold_left (zip_with add) rs acc).
Proof.
  intros Ha Hr. revert acc Ha.
  induction Hr as [|r rs Hr Hrs IH]; intros acc Ha; simpl; [exact Ha|].
  apply IH.
  apply (zip_with_Forall add (finite_below 120) (finite_below 65)); auto.
  intros x y Hx Hy. apply add_absorb; try (unfold emin; lia); auto.
Qed.

Lemma fold_zip_add_nonempty (rs : list (list float)) (acc : list float) :
  acc <> [] -> Forall (fun r => r <> []) rs ->
  fold_left (zip_with add) rs acc <> [].
Proof.
  intros Ha Hr. revert acc Ha.
  induction Hr as [|r rs Hr Hrs IH]; intros acc Ha; simpl; [exact Ha|].
  apply IH. now apply zip_with_nonempty.
Qed.

Lemma aggregate_finite (pyx : list (list float)) :
  pyx <> [] -> Forall good_row pyx ->
  finite_below 600 (aggregate pyx) /\ signed false (aggregate pyx).
Proof.
  intros Hne Hg. unfold aggregate.
  assert (Hf : Forall (Forall (finite_below 65)) pyx)
    by (eapply Forall_impl; [|exact Hg]; now intros r [_ H]).
  assert (Hn : Forall (fun r => r <> []) pyx)
    by (eapply Forall_impl; [|exact Hg]; now intros r [H _]).
  set (mean := mean_axis0 pyx).
  assert (Hmean : mean <> [] /\ Forall (finite_below 121) mean).
  { unfold mean, mean_axis0. destruct pyx as [|r rs]; [congruence|].
    inversion Hf as [|? ? Hr Hrs]; subst. inversion Hn as [|? ? Nr Nrs]; subst.
    assert (Hs : Forall (finite_below 120) (fold_left (zip_with add) rs r)).
    { apply fold_zip_add_below; [|exact Hrs].
      eapply Forall_impl; [|exact Hr].
      intros x. apply finite_below_le. lia. }
    pose proof (fold_zip_add_nonempty rs r Nr Nrs) as Ns.
    split.
    - destruct (fold_left (zip_with add) rs r); [congruence|discriminate].
    - apply Forall_map. eapply Forall_impl; [|exact Hs].
      intros x Hx.
      apply (div_below 120 0 120); try (unfold emin; lia); auto.
      apply of_Z_above. simpl length. lia. }
  destruct Hmean as [Nm Hm].
  apply np_std_finite.
  - destruct pyx as [|r rs]; [congruence|].
    inversion Hn as [|? ? Nr Nrs]; subst. simpl.
    pose proof (zip_with_nonempty sub r mean Nr Nm).
    destruct (zip_with sub r mean); [congruence|discriminate].
  - apply Forall_concat. apply Forall_map.
    eapply Forall_impl; [|exact Hf].
    intros r Hr.
    apply (zip_with_Forall sub (finite_below 65) (finite_below 121)); auto.
    intros x y Hx Hy. apply (finite_below_le (121 + 2)); [lia|].
    apply (sub_below 121); try (unfold emin; lia); auto.
    apply (finite_below_le 65); [lia|exact Hx].
Qed.

Lemma signed_false_leb (v : float) : signed false v -> leb zero v = true.
Proof. unfold signed. destruct v as [s|s| |s m e]; simpl; now intros [= ->]. Qed.

(** ** The score *)

Section ScoreFinite.

Variable self : CDS.

Lemma cds_score_val_finite (xv yv : ndarray) (v : float) :
  Z.of_nat (length yv) < 2 ^ 63 ->
  cds_score_val self xv yv = Ok v ->
  finite_below 600 v /\ signed false v.
Proof.
  intros HN. unfold cds_score_val.
  destruct (discretized_sequence_val xv _ _ _ _) as [xdv|e]; cbn [rbind];
    [|discriminate].
  destruct (discretized_sequence_val yv _ _ _ _) as [ydv|e]; cbn [rbind];
    [|discriminate].
  destruct (Counter xdv) as [cx|e] eqn:Hcx; cbn [rbind]; [|discriminate].
  destruct (Counter ydv) as [cy|e]; cbn [rbind]; [|discriminate].
  destruct (for_each_val _ _ _) as [pyx|e] eqn:Hl; cbn [rbind]; [|discriminate].
  assert (Hg : Forall good_row pyx).
  { apply (for_each_val_good _ _ _ _ _ _ _ _ HN) in Hl; auto.
    eapply Forall_impl; [|exact (Counter_counts _ _ Hcx)].
    intros kv H. simpl in H. lia. }
  destruct pyx as [|r rs].
  - intros [= <-]. split; [exact I|reflexivity].
  - change (Z.of_nat (length (r :: rs)) =? 0) with false. cbv iota.
    intros [= <-]. apply aggregate_finite; [discriminate|exact Hg].
Qed.

Lemma cds_score_finite (x y : ref) (xv yv : ndarray) (h h' : heap) (v : float) :
  nth_error h x = Some xv -> nth_error h y = Some yv ->
  Z.of_nat (length yv) < 2 ^ 63 ->
  cds_score self x y h = (Ok v, h') ->
  cds_score_val self xv yv = Ok v /\ finite_below 600 v /\ signed false v.
Proof.
  intros Hx Hy HN H.
  destruct (cds_score_run self h x y xv yv Hx Hy) as [ext E].
  rewrite E in H. injection H as Hv _.
  split; [exact Hv|]. now apply (cds_score_val_finite xv yv).
Qed.

End ScoreFinite.

(** * The sign of the score and of the comparator *)

Import F64Facts Rounding Arith.

Lemma computes_fst {A} (m : M A) (v : result A) (h : heap) :
  computes m v h -> fst (m h) = v.
Proof. intros [ext E]. now rewrite E. Qed.

(** C7.  A score that [cds_score] returns is a finite number, and it is
    greater than or equal to zero: so it is not NaN either.  The effect
    array has fewer than [2^63] elements, as every array of the machine
    has; the two arrays need not be numeric nor of equal length for this,
    since the calls that raise return no score. *)
Theorem C7_score_not_negative (self : CDS) (x y : ref) (xv yv : ndarray)
    (h : heap) (v : float) :
  nth_error h x = Some xv -> nth_error h y = Some yv ->
  Z.of_nat (length yv) < 2 ^ 63 ->
  fst (cds_score self x y h) = Ok v ->
  leb zero v = true /\ is_finite v = true.
Proof.
  intros Hx Hy HN H.
  rewrite (computes_fst _ _ _ (cds_score_run self h x y xv yv Hx Hy)) in H.
  destruct (cds_score_val_finite self xv yv v HN H) as [F S].
  split.
  - now apply signed_false_leb.
  - now apply (finite_below_is_finite 600).
Qed.

(** Two causes, each seen 26 times, and an effect with three values. *)
Definition two_causes : list float :=
  map of_Z (repeat 0 13 ++ repeat 1 13 ++ repeat 0 13 ++ repeat 1 13).

Definition three_effects : list float :=
  map of_Z (repeat 0 13 ++ repeat 1 7 ++ repeat 2 6
            ++ repeat 1 13 ++ repeat 0 6 ++ repeat 2 7).

Definition two_causes_heap : heap := [box two_causes; box three_effects].

Lemma C7_witness :
  leb zero (S754_finite false 8347265972860458 (-56)) = true /\
  is_finite (S754_finite false 8347265972860458 (-56)) = true.
Proof.
  apply (C7_score_not_negative CDS_default 0%nat 1%nat
           (box two_causes) (box three_effects) two_causes_heap
           (S754_finite false 8347265972860458 (-56)) eq_refl eq_refl).
  - vm_compute. reflexivity.
  - vm_compute. reflexivity.
Defined.

(** C1.  [predict_proba(a, b)] is [cds_score(b, a) - cds_score(a, b)], both
    scores being those of the arrays as they are when the comparator is
    called; and when it returns [s], the comparator called the other way
    round returns a number [s'] with [s == -s']: the same two scores are
    subtracted the other way round.  The arrays have fewer than [2^63]
    elements. *)
Theorem C1_antisymmetric (self : CDS) (a b : ref) (av bv : ndarray)
    (h : heap) (s : float) :
  nth_error h a = Some av -> nth_error h b = Some bv ->
  Z.of_nat (length av) < 2 ^ 63 -> Z.of_nat (length bv) < 2 ^ 63 ->
  fst (predict_proba self a b h) = Ok s ->
  (exists u v,
     fst (cds_score self b a h) = Ok u /\
     fst (cds_score self a b h) = Ok v /\ s = sub u v) /\
  (exists s',
     fst (predict_proba self b a h) = Ok s' /\ eqb s (opp s') = true).
Proof.
  intros Ha Hb Na Nb H.
  rewrite (computes_fst _ _ _ (predict_proba_run self h a b av bv Ha Hb)) in H.
  rewrite (computes_fst _ _ _ (predict_proba_run self h b a bv av Hb Ha)).
  rewrite (computes_fst _ _ _ (cds_score_run self h b a bv av Hb Ha)).
  rewrite (computes_fst _ _ _ (cds_score_run self h a b av bv Ha Hb)).
  unfold predict_proba_val in *.
  destruct (cds_score_val self bv av) as [u|e] eqn:Hu; cbn [rbind] in *;
    [|discriminate].
  destruct (cds_score_val self av bv) as [v|e] eqn:Hv; cbn [rbind] in *;
    [|discriminate].
  injection H as <-.
  destruct (cds_score_val_finite self bv av u Na Hu) as [Fu _].
  destruct (cds_score_val_finite self av bv v Nb Hv) as [Fv _].
  split.
  - exists u, v. auto.
  - exists (sub v u). split; [reflexivity|].
    exact (sub_antisym 600 600 u v Fu Fv).
Qed.

Lemma C1_witness :
  (exists u v,
     fst (cds_score CDS_default 1%nat 0%nat two_causes_heap) = Ok u /\
     fst (cds_score CDS_default 0%nat 1%nat two_causes_heap) = Ok v /\
     S754_finite false 7691861757871232 (-56) = sub u v) /\
  (exists s',
     fst (predict_proba CDS_default 1%nat 0%nat two_causes_heap) = Ok s' /\
     eqb (S754_finite false 7691861757871232 (-56)) (opp s') = true).
Proof.
  apply (C1_antisymmetric CDS_default 0%nat 1%nat
           (box two_causes) (box three_effects) two_causes_heap
           (S754_finite false 7691861757871232 (-56)) eq_refl eq_refl).
  - vm_compute. reflexivity.
  - vm_compute. reflexivity.
  - vm_compute. reflexivity.
Defined.

(** * What a [Counter] counts *)

Import F64Facts Rounding Arith Exact.

(** The number of elements of [l] that are equal to [a]. *)
Fixpoint count_eq (l : ndarray) (a : pyobj) : Z :=
  match l with
  | [] => 0
  | o :: r => (if py_eq o a then 1 else 0) + count_eq r a
  end.

Definition key_is (Q : pyobj -> Prop) (kv : pyobj * Z) : Prop := Q (fst kv).

Lemma counter_incr_keys (Q : pyobj -> Prop) (c : counter) (o : pyobj) :
  Forall (key_is Q) c -> Q o -> Forall (key_is Q) (counter_incr c o).
Proof.
  intros Hc Ho. induction Hc as [|[k n] c Hk Hc IH]; simpl.
  - constructor; [exact Ho|constructor].
  - destruct (py_eq k o); constructor; auto.
Qed.

(** No key of the counter is equal to a key that comes after it. *)
Fixpoint distinct_keys (c : counter) : Prop :=
  match c with
  | [] => True
  | (k, _) :: r => Forall (key_is (fun k' => py_eq k k' = false)) r /\ distinct_keys r
  end.

Lemma counter_incr_distinct (c : counter) (o : pyobj) :
  distinct_keys c -> distinct_keys (counter_incr c o).
Proof.
  induction c as [|[k n] c IH]; simpl.
  - intros _. split; [constructor|exact I].
  - intros [Hk Hc]. destruct (py_eq k o) eqn:E; simpl.
    + split; assumption.
    + split; [|now apply IH].
      now apply (counter_incr_keys (fun k' => py_eq k k' = false)).
Qed.

Lemma counter_update_distinct (l : ndarray) (c c' : counter) :
  distinct_keys c -> counter_update c l = Ok c' -> distinct_keys c'.
Proof.
  revert c. induction l as [|o l IH]; intros c Hc; simpl.
  - now intros [= <-].
  - destruct (py_hashable o); [|discriminate].
    apply IH. now apply counter_incr_distinct.
Qed.

Lemma distinct_keys_get (c : counter) (k : pyobj) (n : Z) :
  distinct_keys c -> In (k, n) c -> py_eq k k = true -> counter_get c k = n.
Proof.
  induction c as [|[k1 n1] c IH]; simpl; [tauto|].
  intros [Hk Hc] [E|Hin] Hr.
  - injection E as -> ->. now rewrite Hr.
  - rewrite Forall_forall in Hk. specialize (Hk _ Hin). unfold key_is in Hk.
    simpl in Hk. rewrite Hk. now apply IH.
Qed.

(** ** Objects among which [==] is an equivalence *)

Section Equivalence.

Variable P : pyobj -> Prop.
Hypothesis P_hashable : forall a, P a -> py_hashable a = true.
Hypothesis P_sym : forall a b, P a -> P b -> py_eq a b = py_eq b a.
Hypothesis P_trans : forall a b c, P a -> P b -> P c ->
  py_eq a b = true -> py_eq b c = true -> py_eq a c = true.

Lemma counter_get_incr (c : counter) (o a : pyobj) :
  Forall (key_is P) c -> P o -> P a ->
  counter_get (counter_incr c o) a
  = counter_get c a + (if py_eq o a then 1 else 0).
Proof.
  intros Hc Ho Ha. induction Hc as [|[k n] c Hk Hc IH]; simpl.
  - destruct (py_eq o a); reflexivity.
  - unfold key_is in Hk. simpl in Hk.
    destruct (py_eq k o) eqn:Eko; simpl.
    + destruct (py_eq k a) eqn:Eka.
      * assert (py_eq o a = true) as ->; [|reflexivity].
        apply (P_trans o k a); auto. now rewrite P_sym.
      * assert (py_eq o a = false) as ->; [|lia].
        destruct (py_eq o a) eqn:Eoa; [|reflexivity].
        rewrite (P_trans k o a) in Eka; auto.
    + destruct (py_eq k a) eqn:Eka.
      * assert (py_eq o a = false) as ->; [|lia].
        destruct (py_eq o a) eqn:Eoa; [|reflexivity].
        rewrite (P_trans k a o) in Eko; auto. now rewrite P_sym.
      * exact IH.
Qed.

Lemma counter_get_update (l : ndarray) (c c' : counter) (a : pyobj) :
  Forall (key_is P) c -> Forall P l -> P a ->
  counter_update c l = Ok c' ->
  counter_get c' a = counter_get c a + count_eq l a.
Proof.
  intros Hc Hl Ha. revert c Hc.
  induction Hl as [|o l Ho Hl IH]; intros c Hc; simpl.
  - intros [= <-]. lia.
  - rewrite (P_hashable o Ho). intros H.
    rewrite (IH _ (counter_incr_keys P c o Hc Ho) H).
    rewrite counter_get_incr by assumption. lia.
Qed.

Lemma counter_update_ok (l : ndarray) (c : counter) :
  Forall P l -> exists c', counter_update c l = Ok c'.
Proof.
  intros Hl. revert c. induction Hl as [|o l Ho Hl IH]; intros c; simpl.
  - now eexists.
  - rewrite (P_hashable o Ho). apply IH.
Qed.

Lemma counter_update_keys (l : ndarray) (c c' : counter) :
  Forall (key_is P) c -> Forall P l -> counter_update c l = Ok c' ->
  Forall (key_is P) c'.
Proof.
  intros Hc Hl. revert c Hc.
  induction Hl as [|o l Ho Hl IH]; intros c Hc; simpl.
  - now intros [= <-].
  - rewrite (P_hashable o Ho). apply IH. now apply counter_incr_keys.
Qed.

(** A key that is not equal to itself is met once. *)
Definition lonely (kv : pyobj * Z) : Prop :=
  py_eq (fst kv) (fst kv) = false -> snd kv = 1.

Lemma counter_incr_lonely (c : counter) (o : pyobj) :
  Forall (key_is P) c -> P o ->
  Forall lonely c -> Forall lonely (counter_incr c o).
Proof.
  intros Hc Ho Hl. induction Hc as [|[k n] c Hk Hc IH]; simpl.
  - constructor; [|constructor]. now intros _.
  - inversion Hl as [|? ? L1 L2]; subst. unfold key_is in Hk. simpl in Hk.
    destruct (py_eq k o) eqn:E.
    + constructor; [|exact L2]. unfold lonely. simpl. intros Hkk.
      rewrite (P_trans k o k) in Hkk; auto; [discriminate|].
      now rewrite P_sym.
    + constructor; [exact L1|now apply IH].
Qed.

Lemma counter_update_lonely (l : ndarray) (c c' : counter) :
  Forall (key_is P) c -> Forall P l -> Forall lonely c ->
  counter_update c l = Ok c' -> Forall lonely c'.
Proof.
  intros Hc Hl. revert c Hc.
  induction Hl as [|o l Ho Hl IH]; intros c Hc Hlo; simpl.
  - now intros [= <-].
  - rewrite (P_hashable o Ho). apply IH.
    + now apply counter_incr_keys.
    + now apply counter_incr_lonely.
Qed.

(** [Counter(l)[a]] is the number of elements of [l] equal to [a]. *)
Lemma Counter_get (l : ndarray) (c : counter) (a : pyobj) :
  Forall P l -> P a -> Counter l = Ok c -> counter_get c a = count_eq l a.
Proof.
  intros Hl Ha H. unfold Counter in H.
  rewrite (counter_get_update l [] c a (Forall_nil _) Hl Ha H). simpl. lia.
Qed.

(** The count stored with a key is the number of elements equal to the
    key, and 1 for a key that is not equal to itself. *)
Lemma Counter_items (l : ndarray) (c : counter) (k : pyobj) (n : Z) :
  Forall P l -> Counter l = Ok c -> In (k, n) c ->
  P k /\ (if py_eq k k then n = count_eq l k else n = 1).
Proof.
  intros Hl H Hin. unfold Counter in H.
  pose proof (counter_update_keys l [] c (Forall_nil _) Hl H) as Hk.
  pose proof (counter_update_lonely l [] c (Forall_nil _) Hl (Forall_nil _) H) as Hlo.
  pose proof (counter_update_distinct l [] c I H) as Hd.
  rewrite Forall_forall in Hk, Hlo.
  specialize (Hk _ Hin). specialize (Hlo _ Hin).
  unfold key_is in Hk. unfold lonely in Hlo. simpl in Hk, Hlo.
  split; [exact Hk|].
  destruct (py_eq k k) eqn:E; [|now apply Hlo].
  rewrite <- (distinct_keys_get c k n Hd Hin E).
  now apply Counter_get.
Qed.

End Equivalence.

(** ** Floats and integers *)

Definition is_float (o : pyobj) : Prop := exists f, o = PyFloat f.

Lemma is_float_hashable (a : pyobj) : is_float a -> py_hashable a = true.
Proof. now intros [f ->]. Qed.

Lemma is_float_sym (a b : pyobj) : is_float a -> is_float b -> py_eq a b = py_eq b a.
Proof. intros [x ->] [y ->]. simpl. apply eqb_sym. Qed.

Lemma is_float_trans (a b c : pyobj) :
  is_float a -> is_float b -> is_float c ->
  py_eq a b = true -> py_eq b c = true -> py_eq a c = true.
Proof. intros [x ->] [y ->] [z ->]. simpl. apply eqb_trans. Qed.




Lemma box_is_float (fs : list float) : Forall is_float (box fs).
Proof. apply Forall_map. apply Forall_forall. intros f _. now exists f. Qed.


(** ** A boolean mask *)

(** [ys[mask]] for an array of floats. *)
Fixpoint select (ys : list float) (mask : list bool) : list float :=
  match ys, mask with
  | y :: ys', b :: mask' => if b then y :: select ys' mask' else select ys' mask'
  | _, _ => []
  end.

Lemma getitem_mask_box (ys : list float) (mask : list bool) :
  length ys = length mask ->
  getitem_mask (box ys) mask = Ok (box (select ys mask)).
Proof.
  revert mask. induction ys as [|y ys IH]; intros [|b mask]; simpl;
    try discriminate; [reflexivity|].
  intros [= H]. rewrite (IH _ H). simpl. now destruct b.
Qed.

Lemma select_count (ys : list float) (l : ndarray) (a : pyobj) :
  length ys = length l ->
  Z.of_nat (length (select ys (map (fun e => py_eq e a) l))) = count_eq l a.
Proof.
  revert l. induction ys as [|y ys IH]; intros [|o l]; simpl;
    try discriminate; [reflexivity|].
  intros [= H]. specialize (IH _ H).
  destruct (py_eq o a); simpl length; lia.
Qed.

Lemma select_Forall (Q : float -> Prop) (ys : list float) (mask : list bool) :
  Forall Q ys -> Forall Q (select ys mask).
Proof.
  intros H. revert mask. induction H as [|y ys Hy H IH]; intros [|b mask];
    simpl; try constructor.
  destruct b; [constructor|]; auto.
Qed.

(** ** The total of a histogram over a range *)

Definition zsum (l : list Z) : Z := fold_right Z.add 0 l.

Lemma zsum_app (a b : list Z) : zsum (a ++ b) = zsum a + zsum b.
Proof. induction a as [|x a IH]; simpl; lia. Qed.

Lemma zsum_map_add {A} (f g : A -> Z) (l : list A) :
  zsum (map (fun i => f i + g i) l) = zsum (map f l) + zsum (map g l).
Proof. induction l as [|x l IH]; simpl; lia. Qed.

Lemma zsum_nonneg (l : list Z) : Forall (fun c => 0 <= c) l -> 0 <= zsum l.
Proof. induction 1; simpl; lia. Qed.



Lemma count_eq_nonneg (l : ndarray) (a : pyobj) : 0 <= count_eq l a.
Proof. induction l as [|o l IH]; simpl; [lia|]. destruct (py_eq o a); lia. Qed.


(** ** The sum of a histogram is exact *)

Lemma fold_add_of_Z (cs : list Z) (acc : Z) :
  0 <= acc -> Forall (fun c => 0 <= c) cs -> acc + zsum cs < 2 ^ 53 ->
  fold_left add (map of_Z cs) (of_Z acc) = of_Z (acc + zsum cs).
Proof.
  intros Ha Hc. revert acc Ha.
  induction Hc as [|c cs Hc Hcs IH]; intros acc Ha Hs; simpl.
  - now rewrite Z.add_0_r.
  - simpl in Hs. pose proof (zsum_nonneg cs Hcs).
    rewrite add_of_Z by lia. rewrite IH by lia. f_equal. lia.
Qed.

Lemma np_sum_of_Z (cs : list Z) :
  Forall (fun c => 0 <= c) cs -> zsum cs < 2 ^ 53 ->
  np_sum (map of_Z cs) = of_Z (zsum cs).
Proof.
  intros Hc Hs. destruct Hc as [|c cs Hc Hcs]; [reflexivity|].
  simpl in *. pose proof (zsum_nonneg cs Hcs).
  now apply fold_add_of_Z.
Qed.

(** ** The size of a set *)

Lemma set_update_length (x : ndarray) (s s' : list pyobj) :
  set_update s x = Ok s' -> (length s' <= length s + length x)%nat.
Proof.
  revert s. induction x as [|o x IH]; intros s; simpl.
  - intros [= <-]. lia.
  - destruct (py_hashable o); [|discriminate].
    intros H. apply IH in H. unfold set_add in H.
    destruct (existsb _ s); [lia|]. rewrite length_app in H. simpl in H. lia.
Qed.

Lemma count_unique_le (x : ndarray) (n : Z) :
  count_unique x = Ok n -> n <= Z.of_nat (length x).
Proof.
  unfold count_unique, py_set.
  destruct (set_update [] x) as [s|e] eqn:E; simpl; [|discriminate].
  intros [= <-]. apply set_update_length in E. simpl in E. lia.
Qed.

(** * The count check of the continuous path *)

Import F64Facts Rounding Arith Exact.





Lemma clip_wf (lo hi : Z) (e : float) : wf e -> wf (clip lo hi e).
Proof.
  intros H. unfold clip.
  destruct (ltb (of_Z hi) e); [destruct (ltb (of_Z hi) (of_Z lo))|
                               destruct (ltb e (of_Z lo))];
    auto using of_Z_wf.
Qed.



Section Continuous.

Variable self : CDS.
Variable ys : list float.
Variable n0 : Z.

Hypothesis ys_length : Z.of_nat (length ys) < 2 ^ 53.
Hypothesis ffactor_pos : 1 <= ffactor self.
Hypothesis maxdev_pos : 1 <= maxdev self.
Hypothesis ys_unique : count_unique (box ys) = Ok n0.
Hypothesis ys_many : 2 * ffactor self * maxdev self + 1 < n0.
Hypothesis ys_finite : Forall (finite_below 400) ys.
Hypothesis ys_spread : eqb (np_std ys) zero = false.

Let k : Z := ffactor self * maxdev self.






Hypothesis minc_pos : 1 <= minc self.



End Continuous.

Lemma discretized_sequence_val_box (xs : list float) (tx : String.string)
    (f m : Z) (norm : bool) :
  exists xd, discretized_sequence_val (box xs) tx f m norm = Ok (box xd)
             /\ length xd = length xs.
Proof.
  unfold discretized_sequence_val.
  destruct (wants_discretization_hashable (box xs) tx f m norm (hashable_box xs))
    as [c ->].
  cbn [rbind]. destruct c.
  - rewrite as_floats_box. cbn [rbind]. eexists. split; [reflexivity|].
    unfold discretize, np_round. rewrite !length_map.
    destruct norm; [|reflexivity].
    unfold restandardize, standardize. now rewrite !length_map.
  - now exists xs.
Qed.


(** * The count check never fails on moderate effects *)

Import F64Facts Rounding Arith Exact.









(** * The bins of a sequence *)

From Stdlib Require Import Permutation Sorted.

Import F64Facts.

(** ** [sorted] *)

Lemma insert_sorted_perm (o : pyobj) (l : list pyobj) :
  Permutation (insert_sorted o l) (o :: l).
Proof.
  induction l as [|k t IH]; simpl; [apply Permutation_refl|].
  destruct (py_lt k o); [|apply Permutation_refl].
  apply (Permutation_trans (perm_skip k IH)). apply perm_swap.
Qed.

Lemma sorted_perm (l : list pyobj) : Permutation (sorted l) l.
Proof.
  induction l as [|o l IH]; simpl; [apply perm_nil|].
  apply (Permutation_trans (insert_sorted_perm o (sorted l))).
  now apply perm_skip.
Qed.

Lemma sorted_length (l : list pyobj) : length (sorted l) = length l.
Proof. apply Permutation_length. apply sorted_perm. Qed.

(** ** [set] and the keys of a [Counter] *)

Lemma counter_incr_set_add (c : counter) (o : pyobj) :
  keys (counter_incr c o) = set_add (keys c) o.
Proof.
  unfold set_add. induction c as [|[k n] c IH]; simpl; [reflexivity|].
  destruct (py_eq k o); simpl; [reflexivity|].
  rewrite IH. now destruct (existsb (fun k0 => py_eq k0 o) (keys c)).
Qed.

Lemma counter_update_set_update (x : ndarray) (c : counter) :
  set_update (keys c) x = (c' <~ counter_update c x ;; Ok (keys c')).
Proof.
  revert c. induction x as [|o x IH]; intros c; simpl; [reflexivity|].
  destruct (py_hashable o); [|reflexivity].
  rewrite <- counter_incr_set_add. apply IH.
Qed.

(** X1.  The keys of [Counter(x)], in the order in which they are met, are
    the members of [set(x)]: so [count_unique(x)] is the number of keys of
    [Counter(x)], and the two raise [TypeError] on the same sequences. *)
Theorem Counter_keys_are_the_set (x : ndarray) :
  py_set x = (c <~ Counter x ;; Ok (keys c)) /\
  count_unique x = (c <~ Counter x ;; Ok (Z.of_nat (length c))).
Proof.
  assert (H : py_set x = (c <~ Counter x ;; Ok (keys c)))
    by apply (counter_update_set_update x []).
  split; [exact H|].
  unfold count_unique. rewrite H.
  destruct (Counter x) as [c|e]; simpl; [|reflexivity].
  unfold keys. now rewrite length_map.
Qed.

Lemma set_update_grows (x : ndarray) (s s' : list pyobj) :
  set_update s x = Ok s' -> (length s <= length s')%nat.
Proof.
  revert s. induction x as [|o x IH]; intros s; simpl.
  - intros [= <-]. lia.
  - destruct (py_hashable o); [|discriminate].
    intros H. apply IH in H. unfold set_add in H.
    destruct (existsb _ s); [lia|]. rewrite length_app in H. simpl in H. lia.
Qed.

Lemma set_add_nonempty (s : list pyobj) (o : pyobj) : set_add s o <> [].
Proof.
  unfold set_add. destruct s as [|k s]; simpl; [discriminate|].
  destruct (py_eq k o || existsb _ s); discriminate.
Qed.

(** X2.  [count_unique(x)] lies between 0 and [len(x)], and it is 0 for
    the empty sequence only. *)
Theorem count_unique_bounds (x : ndarray) (n : Z) :
  count_unique x = Ok n ->
  0 <= n <= Z.of_nat (length x) /\ (n = 0 <-> x = []).
Proof.
  intros H. pose proof (count_unique_le x n H) as Hle.
  unfold count_unique, py_set in H.
  destruct (set_update [] x) as [s|e] eqn:E; simpl in H; [|discriminate].
  injection H as <-. split; [lia|]. split.
  - intros H0. destruct x as [|o x]; [reflexivity|]. exfalso.
    simpl in E. destruct (py_hashable o); [|discriminate].
    apply set_update_grows in E.
    pose proof (set_add_nonempty [] o) as Hne.
    destruct (set_add [] o); [congruence|]. simpl in E. lia.
  - intros ->. simpl in E. now injection E as <-.
Qed.

Lemma count_unique_bounds_witness :
  0 <= 3 <= Z.of_nat (length (box (map of_Z [5; 7; 5; 9]))) /\
  (3 = 0 <-> box (map of_Z [5; 7; 5; 9]) = []).
Proof.
  apply (count_unique_bounds (box (map of_Z [5; 7; 5; 9])) 3).
  vm_compute. reflexivity.
Defined.

(** ** The number of bins *)

Lemma len_discretized_values_spec (x : ndarray) (tx : String.string)
    (f m n : Z) :
  count_unique x = Ok n -> 0 <= f * m ->
  len_discretized_values x tx f m
  = Ok (if numerical tx then Z.min n (2 * f * m + 1) else n).
Proof.
  intros Hn Hk. unfold len_discretized_values, discretized_values.
  rewrite Hn. pose proof Hn as Hs. unfold count_unique in Hs.
  destruct (py_set x) as [s|e]; simpl in Hs; [|discriminate].
  injection Hs as Hs.
  destruct (numerical tx); cbn [rbind].
  - destruct (Z.ltb_spec (2 * f * m + 1) n) as [Hlt|Hge]; cbn [rbind].
    + replace (- f * m) with (- (f * m)) by lia.
      rewrite length_range_symmetric by lia. f_equal. lia.
    + rewrite sorted_length, Hs. f_equal. lia.
  - rewrite sorted_length, Hs. reflexivity.
Qed.

(** X3.  [len_discretized_values] is the smaller of [count_unique(x)] and
    [2*ffactor*maxdev+1] for the numerical type, and [count_unique(x)] for
    any other type: a sequence has never more bins than unique values. *)
Theorem len_discretized_values_min (x : ndarray) (tx : String.string)
    (f m n : Z) :
  count_unique x = Ok n -> 0 <= f * m ->
  len_discretized_values x tx f m
  = Ok (if numerical tx then Z.min n (2 * f * m + 1) else n).
Proof. apply len_discretized_values_spec. Qed.

Lemma len_discretized_values_min_witness :
  len_discretized_values (box (map of_Z [5; 7; 5; 9])) NUMERICAL 2 3
  = Ok (if numerical NUMERICAL then Z.min 3 (2 * 2 * 3 + 1) else 3).
Proof.
  apply (len_discretized_values_min (box (map of_Z [5; 7; 5; 9])) NUMERICAL 2 3 3).
  - vm_compute. reflexivity.
  - lia.
Defined.

Lemma wants_discretization_spec (a : ndarray) (f m n : Z) :
  count_unique a = Ok n -> 0 <= f * m ->
  wants_discretization a NUMERICAL f m true = Ok (2 * f * m + 1 <? n).
Proof.
  intros Hn Hk. unfold wants_discretization.
  change (negb true) with false. change (numerical NUMERICAL) with true.
  cbv iota. rewrite Hn. cbn [rbind].
  rewrite (len_discretized_values_spec a NUMERICAL f m n Hn Hk).
  change (numerical NUMERICAL) with true. cbn [rbind]. f_equal.
  destruct (Z.ltb_spec (2 * f * m + 1) n), (Z.ltb_spec (Z.min n (2 * f * m + 1)) n);
    lia.
Qed.

(** X4.  A sequence with at most [2*ffactor*maxdev+1] unique values is not
    discretized: [discretized_sequence] returns the array it was given,
    the same object, and the store is as it was. *)
Theorem low_cardinality_is_returned_as_is (h : heap) (x : ref) (a : ndarray)
    (f m n : Z) :
  nth_error h x = Some a -> count_unique a = Ok n ->
  0 <= f * m -> n <= 2 * f * m + 1 ->
  discretized_sequence x NUMERICAL f m true h = (Ok x, h).
Proof.
  intros Hx Hn Hk Hle.
  rewrite (discretized_sequence_run _ _ _ _ _ _ _ Hx).
  rewrite (wants_discretization_spec a f m n Hn Hk).
  now replace (2 * f * m + 1 <? n) with false by (symmetry; apply Z.ltb_ge; lia).
Qed.

Lemma low_cardinality_is_returned_as_is_witness :
  discretized_sequence 0%nat NUMERICAL 2 3 true [box (map of_Z [5; 7; 5; 9])]
  = (Ok 0%nat, [box (map of_Z [5; 7; 5; 9])]).
Proof.
  apply (low_cardinality_is_returned_as_is [box (map of_Z [5; 7; 5; 9])] 0%nat
           (box (map of_Z [5; 7; 5; 9])) 2 3 3 eq_refl).
  - vm_compute. reflexivity.
  - lia.
  - lia.
Defined.

(** ** The length of a discretized sequence *)

Lemma discretized_sequence_val_length (a v : ndarray) (tx : String.string)
    (f m : Z) (norm : bool) :
  discretized_sequence_val a tx f m norm = Ok v -> length v = length a.
Proof.
  unfold discretized_sequence_val.
  destruct (wants_discretization a tx f m norm) as [[|]|e]; cbn [rbind];
    try discriminate.
  - destruct (as_floats a) as [x0|e] eqn:E; cbn [rbind]; [|discriminate].
    intros [= <-]. apply as_floats_length in E. rewrite <- E.
    unfold box, discretize, np_round. rewrite !length_map.
    destruct norm; [|reflexivity].
    unfold restandardize, standardize. now rewrite !length_map.
  - now intros [= <-].
Qed.

(** X5.  The array that [discretized_sequence] returns has as many
    elements as the array it was given, on both branches and with or
    without the standardization. *)
Theorem discretized_sequence_keeps_length (h h' : heap) (x r : ref)
    (a : ndarray) (tx : String.string) (f m : Z) (norm : bool) :
  nth_error h x = Some a ->
  discretized_sequence x tx f m norm h = (Ok r, h') ->
  exists v, nth_error h' r = Some v /\ length v = length a.
Proof.
  intros Hx H.
  destruct (discretized_sequence_refines h x a tx f m norm Hx) as [ext R].
  destruct (discretized_sequence_val a tx f m norm) as [v|e] eqn:E.
  - destruct R as [r' [R Hr]]. rewrite R in H. injection H as <- <-.
    exists v. split; [exact Hr|].
    exact (discretized_sequence_val_length _ _ _ _ _ _ E).
  - rewrite R in H. discriminate.
Qed.

Lemma discretized_sequence_keeps_length_witness :
  exists v,
    nth_error [box (ramp 20); box (discretize (ramp 20) 2 3 true)] 1%nat = Some v /\
    length v = length (box (ramp 20)).
Proof.
  apply (discretized_sequence_keeps_length [box (ramp 20)]
           [box (ramp 20); box (discretize (ramp 20) 2 3 true)] 0%nat 1%nat
           (box (ramp 20)) NUMERICAL 2 3 true eq_refl).
  vm_compute. reflexivity.
Defined.

(** ** The bins of a sequence with few unique values *)

(** A float that is a number. *)
Definition number (o : pyobj) : Prop :=
  exists f, o = PyFloat f /\ is_nan f = false.

Lemma number_lt_trans (a b c : pyobj) :
  number a -> number b -> number c ->
  py_lt a b = true -> py_lt b c = true -> py_lt a c = true.
Proof. intros [x [-> _]] [y [-> _]] [z [-> _]]. simpl. apply ltb_trans. Qed.

Lemma number_trichotomy (a b : pyobj) :
  number a -> number b ->
  py_lt a b = false -> py_eq a b = false -> py_lt b a = true.
Proof.
  intros [x [-> Nx]] [y [-> Ny]]. simpl.
  unfold ltb, eqb, SFltb, SFeqb.
  destruct (SFcompare x y) as [c|] eqn:E.
  - rewrite (compare_antisym _ _ _ E). now destruct c.
  - apply compare_nan_iff in E. destruct E; congruence.
Qed.

Definition increasing : list pyobj -> Prop :=
  StronglySorted (fun a b => py_lt a b = true).

Lemma insert_sorted_increasing (o : pyobj) (t : list pyobj) :
  number o -> Forall number t ->
  Forall (fun k => py_eq k o = false) t ->
  increasing t -> increasing (insert_sorted o t).
Proof.
  intros No Nt Hd Hs. induction Hs as [|k t Hs IH Hk]; simpl.
  - constructor; constructor.
  - inversion Nt as [|? ? Nk Nt']; subst. inversion Hd as [|? ? Dk Dt]; subst.
    destruct (py_lt k o) eqn:E.
    + constructor; [now apply IH|].
      apply (Permutation_Forall (Permutation_sym (insert_sorted_perm o t))).
      constructor; assumption.
    + assert (Lo : py_lt o k = true) by (apply number_trichotomy; auto).
      constructor; [now constructor|].
      constructor; [exact Lo|].
      rewrite Forall_forall in Hk, Nt'. apply Forall_forall. intros z Hz.
      apply (number_lt_trans o k z); auto.
Qed.

(** Members that are pairwise different. *)
Fixpoint pairwise_distinct (s : list pyobj) : Prop :=
  match s with
  | [] => True
  | k :: r => Forall (fun k' => py_eq k k' = false) r /\ pairwise_distinct r
  end.

Lemma sorted_increasing (s : list pyobj) :
  Forall number s -> pairwise_distinct s -> increasing (sorted s).
Proof.
  induction s as [|o s IH]; simpl; intros Hn Hd; [constructor|].
  inversion Hn as [|? ? No Ns]; subst. destruct Hd as [Ho Hd].
  apply insert_sorted_increasing; auto.
  - exact (Permutation_Forall (Permutation_sym (sorted_perm s)) Ns).
  - apply (Permutation_Forall (Permutation_sym (sorted_perm s))).
    rewrite Forall_forall in Ho, Ns. apply Forall_forall. intros k Hk.
    specialize (Ho k Hk). specialize (Ns k Hk).
    destruct No as [x [-> _]], Ns as [y [-> _]]. simpl in *.
    now rewrite eqb_sym.
Qed.

Lemma set_add_distinct (s : list pyobj) (o : pyobj) :
  pairwise_distinct s -> pairwise_distinct (set_add s o).
Proof.
  unfold set_add. destruct (existsb (fun k => py_eq k o) s) eqn:E; [auto|].
  intros Hd. induction s as [|k s IH]; simpl.
  - split; [constructor|exact I].
  - simpl in E. apply orb_false_iff in E as [Ek Es]. destruct Hd as [Hk Hd].
    split; [|now apply IH].
    apply Forall_app. split; [exact Hk|]. constructor; [exact Ek|constructor].
Qed.

Lemma set_add_incl (s : list pyobj) (o k : pyobj) :
  In k (set_add s o) -> In k s \/ k = o.
Proof.
  unfold set_add. destruct (existsb _ s); [auto|].
  intros H. apply in_app_or in H as [H|[H|[]]]; auto.
Qed.

Lemma set_add_keeps (s : list pyobj) (o k : pyobj) : In k s -> In k (set_add s o).
Proof.
  unfold set_add. destruct (existsb _ s); [auto|]. intros H.
  apply in_or_app. now left.
Qed.

Lemma set_add_covers (s : list pyobj) (o : pyobj) :
  py_eq o o = true -> exists k, In k (set_add s o) /\ py_eq k o = true.
Proof.
  intros Ho. unfold set_add.
  destruct (existsb (fun k => py_eq k o) s) eqn:E.
  - apply existsb_exists in E. exact E.
  - exists o. split; [|exact Ho]. apply in_or_app. right. now left.
Qed.

Lemma set_update_spec (x : ndarray) (s s' : list pyobj) :
  set_update s x = Ok s' ->
  (pairwise_distinct s -> pairwise_distinct s') /\
  (forall k, In k s -> In k s') /\
  (forall k, In k s' -> In k s \/ In k x) /\
  (forall o, In o x -> py_eq o o = true ->
     exists k, In k s' /\ py_eq k o = true).
Proof.
  revert s. induction x as [|o x IH]; intros s; simpl.
  - intros [= <-]. repeat split; auto. intros o [].
  - destruct (py_hashable o); [|discriminate]. intros H.
    destruct (IH _ H) as [Hd [Hk [Hi Hc]]]. repeat split.
    + intros D. apply Hd. now apply set_add_distinct.
    + intros k Hin. apply Hk. now apply set_add_keeps.
    + intros k Hin. destruct (Hi k Hin) as [Hs|Hx]; [|auto].
      apply set_add_incl in Hs as [Hs| ->]; auto.
    + intros o' [<-|Hin] Ho'; [|now apply Hc].
      destruct (set_add_covers s o Ho') as [k [Hin Hk']].
      exists k. split; [now apply Hk|exact Hk'].
Qed.

Lemma floats_are_boxed (l : list pyobj) :
  Forall is_float l -> exists fs, l = box fs.
Proof.
  induction 1 as [|o l [f ->] Hl [fs ->]]; [now exists []|].
  now exists (f :: fs).
Qed.

Lemma increasing_box (fs : list float) :
  increasing (box fs) -> StronglySorted (fun a b => ltb a b = true) fs.
Proof.
  induction fs as [|f fs IH]; intros H; [constructor|].
  inversion H as [|? ? Hs Hf]; subst. constructor; [now apply IH|].
  unfold box in Hf. now rewrite Forall_map in Hf.
Qed.

Lemma low_cardinality_bins (xs : list float) (tx : String.string) (f m n : Z) :
  Forall (fun e => is_nan e = false) xs ->
  count_unique (box xs) = Ok n ->
  numerical tx && (2 * f * m + 1 <? n) = false ->
  exists bins,
    discretized_values (box xs) tx f m = Ok (box bins) /\
    Z.of_nat (length bins) = n /\
    StronglySorted (fun a b => ltb a b = true) bins /\
    (forall b, In b bins -> In b xs) /\
    (forall e, In e xs -> exists b, In b bins /\ eqb b e = true).
Proof.
  intros Hx Hn Hc. unfold discretized_values. rewrite Hn.
  unfold count_unique in Hn.
  destruct (py_set (box xs)) as [s|e] eqn:Hs; simpl in Hn; [|discriminate].
  injection Hn as Hn.
  assert (Hb : (c <~ (if numerical tx
                      then n0 <~ Ok n ;; Ok (2 * f * m + 1 <? n0) else Ok false) ;;
                if c then Ok (map PyInt (py_range (- f * m) (f * m + 1)))
                else s0 <~ Ok s ;; Ok (sorted s0)) = Ok (sorted s)).
  { destruct (numerical tx); cbn [andb] in Hc; cbn [rbind]; [rewrite Hc|];
      reflexivity. }
  rewrite Hb. clear Hb.
  destruct (set_update_spec (box xs) [] s Hs) as [Hd [_ [Hi Hcov]]].
  assert (Hin : forall k, In k s -> exists e, k = PyFloat e /\ In e xs).
  { intros k Hk. destruct (Hi k Hk) as [[]|H].
    unfold box in H. apply in_map_iff in H as [e [<- He]]. now exists e. }
  assert (Ns : Forall number s).
  { apply Forall_forall. intros k Hk. destruct (Hin k Hk) as [e [-> He]].
    exists e. split; [reflexivity|]. rewrite Forall_forall in Hx. now apply Hx. }
  assert (Fs : Forall is_float (sorted s)).
  { apply (Permutation_Forall (Permutation_sym (sorted_perm s))).
    eapply Forall_impl; [|exact Ns]. intros k [e [-> _]]. now exists e. }
  destruct (floats_are_boxed _ Fs) as [bins Hbins].
  exists bins. rewrite Hbins. split; [reflexivity|].
  assert (Hmem : forall b, In b bins <-> In (PyFloat b) s).
  { intros b. split; intros H.
    - apply (Permutation_in _ (sorted_perm s)). rewrite Hbins.
      unfold box. now apply in_map.
    - apply (Permutation_in _ (Permutation_sym (sorted_perm s))) in H.
      rewrite Hbins in H. unfold box in H.
      apply in_map_iff in H as [b' [[= ->] H]]. exact H. }
  split; [|split; [|split]].
  - rewrite <- Hn, <- (sorted_length s), Hbins. unfold box. now rewrite length_map.
  - apply increasing_box. rewrite <- Hbins.
    apply sorted_increasing; [exact Ns|]. now apply Hd.
  - intros b Hb. apply Hmem in Hb. destruct (Hin _ Hb) as [e [[= ->] He]]. exact He.
  - intros e He.
    destruct (Hcov (PyFloat e)) as [k [Hk Hke]].
    + unfold box. now apply in_map.
    + simpl. apply eqb_refl. rewrite Forall_forall in Hx. now apply Hx.
    + destruct (Hin k Hk) as [b [-> _]]. exists b. split; [|exact Hke].
      now apply Hmem.
Qed.

(** X6.  For a sequence of numbers with at most [2*ffactor*maxdev+1]
    unique values, or of a type that is not numerical,
    [discretized_values] returns [count_unique(x)] bins in strictly
    increasing order; every bin is an element of the sequence and every
    element of the sequence is equal to one of the bins. *)
Theorem discretized_values_sorted_cover (xs : list float) (tx : String.string)
    (f m n : Z) :
  Forall (fun e => is_nan e = false) xs ->
  count_unique (box xs) = Ok n ->
  numerical tx && (2 * f * m + 1 <? n) = false ->
  exists bins,
    discretized_values (box xs) tx f m = Ok (box bins) /\
    Z.of_nat (length bins) = n /\
    StronglySorted (fun a b => ltb a b = true) bins /\
    (forall b, In b bins -> In b xs) /\
    (forall e, In e xs -> exists b, In b bins /\ eqb b e = true).
Proof. apply low_cardinality_bins. Qed.

Lemma discretized_values_sorted_cover_witness :
  exists bins,
    discretized_values (box (map of_Z [5; 7; 5; 9])) NUMERICAL 2 3 = Ok (box bins) /\
    Z.of_nat (length bins) = 3 /\
    StronglySorted (fun a b => ltb a b = true) bins /\
    (forall b, In b bins -> In b (map of_Z [5; 7; 5; 9])) /\
    (forall e, In e (map of_Z [5; 7; 5; 9]) -> exists b, In b bins /\ eqb b e = true).
Proof.
  apply (discretized_values_sorted_cover (map of_Z [5; 7; 5; 9]) NUMERICAL 2 3 3).
  - repeat constructor.
  - vm_compute. reflexivity.
  - vm_compute. reflexivity.
Defined.

(** * The rows of [pyx] *)

Import F64Facts Rounding Arith Exact.

(** ** One row for each bin with enough samples *)

(** The items of [cx] whose count exceeds [minc]. *)
Definition qualifying (self : CDS) (cx : counter) : counter :=
  filter (fun kv => minc self <? snd kv) cx.

Section Rows.

Variable self : CDS.

Lemma for_each_val_rows (xdv yv : ndarray) (yrange : list pyobj)
    (py : list float) (cx : counter) (acc pyx : list (list float)) :
  for_each_val (cds_loop_body_val self xdv yv yrange py) acc cx = Ok pyx ->
  length pyx = (length acc + length (qualifying self cx))%nat.
Proof.
  revert acc. induction cx as [|[a n] cx IH]; intros acc; simpl.
  - intros [= <-]. lia.
  - destruct (minc self <? n) eqn:Hq.
    + destruct (conditional_histogram_val self xdv yv yrange py a) as [pyxa|e];
        cbn [rbind]; [|discriminate].
      destruct (eqb (np_sum pyxa) (of_Z n)); cbn [rbind]; [|discriminate].
      intros H. rewrite (IH _ H), length_app. simpl. lia.
    + cbn [rbind]. intros H. rewrite (IH _ H). lia.
Qed.

Lemma qualifying_bound (cx : counter) :
  Forall (fun kv => 1 <= snd kv) cx ->
  Z.of_nat (length (qualifying self cx)) * (minc self + 1) <= counter_total cx.
Proof.
  induction 1 as [|[a n] cx Hn Hcx IH]; simpl; [lia|].
  simpl in Hn. destruct (Z.ltb_spec (minc self) n); simpl length; nia.
Qed.

Lemma rows_bound (xdv yv : ndarray) (yrange : list pyobj) (py : list float)
    (cx : counter) (pyx : list (list float)) :
  Counter xdv = Ok cx ->
  for_each_val (cds_loop_body_val self xdv yv yrange py) [] cx = Ok pyx ->
  length pyx = length (qualifying self cx) /\
  Z.of_nat (length pyx) * (minc self + 1) <= Z.of_nat (length xdv).
Proof.
  intros Hcx H. apply for_each_val_rows in H. simpl in H.
  split; [exact H|]. rewrite H.
  pose proof (Counter_counts _ _ Hcx) as Hc.
  assert (Hp : Forall (fun kv => 1 <= snd kv) cx).
  { eapply Forall_impl; [|exact Hc]. simpl. intros; lia. }
  pose proof (qualifying_bound cx Hp) as B.
  unfold Counter in Hcx. apply counter_update_total in Hcx. simpl in Hcx. lia.
Qed.

(** ** All rows have one length *)

Lemma py_index_bound (l : list float) (v : float) (i : Z) :
  py_index l v = Ok i -> 0 <= i < Z.of_nat (length l).
Proof.
  revert i. induction l as [|e l IH]; intros i; simpl; [discriminate|].
  destruct (is_or_eq e v).
  - intros [= <-]. lia.
  - destruct (py_index l v) as [j|x]; cbn [rbind]; [|discriminate].
    intros [= <-]. specialize (IH j eq_refl). lia.
Qed.

Lemma align_inv (py : list float) (ny : Z) (pyxa : list Z) (r : list float) :
  ny = Z.of_nat (length pyxa) -> align py ny pyxa = Ok r ->
  1 <= ny /\ exists imax, 0 <= imax <= 2 * ny - 2 /\ r = repad ny imax pyxa.
Proof.
  intros Hny. unfold align, best_offset.
  set (xcorr := cross_correlation py ny (pad ny pyxa)).
  assert (L : length xcorr = Z.to_nat (2 * ny - 1 - 0)).
  { unfold xcorr, cross_correlation. now rewrite length_map, length_py_range. }
  destruct (py_max xcorr) as [m|e] eqn:Hm; cbn [rbind]; [|discriminate].
  destruct (py_index xcorr m) as [imax|e] eqn:Hi; cbn [rbind]; [|discriminate].
  intros [= <-]. apply py_index_bound in Hi. rewrite L in Hi.
  assert (1 <= ny) by lia.
  split; [assumption|]. exists imax. split; [lia|reflexivity].
Qed.

Lemma align_ok (py : list float) (ny : Z) (pyxa : list Z) :
  ny = Z.of_nat (length pyxa) -> 1 <= ny ->
  exists imax, 0 <= imax <= 2 * ny - 2 /\ align py ny pyxa = Ok (repad ny imax pyxa).
Proof.
  intros Hny Hpos. unfold align, best_offset.
  set (xcorr := cross_correlation py ny (pad ny pyxa)).
  assert (L : length xcorr = Z.to_nat (2 * ny - 1 - 0)).
  { unfold xcorr, cross_correlation. now rewrite length_map, length_py_range. }
  assert (Hne : xcorr <> []).
  { intros E. assert (L0 : length xcorr = 0%nat) by (now rewrite E). lia. }
  destruct (py_max_spec xcorr Hne) as [m [Hm [Hin _]]].
  destruct (py_index_spec xcorr m) as [imax [Hi [Hr _]]].
  { exists m. split; [exact Hin|apply is_or_eq_refl]. }
  rewrite Hm. cbn [rbind]. rewrite Hi. cbn [rbind].
  exists imax. split; [lia|reflexivity].
Qed.

(** The length the rows of one call have. *)
Definition row_length (yv : ndarray) (yrange : list pyobj) (r : list float)
    : Prop :=
  match continuous self yv with
  | Ok true =>
      len_discretized_values yv NUMERICAL (ffactor self) (maxdev self)
      = Ok (Z.of_nat (length r))
  | _ => Z.of_nat (length r) = 3 * Z.of_nat (length yrange) - 2
  end.

Lemma conditional_histogram_length (xdv yv : ndarray) (yrange : list pyobj)
    (py : list float) (a : pyobj) (pyxa : list float) :
  conditional_histogram_val self xdv yv yrange py a = Ok pyxa ->
  row_length yv yrange pyxa.
Proof.
  unfold conditional_histogram_val, row_length.
  destruct (getitem_mask yv _) as [yx|e]; cbn [rbind]; [|discriminate].
  destruct (continuous self yv) as [[|]|e]; cbn [rbind]; [| |discriminate].
  - destruct (as_floats yx) as [yx0|e]; cbn [rbind]; [|discriminate].
    destruct (as_floats yv) as [y0|e]; cbn [rbind]; [|discriminate].
    rewrite discretized_sequence_val_no_norm. cbn [rbind].
    rewrite as_floats_box. cbn [rbind].
    destruct (Counter _) as [cyx|e]; cbn [rbind]; [|discriminate].
    unfold len_discretized_values.
    destruct (discretized_values _ _ _ _) as [dv|e]; cbn [rbind]; [|discriminate].
    intros [= <-]. now rewrite length_map.
  - destruct (Counter yx) as [cyx|e]; cbn [rbind]; [|discriminate].
    intros H. apply align_inv in H; [|now rewrite length_map].
    destruct H as [Hpos [imax [Hi ->]]].
    apply repad_length; auto. now rewrite length_map.
Qed.

Lemma for_each_val_row_length (xdv yv : ndarray) (yrange : list pyobj)
    (py : list float) (cx : counter) (acc pyx : list (list float)) :
  Forall (row_length yv yrange) acc ->
  for_each_val (cds_loop_body_val self xdv yv yrange py) acc cx = Ok pyx ->
  Forall (row_length yv yrange) pyx.
Proof.
  revert acc. induction cx as [|[a n] cx IH]; intros acc Hacc; simpl.
  - now intros [= <-].
  - destruct (minc self <? n).
    + destruct (conditional_histogram_val self xdv yv yrange py a) as [pyxa|e] eqn:Hh;
        cbn [rbind]; [|discriminate].
      destruct (eqb (np_sum pyxa) (of_Z n)); cbn [rbind]; [|discriminate].
      apply IH. apply Forall_app. split; [exact Hacc|].
      constructor; [|constructor].
      apply conditional_histogram_length in Hh.
      unfold row_length, normalize in *. now rewrite length_map.
    + cbn [rbind]. now apply IH.
Qed.

End Rows.

(** X7.  The loop of [cds_score] appends one row to [pyx] for each bin of
    the cause whose count exceeds [minc], and nothing else: when it ends,
    [pyx] has as many rows as there are such bins, and [minc+1] times that
    number is at most the number of samples. *)
Theorem one_row_per_qualifying_bin (self : CDS) (xdv yv : ndarray)
    (yrange : list pyobj) (py : list float) (cx : counter)
    (pyx : list (list float)) :
  Counter xdv = Ok cx ->
  for_each_val (cds_loop_body_val self xdv yv yrange py) [] cx = Ok pyx ->
  length pyx = length (qualifying self cx) /\
  Z.of_nat (length pyx) * (minc self + 1) <= Z.of_nat (length xdv).
Proof. apply rows_bound. Qed.

(** The counter of [two_causes], the bins and the marginal distribution
    of [three_effects], and the rows the loop builds from them. *)
Definition two_causes_counter : counter :=
  [(PyFloat (of_Z 0), 26); (PyFloat (of_Z 1), 26)].

Definition three_effects_range : list pyobj :=
  Eval vm_compute in
    match Counter (box three_effects) with
    | Ok cy => sorted (keys cy)
    | Raise _ => []
    end.

Definition three_effects_marginal : list float :=
  Eval vm_compute in
    match Counter (box three_effects) with
    | Ok cy => marginal cy (sorted (keys cy))
    | Raise _ => []
    end.

Definition two_causes_rows : list (list float) :=
  Eval vm_compute in
    match for_each_val
            (cds_loop_body_val CDS_default (box two_causes) (box three_effects)
               three_effects_range three_effects_marginal) [] two_causes_counter
    with
    | Ok pyx => pyx
    | Raise _ => []
    end.

Lemma one_row_per_qualifying_bin_witness :
  length two_causes_rows = length (qualifying CDS_default two_causes_counter) /\
  Z.of_nat (length two_causes_rows) * (minc CDS_default + 1)
  <= Z.of_nat (length (box two_causes)).
Proof.
  apply (one_row_per_qualifying_bin CDS_default (box two_causes)
           (box three_effects) three_effects_range three_effects_marginal
           two_causes_counter two_causes_rows).
  - vm_compute. reflexivity.
  - vm_compute. reflexivity.
Defined.

(** X8.  The rows of [pyx] built by one call of [cds_score] all have the
    same length, so that [np.array(pyx)] is a matrix: the number of bins
    of [len_discretized_values(y_te)] on the continuous path, and
    [3*ny-2] on the alignment path. *)
Theorem rows_have_one_length (self : CDS) (xdv yv : ndarray)
    (yrange : list pyobj) (py : list float) (cx : counter)
    (pyx : list (list float)) :
  for_each_val (cds_loop_body_val self xdv yv yrange py) [] cx = Ok pyx ->
  Forall (row_length self yv yrange) pyx.
Proof. apply for_each_val_row_length. constructor. Qed.

Lemma rows_have_one_length_witness :
  Forall (row_length CDS_default (box three_effects) three_effects_range)
         two_causes_rows.
Proof.
  apply (rows_have_one_length CDS_default (box two_causes) (box three_effects)
           three_effects_range three_effects_marginal two_causes_counter
           two_causes_rows).
  vm_compute. reflexivity.
Defined.

(** ** The comparator on one sequence *)

Lemma sub_self (K : Z) (v : float) :
  finite_below K v -> sub v v = S754_zero false.
Proof.
  destruct v as [s|s| |s m e]; simpl; try tauto; intros _.
  - now destruct s.
  - unfold sub, SFsub. now rewrite Z.min_id, Z.sub_diag.
Qed.

(** X9.  [predict_proba(a, a)], whenever it returns, returns exactly
    [0.0]: the score of a sequence against itself is a finite number,
    subtracted from itself. *)
Theorem comparator_of_a_sequence_with_itself (self : CDS) (a : ref)
    (av : ndarray) (h : heap) (s : float) :
  nth_error h a = Some av -> Z.of_nat (length av) < 2 ^ 63 ->
  fst (predict_proba self a a h) = Ok s -> s = S754_zero false.
Proof.
  intros Ha HN H.
  rewrite (computes_fst _ _ _ (predict_proba_run self h a a av av Ha Ha)) in H.
  unfold predict_proba_val in H.
  destruct (cds_score_val self av av) as [u|e] eqn:Hu; cbn [rbind] in H;
    [|discriminate].
  injection H as <-.
  destruct (cds_score_val_finite self av av u HN Hu) as [Fu _].
  exact (sub_self 600 u Fu).
Qed.

Lemma comparator_of_a_sequence_with_itself_witness :
  S754_zero false = S754_zero false.
Proof.
  apply (comparator_of_a_sequence_with_itself CDS_default 1%nat
           (box three_effects) two_causes_heap (S754_zero false) eq_refl).
  - vm_compute. reflexivity.
  - vm_compute. reflexivity.
Defined.

(** * The histograms over the bins of a sequence with few unique values *)

Import F64Facts Rounding Arith Exact.

Lemma number_is_float (o : pyobj) : number o -> is_float o.
Proof. intros [f [-> _]]. now exists f. Qed.

Lemma number_eq_refl (o : pyobj) : number o -> py_eq o o = true.
Proof. intros [f [-> N]]. simpl. now apply eqb_refl. Qed.

Lemma zsum_perm (a b : list Z) : Permutation a b -> zsum a = zsum b.
Proof. induction 1; simpl; lia. Qed.

Lemma zsum_zeros {A} (f : A -> Z) (l : list A) :
  (forall k, In k l -> f k = 0) -> zsum (map f l) = 0.
Proof.
  induction l as [|k l IH]; simpl; intros H; [reflexivity|].
  rewrite (H k (or_introl eq_refl)), IH; [reflexivity|].
  intros k' Hk'. apply H. now right.
Qed.

(** An object that is equal to one of the pairwise different members of
    [s] is equal to one of them only. *)
Lemma indicator_one (s : list pyobj) (o : pyobj) :
  pairwise_distinct s -> Forall number s -> number o ->
  (exists k, In k s /\ py_eq k o = true) ->
  zsum (map (fun k => if py_eq o k then 1 else 0) s) = 1.
Proof.
  intros Hd Hs No. induction Hs as [|k s Nk Ns IH]; intros [k0 [Hin Hk0]];
    [destruct Hin|].
  destruct Hd as [Hk Hd]. simpl.
  pose proof (number_is_float _ No) as Fo.
  pose proof (number_is_float _ Nk) as Fk.
  destruct (py_eq o k) eqn:E.
  - rewrite zsum_zeros; [reflexivity|].
    intros k' Hk'. destruct (py_eq o k') eqn:E'; [|reflexivity].
    rewrite Forall_forall in Hk, Ns.
    pose proof (number_is_float _ (Ns k' Hk')) as Fk'.
    specialize (Hk k' Hk').
    rewrite (is_float_trans k o k') in Hk; auto; [discriminate|].
    now rewrite is_float_sym.
  - destruct Hin as [<-|Hin].
    + rewrite is_float_sym in Hk0 by assumption. congruence.
    + rewrite IH; [reflexivity|exact Hd|]. now exists k0.
Qed.

(** The counts of the elements of [l] over members that are pairwise
    different and cover [l] add up to the length of [l]. *)
Lemma count_cover (l s : list pyobj) :
  pairwise_distinct s -> Forall number s -> Forall number l ->
  (forall o, In o l -> exists k, In k s /\ py_eq k o = true) ->
  zsum (map (fun k => count_eq l k) s) = Z.of_nat (length l).
Proof.
  intros Hd Hs Hl. induction Hl as [|o l No Nl IH]; intros Hc.
  - simpl. rewrite zsum_zeros; [reflexivity|]. reflexivity.
  - cbn [count_eq length].
    rewrite (zsum_map_add (fun k => if py_eq o k then 1 else 0)
               (fun k => count_eq l k)).
    rewrite indicator_one; auto.
    + rewrite IH; [lia|]. intros o' Ho'. apply Hc. now right.
    + apply Hc. now left.
Qed.

(** The keys of the counter of a sequence of numbers. *)
Lemma Counter_keys_spec (ys : list float) (cy : counter) :
  Forall (fun e => is_nan e = false) ys -> Counter (box ys) = Ok cy ->
  pairwise_distinct (keys cy) /\ Forall number (keys cy) /\
  (forall o, In o (box ys) -> exists k, In k (keys cy) /\ py_eq k o = true).
Proof.
  intros Hy Hcy.
  pose proof (counter_update_set_update (box ys) []) as Hs.
  change (counter_update [] (box ys)) with (Counter (box ys)) in Hs.
  rewrite Hcy in Hs. cbn [rbind keys map] in Hs.
  destruct (set_update_spec _ _ _ Hs) as [Hd [_ [Hi Hc]]].
  assert (Nb : Forall number (box ys)).
  { unfold box. rewrite Forall_map. eapply Forall_impl; [|exact Hy].
    intros e He. now exists e. }
  split; [now apply Hd|]. split.
  - apply Forall_forall. intros k Hk. destruct (Hi k Hk) as [[]|H].
    rewrite Forall_forall in Nb. now apply Nb.
  - intros o Ho. apply Hc; [exact Ho|].
    rewrite Forall_forall in Nb. now apply number_eq_refl, Nb.
Qed.

Lemma zsum_repeat_zero (n : Z) : zsum (py_repeat 0 n) = 0.
Proof. unfold py_repeat. induction (Z.to_nat n); simpl; lia. Qed.

(** The histogram of [l] over the sorted keys of [cy] and its total. *)
Lemma histogram_total (ys : list float) (cy c : counter) (l : list float) :
  Forall (fun e => is_nan e = false) ys -> Counter (box ys) = Ok cy ->
  (forall e, In e l -> In e ys) -> Counter (box l) = Ok c ->
  map (fun i => counter_get c i) (sorted (keys cy))
  = map (fun i => count_eq (box l) i) (sorted (keys cy)) /\
  zsum (map (fun i => count_eq (box l) i) (sorted (keys cy)))
  = Z.of_nat (length l).
Proof.
  intros Hy Hcy Hl Hc.
  destruct (Counter_keys_spec ys cy Hy Hcy) as [Hd [Hn Hcov]].
  split.
  - apply map_ext_in. intros i Hi.
    apply (Counter_get is_float is_float_hashable is_float_sym is_float_trans);
      auto using box_is_float.
    apply (Permutation_in _ (sorted_perm (keys cy))) in Hi.
    rewrite Forall_forall in Hn. now apply number_is_float, Hn.
  - rewrite (zsum_perm _ (map (fun i => count_eq (box l) i) (keys cy)))
      by (apply Permutation_map, sorted_perm).
    rewrite count_cover; auto.
    + unfold box. now rewrite length_map.
    + unfold box. rewrite Forall_map. apply Forall_forall. intros e He.
      exists e. split; [reflexivity|].
      rewrite Forall_forall in Hy. now apply Hy, Hl.
    + intros o Ho. apply Hcov. unfold box in *.
      apply in_map_iff in Ho as [e [<- He]]. apply in_map. now apply Hl.
Qed.

Lemma marginal_spec (ys : list float) (cy : counter) :
  Forall (fun e => is_nan e = false) ys ->
  Z.of_nat (length ys) < 2 ^ 53 ->
  Counter (box ys) = Ok cy ->
  marginal cy (sorted (keys cy))
  = map (fun i => div (of_Z (count_eq (box ys) i)) (of_Z (Z.of_nat (length ys))))
        (sorted (keys cy)).
Proof.
  intros Hy HN Hcy.
  destruct (histogram_total ys cy cy ys Hy Hcy (fun e H => H) Hcy) as [Hm Ht].
  unfold marginal, normalize.
  rewrite <- (map_map (fun i => counter_get cy i) of_Z).
  rewrite Hm. rewrite np_sum_of_Z.
  - rewrite Ht. now rewrite !map_map.
  - apply Forall_map. apply Forall_forall. intros i _. apply count_eq_nonneg.
  - rewrite Ht. exact HN.
Qed.

(** X10.  For a sequence [y] of fewer than [2^53] numbers, none of them
    NaN, the marginal distribution [py] of [cds_score] over the sorted
    keys of [Counter(y)] is, for each key, the number of elements of [y]
    equal to the key divided by [len(y)]: the total [py.sum()] is exactly
    [len(y)]. *)
Theorem marginal_is_count_over_length (ys : list float) (cy : counter) :
  forallb (fun e => negb (is_nan e)) ys = true ->
  Z.of_nat (length ys) < 2 ^ 53 ->
  Counter (box ys) = Ok cy ->
  np_sum (map (fun i => of_Z (counter_get cy i)) (sorted (keys cy)))
  = of_Z (Z.of_nat (length ys)) /\
  marginal cy (sorted (keys cy))
  = map (fun i => div (of_Z (count_eq (box ys) i)) (of_Z (Z.of_nat (length ys))))
        (sorted (keys cy)).
Proof.
  intros Hb HN Hcy.
  assert (Hy : Forall (fun e => is_nan e = false) ys).
  { rewrite forallb_forall in Hb. apply Forall_forall. intros e He.
    specialize (Hb e He). now destruct (is_nan e). }
  split; [|now apply marginal_spec].
  destruct (histogram_total ys cy cy ys Hy Hcy (fun e H => H) Hcy) as [Hm Ht].
  rewrite <- (map_map (fun i => counter_get cy i) of_Z), Hm, np_sum_of_Z.
  - now rewrite Ht.
  - apply Forall_map. apply Forall_forall. intros i _. apply count_eq_nonneg.
  - rewrite Ht. exact HN.
Qed.

Definition three_effects_counter : counter :=
  Eval vm_compute in
    match Counter (box three_effects) with
    | Ok cy => cy
    | Raise _ => []
    end.

Lemma marginal_is_count_over_length_witness :
  np_sum (map (fun i => of_Z (counter_get three_effects_counter i))
              (sorted (keys three_effects_counter)))
  = of_Z (Z.of_nat (length three_effects)) /\
  marginal three_effects_counter (sorted (keys three_effects_counter))
  = map (fun i => div (of_Z (count_eq (box three_effects) i))
                      (of_Z (Z.of_nat (length three_effects))))
        (sorted (keys three_effects_counter)).
Proof.
  apply (marginal_is_count_over_length three_effects three_effects_counter).
  - vm_compute. reflexivity.
  - vm_compute. reflexivity.
  - vm_compute. reflexivity.
Defined.

(** ** The count check of the alignment path *)

Section LowCardinality.

Variable self : CDS.
Variable ys : list float.
Variable n0 : Z.

Hypothesis ys_length : Z.of_nat (length ys) < 2 ^ 53.
Hypothesis range_nonneg : 0 <= ffactor self * maxdev self.
Hypothesis ys_unique : count_unique (box ys) = Ok n0.
Hypothesis ys_few : n0 <= 2 * ffactor self * maxdev self + 1.
Hypothesis ys_numbers : Forall (fun e => is_nan e = false) ys.

Lemma continuous_few : continuous self (box ys) = Ok false.
Proof.
  unfold continuous. rewrite ys_unique. cbn [rbind].
  rewrite (len_discretized_values_spec _ NUMERICAL _ _ n0 ys_unique range_nonneg).
  change (numerical NUMERICAL) with true. cbn [rbind]. f_equal.
  apply Z.ltb_ge. lia.
Qed.

Lemma few_is_not_discretized :
  discretized_sequence_val (box ys) NUMERICAL (ffactor self) (maxdev self) true
  = Ok (box ys).
Proof.
  unfold discretized_sequence_val.
  rewrite (wants_discretization_spec _ _ _ n0 ys_unique range_nonneg).
  replace (2 * ffactor self * maxdev self + 1 <? n0) with false
    by (symmetry; apply Z.ltb_ge; lia).
  reflexivity.
Qed.

Variable cy : counter.
Hypothesis ys_counter : Counter (box ys) = Ok cy.

Lemma aligned_histogram (xd : list float) (py : list float) (a : float) :
  length xd = length ys -> ys <> [] ->
  exists pyxa,
    conditional_histogram_val self (box xd) (box ys) (sorted (keys cy)) py
      (PyFloat a) = Ok pyxa /\
    np_sum pyxa = of_Z (count_eq (box xd) (PyFloat a)).
Proof.
  intros Hlen Hne.
  unfold conditional_histogram_val.
  rewrite getitem_mask_box by (unfold box; now rewrite !length_map).
  cbn [rbind]. rewrite continuous_few. cbn [rbind].
  set (yx := select ys (map (fun e => py_eq e (PyFloat a)) (box xd))).
  destruct (counter_update_ok is_float is_float_hashable (box yx) []
              (box_is_float yx)) as [cyx Hcyx].
  change (counter_update [] (box yx)) with (Counter (box yx)) in Hcyx.
  rewrite Hcyx. cbn [rbind].
  assert (Hsub : forall e, In e yx -> In e ys).
  { assert (F : Forall (fun e => In e ys) yx).
    { unfold yx. apply select_Forall. apply Forall_forall. auto. }
    rewrite Forall_forall in F. exact F. }
  destruct (histogram_total ys cy cyx yx ys_numbers ys_counter Hsub Hcyx)
    as [Hm Ht].
  rewrite Hm.
  set (yrange := sorted (keys cy)) in *.
  set (pyxa := map (fun i => count_eq (box yx) i) yrange) in *.
  assert (Hny : Z.of_nat (length yrange) = Z.of_nat (length pyxa))
    by (unfold pyxa; now rewrite length_map).
  assert (Hpos : 1 <= Z.of_nat (length yrange)).
  { destruct (Counter_keys_spec ys cy ys_numbers ys_counter) as [_ [_ Hcov]].
    destruct ys as [|e ys']; [congruence|].
    destruct (Hcov (PyFloat e) (or_introl eq_refl)) as [k [Hk _]].
    assert (Hk' : In k yrange)
      by (apply (Permutation_in _ (Permutation_sym (sorted_perm (keys cy)))); exact Hk).
    destruct yrange; [destruct Hk'|]. simpl length. lia. }
  destruct (align_ok py (Z.of_nat (length yrange)) pyxa Hny Hpos)
    as [imax [Hi Ha]].
  rewrite Ha. eexists. split; [reflexivity|].
  unfold repad.
  assert (Hlen_yx : Z.of_nat (length yx) = count_eq (box xd) (PyFloat a)).
  { unfold yx. apply select_count. unfold box. now rewrite length_map. }
  assert (Hle : (length yx <= length ys)%nat).
  { pose proof (getitem_mask_length (box ys)
                  (map (fun e => py_eq e (PyFloat a)) (box xd)) (box yx)) as G.
    unfold yx in G at 1.
    rewrite getitem_mask_box in G by (unfold box; now rewrite !length_map).
    specialize (G eq_refl). unfold box in G. now rewrite !length_map in G. }
  assert (Hz : zsum (py_repeat 0 (2 * Z.of_nat (length yrange) - 2 - imax)
                     ++ pyxa ++ py_repeat 0 imax) = Z.of_nat (length yx)).
  { rewrite !zsum_app, !zsum_repeat_zero. lia. }
  rewrite np_sum_of_Z.
  - rewrite Hz. now f_equal.
  - apply Forall_app. split; [|apply Forall_app; split].
    + apply Forall_forall. intros z Hz'. apply repeat_spec in Hz'. lia.
    + apply Forall_map. apply Forall_forall. intros i _. apply count_eq_nonneg.
    + apply Forall_forall. intros z Hz'. apply repeat_spec in Hz'. lia.
  - rewrite Hz. lia.
Qed.

Hypothesis minc_pos : 1 <= minc self.

Lemma aligned_loop_body (xd : list float) (cx : counter) (py : list float)
    (pyx : list (list float)) (item : pyobj * Z) :
  length xd = length ys -> Counter (box xd) = Ok cx -> In item cx ->
  exists pyx',
    cds_loop_body_val self (box xd) (box ys) (sorted (keys cy)) py pyx item
    = Ok pyx'.
Proof.
  intros Hlen Hcx Hin. destruct item as [key n].
  destruct (Counter_items is_float is_float_hashable is_float_sym is_float_trans
              (box xd) cx key n (box_is_float xd) Hcx Hin) as [[a ->] Hn].
  unfold cds_loop_body_val.
  destruct (Z.ltb_spec (minc self) n) as [Hq|Hq]; [|now eexists].
  destruct (py_eq (PyFloat a) (PyFloat a)); [|lia].
  assert (Hne : ys <> []).
  { intros E. rewrite E in Hlen. destruct xd; [|discriminate].
    simpl in Hn. lia. }
  destruct (aligned_histogram xd py a Hlen Hne) as [pyxa [-> Hsum]].
  cbn [rbind]. rewrite Hsum, Hn.
  rewrite eqb_refl by apply of_Z_not_nan. now eexists.
Qed.

Lemma aligned_loop (xd : list float) (cx : counter) (py : list float)
    (items : counter) (pyx : list (list float)) :
  length xd = length ys -> Counter (box xd) = Ok cx -> incl items cx ->
  exists pyx',
    for_each_val (cds_loop_body_val self (box xd) (box ys) (sorted (keys cy)) py)
      pyx items = Ok pyx'.
Proof.
  intros Hlen Hcx. revert pyx.
  induction items as [|item items IH]; intros pyx Hincl; simpl; [now eexists|].
  destruct (aligned_loop_body xd cx py pyx item Hlen Hcx
              (Hincl item (or_introl eq_refl))) as [pyx' ->].
  cbn [rbind]. apply IH. intros i Hi. apply Hincl. now right.
Qed.

End LowCardinality.

Lemma aligned_score (self : CDS) (xs ys : list float) (n0 : Z) :
  length xs = length ys ->
  Z.of_nat (length ys) < 2 ^ 53 ->
  0 <= ffactor self * maxdev self -> 1 <= minc self ->
  count_unique (box ys) = Ok n0 ->
  n0 <= 2 * ffactor self * maxdev self + 1 ->
  Forall (fun e => is_nan e = false) ys ->
  exists v, cds_score_val self (box xs) (box ys) = Ok v.
Proof.
  intros Hlen HN Hk Hc Hu Hfew Hnum.
  unfold cds_score_val.
  destruct (discretized_sequence_val_box xs NUMERICAL (ffactor self)
              (maxdev self) true) as [xd [-> Lxd]].
  rewrite (few_is_not_discretized self ys n0 Hk Hu Hfew).
  cbn [rbind].
  destruct (counter_update_ok is_float is_float_hashable (box xd) []
              (box_is_float xd)) as [cx Hcx].
  destruct (counter_update_ok is_float is_float_hashable (box ys) []
              (box_is_float ys)) as [cy Hcy].
  change (counter_update [] (box xd)) with (Counter (box xd)) in Hcx.
  change (counter_update [] (box ys)) with (Counter (box ys)) in Hcy.
  rewrite Hcx, Hcy. cbn [rbind].
  destruct (aligned_loop self ys n0 HN Hk Hu Hfew Hnum cy Hcy Hc xd cx
              (marginal cy (sorted (keys cy))) cx []
              ltac:(congruence) Hcx (incl_refl cx)) as [pyx ->].
  cbn [rbind]. destruct (Z.of_nat (length pyx) =? 0); now eexists.
Qed.

(** X11.  On the alignment path the count check never fails either: for
    two sequences of equal length below [2^53], when [y] has no NaN and
    at most [2*ffactor*maxdev+1] unique values and [minc >= 1], the
    histogram of every cause-bin over the sorted values of [y] has a total
    equal to the count of the bin, and [cds_score] returns a score. *)
Theorem alignment_path_returns_a_score (self : CDS) (x y : ref)
    (xs ys : list float) (n0 : Z) (h : heap) :
  nth_error h x = Some (box xs) -> nth_error h y = Some (box ys) ->
  length xs = length ys -> Z.of_nat (length ys) < 2 ^ 53 ->
  0 <= ffactor self * maxdev self -> 1 <= minc self ->
  count_unique (box ys) = Ok n0 ->
  n0 <= 2 * ffactor self * maxdev self + 1 ->
  forallb (fun e => negb (is_nan e)) ys = true ->
  (forall cy xd py a,
     Counter (box ys) = Ok cy -> length xd = length ys -> ys <> [] ->
     exists pyxa,
       conditional_histogram_val self (box xd) (box ys) (sorted (keys cy)) py
         (PyFloat a) = Ok pyxa /\
       np_sum pyxa = of_Z (count_eq (box xd) (PyFloat a))) /\
  (exists v, fst (cds_score self x y h) = Ok v).
Proof.
  intros Hx Hy Hlen HN Hk Hc Hu Hfew Hb.
  assert (Hnum : Forall (fun e => is_nan e = false) ys).
  { rewrite forallb_forall in Hb. apply Forall_forall. intros e He.
    specialize (Hb e He). now destruct (is_nan e). }
  split.
  - intros cy xd py a Hcy Hxd Hne.
    exact (aligned_histogram self ys n0 HN Hk Hu Hfew Hnum cy Hcy xd py a Hxd Hne).
  - rewrite (computes_fst _ _ _ (cds_score_run self h x y _ _ Hx Hy)).
    exact (aligned_score self xs ys n0 Hlen HN Hk Hc Hu Hfew Hnum).
Qed.

Lemma alignment_path_returns_a_score_witness :
  (forall cy xd py a,
     Counter (box three_effects) = Ok cy ->
     length xd = length three_effects -> three_effects <> [] ->
     exists pyxa,
       conditional_histogram_val CDS_default (box xd) (box three_effects)
         (sorted (keys cy)) py (PyFloat a) = Ok pyxa /\
       np_sum pyxa = of_Z (count_eq (box xd) (PyFloat a))) /\
  (exists v, fst (cds_score CDS_default 0%nat 1%nat two_causes_heap) = Ok v).
Proof.
  apply (alignment_path_returns_a_score CDS_default 0%nat 1%nat two_causes
           three_effects 3 two_causes_heap eq_refl eq_refl).
  - reflexivity.
  - vm_compute. reflexivity.
  - simpl. lia.
  - simpl. lia.
  - vm_compute. reflexivity.
  - simpl. lia.
  - vm_compute. reflexivity.
Defined.

(** * Discretized values are integers, and a single row has no spread *)

Import F64Facts Rounding Arith Exact Trips.

(** ** The conversion of the discretized values to integers *)

Lemma of_Z_small_lt_infinity (k : Z) :
  0 <= k < 2 ^ 53 ->
  ltb (of_Z k) (S754_infinity false) = true /\
  ltb (S754_infinity true) (of_Z (- k)) = true.
Proof.
  intros Hk. destruct (Z.eq_dec k 0) as [->|Nk]; [split; reflexivity|].
  rewrite of_Z_exact, of_Z_exact_opp by lia. split; reflexivity.
Qed.

Lemma clip_integral (k : Z) (w : float) :
  wf w -> 0 <= k < 2 ^ 53 ->
  is_nan (clip (- k) k (rint w)) = false ->
  integral (clip (- k) k (rint w)).
Proof.
  intros Ww Hk. destruct (of_Z_small_lt_infinity k Hk) as [Hi1 Hi2].
  assert (Ik : integral (of_Z k)) by (apply of_Z_integral; lia).
  assert (Ik' : integral (of_Z (- k))) by (apply of_Z_integral; lia).
  unfold clip.
  destruct (ltb (of_Z k) (rint w)) eqn:E1.
  - now destruct (ltb (of_Z k) (of_Z (- k))).
  - destruct (ltb (rint w) (of_Z (- k))) eqn:E2; [auto|].
    intros Nr. destruct w as [s|s| |s m e]; try discriminate.
    + exact I.
    + simpl in E1, E2. destruct s; congruence.
    + now apply rint_integral.
Qed.

Lemma discretize_wf (xs : list float) (f m : Z) (norm : bool) :
  Forall wf xs ->
  Forall wf (if norm then restandardize xs m else xs).
Proof.
  intros H. destruct norm; [|exact H].
  unfold restandardize. apply Forall_map. apply Forall_forall.
  intros e _. apply div_wf.
Qed.

Lemma discretize_round_trip (xs : list float) (f m : Z) (norm : bool) :
  Forall wf xs -> 0 <= f * m < 2 ^ 53 ->
  Forall (fun e => is_nan e = false ->
                   eqb (of_Z (to_int64 e)) e = true /\
                   - (f * m) <= to_int64 e <= f * m)
         (discretize xs f m norm).
Proof.
  intros Hx Hk. unfold discretize, np_round.
  pose proof (discretize_wf xs f m norm Hx) as Hx1.
  set (x1 := if norm then restandardize xs m else xs) in *.
  replace (- f * m) with (- (f * m)) by lia.
  rewrite !Forall_map. eapply Forall_impl; [|exact Hx1].
  intros e We Nd.
  assert (Ww : wf (mul e (of_Z f))) by (apply mul_wf; [exact We|apply of_Z_wf]).
  pose proof (clip_integral (f * m) _ Ww Hk Nd) as Hi.
  destruct (clip_between (f * m) _ ltac:(lia) Nd) as [Lo Hi'].
  split.
  - now apply (integral_round_trip (f * m)).
  - apply to_int64_between; auto.
    apply clip_wf. now apply rint_wf.
Qed.

(** X12.  The conversion [astype(int)] loses nothing on the values the
    discretizer returns: for binary64 input and [0 <= ffactor*maxdev <
    2^53], every discretized value that is not NaN is an integer between
    [-ffactor*maxdev] and [ffactor*maxdev], equal to the float of its
    integer conversion. *)
Theorem discretized_values_are_integers (xs : list float) (f m : Z) (norm : bool) :
  forallb (valid_binary prec emax) xs = true ->
  0 <= f * m < 2 ^ 53 ->
  Forall (fun e => is_nan e = false ->
                   eqb (of_Z (to_int64 e)) e = true /\
                   - (f * m) <= to_int64 e <= f * m)
         (discretize xs f m norm).
Proof.
  intros Hv Hk. apply discretize_round_trip; [|exact Hk].
  rewrite forallb_forall in Hv. apply Forall_forall.
  intros e He. apply valid_wf. now apply Hv.
Qed.

Lemma discretized_values_are_integers_witness :
  Forall (fun e => is_nan e = false ->
                   eqb (of_Z (to_int64 e)) e = true /\
                   - (2 * 3) <= to_int64 e <= 2 * 3)
         (discretize (ramp 20) 2 3 true).
Proof.
  apply (discretized_values_are_integers (ramp 20) 2 3 true).
  - vm_compute. reflexivity.
  - vm_compute. split; [discriminate|reflexivity].
Defined.

(** ** A single row *)

Lemma div_one_finite (K : Z) (x : float) :
  finite_below K x -> div x (of_Z 1) = x.
Proof.
  destruct x as [s|s| |s m e]; simpl; try tauto.
  - intros _. now destruct s.
  - intros [Hc _]. now apply div_one.
Qed.

Lemma zip_with_map_self {A B} (f : A -> A -> B) (g : A -> A) (l : list A) :
  zip_with f l (map g l) = map (fun e => f e (g e)) l.
Proof. induction l as [|x l IH]; simpl; congruence. Qed.

Lemma fold_add_zeros (l : list float) :
  Forall (fun e => e = S754_zero false) l ->
  fold_left add l (S754_zero false) = S754_zero false.
Proof. induction 1 as [|e l -> _ IH]; simpl; auto. Qed.

Lemma np_sum_zeros (l : list float) :
  Forall (fun e => e = S754_zero false) l -> np_sum l = S754_zero false.
Proof.
  intros H. destruct H as [|e l -> H]; [reflexivity|].
  simpl. now apply fold_add_zeros.
Qed.

Lemma div_zero_len (l : list float) :
  l <> [] -> div (S754_zero false) (len l) = S754_zero false.
Proof.
  intros H. destruct (len_above l H) as [L S].
  unfold signed in S.
  destruct (len l) as [s|s| |s m e]; simpl in *; try tauto;
    injection S as ->; reflexivity.
Qed.

Lemma np_std_zeros (l : list float) :
  l <> [] -> Forall (fun e => e = S754_zero false) l ->
  np_std l = S754_zero false.
Proof.
  intros Hne Hz. unfold np_std, np_mean.
  rewrite (np_sum_zeros l Hz), (div_zero_len l Hne).
  rewrite map_map.
  rewrite np_sum_zeros.
  - now rewrite div_zero_len.
  - apply Forall_map. eapply Forall_impl; [|exact Hz]. now intros e ->.
Qed.

Lemma aggregate_single (K : Z) (r : list float) :
  r <> [] -> Forall (finite_below K) r -> aggregate [r] = S754_zero false.
Proof.
  intros Hne Hr. unfold aggregate, mean_axis0.
  change (Z.of_nat (length [r])) with 1. cbn [fold_left map concat].
  rewrite app_nil_r, zip_with_map_self.
  apply np_std_zeros.
  - destruct r; [congruence|discriminate].
  - apply Forall_map. eapply Forall_impl; [|exact Hr].
    intros e He. rewrite (div_one_finite K e He). exact (sub_self K e He).
Qed.

Lemma one_row_scores_zero (self : CDS) (xv yv xdv : ndarray) (cx : counter)
    (v : float) :
  Z.of_nat (length yv) < 2 ^ 63 ->
  discretized_sequence_val xv NUMERICAL (ffactor self) (maxdev self) true = Ok xdv ->
  Counter xdv = Ok cx ->
  (length (qualifying self cx) <= 1)%nat ->
  cds_score_val self xv yv = Ok v -> v = S754_zero false.
Proof.
  intros HN Hxd Hcx Hq. unfold cds_score_val. rewrite Hxd. cbn [rbind].
  destruct (discretized_sequence_val yv _ _ _ _) as [ydv|e]; cbn [rbind];
    [|discriminate].
  rewrite Hcx. cbn [rbind].
  destruct (Counter ydv) as [cy|e]; cbn [rbind]; [|discriminate].
  destruct (for_each_val _ _ _) as [pyx|e] eqn:Hl; cbn [rbind]; [|discriminate].
  pose proof (for_each_val_rows _ _ _ _ _ _ _ _ Hl) as Hrows. simpl in Hrows.
  assert (Hg : Forall good_row pyx).
  { apply (for_each_val_good _ _ _ _ _ _ _ _ HN) in Hl; auto.
    eapply Forall_impl; [|exact (Counter_counts _ _ Hcx)].
    intros kv H. simpl in H. lia. }
  destruct pyx as [|r [|r' pyx]].
  - now intros [= <-].
  - change (Z.of_nat (length [r]) =? 0) with false. cbv iota.
    intros [= <-]. inversion Hg as [|? ? [Hne Hr] _]; subst.
    exact (aggregate_single 65 r Hne Hr).
  - simpl in Hrows. lia.
Qed.

(** X13.  When at most one bin of the cause has more than [minc] samples,
    the score that [cds_score] returns is exactly [0.0]: the mean of a
    single row is the row itself, and the deviation of zeros is zero. *)
Theorem one_qualifying_bin_scores_zero (self : CDS) (x y : ref)
    (xv yv xdv : ndarray) (cx : counter) (h : heap) (v : float) :
  nth_error h x = Some xv -> nth_error h y = Some yv ->
  Z.of_nat (length yv) < 2 ^ 63 ->
  discretized_sequence_val xv NUMERICAL (ffactor self) (maxdev self) true = Ok xdv ->
  Counter xdv = Ok cx ->
  (length (qualifying self cx) <= 1)%nat ->
  fst (cds_score self x y h) = Ok v -> v = S754_zero false.
Proof.
  intros Hx Hy HN Hxd Hcx Hq H.
  rewrite (computes_fst _ _ _ (cds_score_run self h x y xv yv Hx Hy)) in H.
  exact (one_row_scores_zero self xv yv xdv cx v HN Hxd Hcx Hq H).
Qed.

(** Twenty samples in one bin of the cause and three bins of one sample;
    the effect runs through three values. *)
Definition one_large_bin : list float := map of_Z (repeat 0 20 ++ [1; 2; 3]).

Definition three_values : list float :=
  map of_Z ([0; 1; 2; 0; 1; 2; 0; 1; 2; 0; 1; 2; 0; 1; 2; 0; 1; 2; 0; 1]
            ++ [2; 0; 1]).

Lemma one_qualifying_bin_scores_zero_witness :
  S754_zero false = S754_zero false.
Proof.
  apply (one_qualifying_bin_scores_zero CDS_default 0%nat 1%nat
           (box one_large_bin) (box three_values) (box one_large_bin)
           [(PyFloat (of_Z 0), 20); (PyFloat (of_Z 1), 1);
            (PyFloat (of_Z 2), 1); (PyFloat (of_Z 3), 1)]
           [box one_large_bin; box three_values] (S754_zero false)
           eq_refl eq_refl).
  - vm_compute. reflexivity.
  - vm_compute. reflexivity.
  - vm_compute. reflexivity.
  - vm_compute. lia.
  - vm_compute. reflexivity.
Defined.

(** ** The two discretizations of [discretized_sequences] *)

(** X14.  [discretized_sequences(x, y)] discretizes each of its two
    arguments as [discretized_sequence] does it alone: the array returned
    for [y] is not affected by the discretization of [x], also when [x]
    and [y] are the same array, and both arguments hold what they held. *)
Theorem discretized_sequences_are_independent (h : heap) (x y : ref)
    (xv yv xd yd : ndarray) (f m : Z) :
  nth_error h x = Some xv -> nth_error h y = Some yv ->
  discretized_sequence_val xv NUMERICAL f m true = Ok xd ->
  discretized_sequence_val yv NUMERICAL f m true = Ok yd ->
  exists rx ry h',
    discretized_sequences x y f m h = (Ok (rx, ry), h') /\
    nth_error h' rx = Some xd /\ nth_error h' ry = Some yd /\
    nth_error h' x = Some xv /\ nth_error h' y = Some yv.
Proof.
  intros Hx Hy Hxd Hyd. unfold discretized_sequences.
  destruct (discretized_sequence_refines h x xv NUMERICAL f m true Hx) as [e1 H1].
  rewrite Hxd in H1. destruct H1 as [rx [H1 Hrx]].
  assert (Hy1 : nth_error (h ++ e1) y = Some yv) by now apply nth_error_app_old.
  destruct (discretized_sequence_refines (h ++ e1) y yv NUMERICAL f m true Hy1)
    as [e2 H2].
  rewrite Hyd in H2. destruct H2 as [ry [H2 Hry]].
  exists rx, ry, ((h ++ e1) ++ e2).
  unfold bind at 1. rewrite H1. unfold bind at 1. rewrite H2. unfold ret.
  split; [reflexivity|]. split; [now apply nth_error_app_old|].
  split; [exact Hry|]. split; apply nth_error_app_old; auto.
  now apply nth_error_app_old.
Qed.

Lemma discretized_sequences_are_independent_witness :
  exists rx ry h',
    discretized_sequences 0%nat 0%nat 2 3 [box (ramp 20)] = (Ok (rx, ry), h') /\
    nth_error h' rx = Some (box (discretize (ramp 20) 2 3 true)) /\
    nth_error h' ry = Some (box (discretize (ramp 20) 2 3 true)) /\
    nth_error h' 0%nat = Some (box (ramp 20)) /\
    nth_error h' 0%nat = Some (box (ramp 20)).
Proof.
  apply (discretized_sequences_are_independent [box (ramp 20)] 0%nat 0%nat
           (box (ramp 20)) (box (ramp 20))
           (box (discretize (ramp 20) 2 3 true))
           (box (discretize (ramp 20) 2 3 true)) 2 3 eq_refl eq_refl).
  - vm_compute. reflexivity.
  - vm_compute. reflexivity.
Defined.
